(** * DataLab-PageRank: the distributed citation crawler (scripts/crawler.py)

    A shallow embedding of the crawler worker and the verification of its
    specification.  The worker is a Python script that talks to four
    outside parties: the wall clock, the scholarly HTTP API, Redis (the
    frontier list and two Bloom filters) and PostgreSQL.  The embedding
    threads one [world] value through the code: it holds the state of
    those parties together with "scripts" that decide what the outside
    answers next (how much time elapses, which HTTP reply arrives, whether
    a statement dead-locks, whether a signal has set the shutdown flag).
    Every operation also emits the list of effects it performed, so that
    ordering properties can be read off that list.  The worker's [print]
    calls are not part of the model. *)

From Stdlib Require Import ZArith List String Ascii DecimalString Bool Lia Permutation.
Import ListNotations.
Local Open Scope string_scope.
Local Open Scope list_scope.
Local Open Scope Z_scope.

(* ===================================================================== *)
(** * Part I: the model                                                   *)
(* ===================================================================== *)

(** ** Constants of crawler.py (lines 26-45) *)

Definition BLOOM_NAME : string := "processed_bloom".
Definition QUEUE_BLOOM_NAME : string := "queued_bloom".
Definition API_ROOT : string := "https://api.semanticscholar.org/graph/v1".
Definition API_BATCH_LIMIT : Z := 100.
Definition REQUEST_TIMEOUT : Z := 30.
Definition MAX_REQUEST_ATTEMPTS : Z := 5.
Definition BATCH_SIZE : Z := API_BATCH_LIMIT.
Definition REF_PAGE_LIMIT : Z := 99.
Definition MAX_INSERT_RETRIES : Z := 3.
Definition MAX_MARK_RETRIES : Z := 3.
Definition COMMIT_EVERY : Z := 5.

(** Time is counted in microseconds, the resolution of [time.time()];
    [second] converts the source's durations, which are given in seconds.
    [INSERT_BACKOFF = 1.0] and the limiter's [period = 1.0] are one second. *)
Definition second : Z := 1000000.
Definition INSERT_BACKOFF : Z := 1 * second.

(** ** Python exceptions

    Only the classes the crawler can meet.  [HTTPError], [Timeout] and
    [ConnectionError] are subclasses of [requests.RequestException];
    [DeadlockDetected] is psycopg2's, [ResponseError] is redis-py's. *)

Inductive exn : Type :=
| RequestException (msg : string)
| HTTPError (status : Z)
| Timeout
| ConnectionError
| ValueError
| IndexError
| AttributeError
| DeadlockDetected
| DatabaseError
| ResponseError (msg : string)
| SystemExit (code : Z).

(** [isinstance(e, requests.RequestException)] *)
Definition is_RequestException (e : exn) : bool :=
  match e with
  | RequestException _ | HTTPError _ | Timeout | ConnectionError => true
  | _ => false
  end.

(** [isinstance(e, pg_errors.DeadlockDetected)] *)
Definition is_DeadlockDetected (e : exn) : bool :=
  match e with
  | DeadlockDetected => true
  | _ => false
  end.

(** ** The outside world as data *)

(** An HTTP request as [sess.request] receives it: the method, the URL,
    the timeout and the keyword arguments, which are either the [params]
    of the references endpoint or the [json] body of the batch endpoint. *)
Record ref_params : Type := mkParams {
  p_fields : string;
  p_limit : Z;
  p_offset : Z
}.

Inductive kwargs : Type :=
| KwParams (p : ref_params)
| KwJson (ids : list string).

Record request : Type := mkRequest {
  rq_method : string;
  rq_url : string;
  rq_timeout : Z;
  rq_kwargs : kwargs
}.

(** One element of a reference list: [{"paperId": ...}], where the id may
    be null. *)
Record ref_entry : Type := mkRef { ref_paperId : option string }.

(** The [next] member of a references page.  Python's [isinstance(x, int)]
    accepts [int] and also [bool]; everything else (float, string, ...)
    is [NextOther]. *)
Inductive next_field : Type :=
| NextAbsent
| NextInt (n : Z)
| NextBool (b : bool)
| NextOther.

(** One element of the batch endpoint's array. *)
Inductive batch_item : Type :=
| ItemNull
| ItemNotDict
| ItemRecord (paperId : option string) (referenceCount : option Z)
             (references : option (list ref_entry))
             (fieldsOfStudy : option (list string)).

(** A decoded response body, [resp.json()].  Leaf members are taken to
    have the types of the API's schema; the shapes the code tests for
    explicitly are all present. *)
Inductive body : Type :=
| BodyList (items : list batch_item)
| BodyDict (data : option (list ref_entry)) (next : next_field)
| BodyScalar.

Record response : Type := mkResponse {
  status_code : Z;
  retry_after : option string;      (* resp.headers.get("Retry-After") *)
  resp_body : body
}.

(** What one call of [sess.request] does: it raises (a transport error) or
    returns a response. *)
Inductive http_reply : Type :=
| HttpRaises (e : exn)
| HttpReturns (r : response).

(** What PostgreSQL does with one statement or commit. *)
Inductive db_reply : Type :=
| DbOk
| DbDeadlock
| DbFails.

(** The two tables.  Rows are kept in insertion order; the primary keys
    are enforced by the insert operations below. *)
Record database : Type := mkDatabase {
  processed_papers : list (string * list string);
  citations : list (string * string)
}.

Definition empty_database : database := mkDatabase [] [].

(** A Bloom filter: a set of bit positions and the hash functions that
    map a key to its positions.  A key is reported present when all of its
    positions are set, so false positives arise as in the real filter. *)
Record bloom : Type := mkBloom {
  bf_hashes : string -> list nat;
  bf_bits : list nat
}.

(** A frontier entry: the envelope [{"id": pid}] that [json.dumps] writes
    and [json.loads(i)["id"]] reads back. *)
Record envelope : Type := mkEnvelope { env_id : string }.

(** [RateLimiter] objects (lines 67-72); the lock is not modelled, the
    worker is single-threaded. *)
Record RateLimiter : Type := mkRateLimiter {
  calls : list Z;
  max_calls : Z;
  period : Z
}.

(** [limiter = RateLimiter(1)] (line 85) *)
Definition RateLimiter_init (max_calls : Z) : RateLimiter :=
  mkRateLimiter [] max_calls (1 * second).
Definition limiter0 : RateLimiter := RateLimiter_init 1.

Record world : Type := mkWorld {
  w_now : Z;                         (* the wall clock *)
  w_latency : list N;                (* time that passes before each clock reading *)
  w_limiter : RateLimiter;           (* the module-level [limiter] *)
  w_http : list http_reply;          (* what the API answers, call by call *)
  w_shutdown : option nat;           (* checks of shutdown_event left before a signal sets it *)
  w_dbscript : list db_reply;        (* what the database does, statement by statement *)
  w_committed : database;            (* committed rows *)
  w_working : database;              (* rows as the open transaction sees them *)
  w_queue : list envelope;           (* Redis list paper_queue *)
  w_bf_processed : bloom;            (* Redis filter processed_bloom *)
  w_bf_queued : bloom                (* Redis filter queued_bloom *)
}.

(** Effects, in the order the worker performs them.  A call to the API or
    to the database is recorded together with what came back. *)
Inductive event : Type :=
| EvSleep (d : Z)
| EvHttp (rq : request) (reply : http_reply)
| EvInsertCitations (rows : list (string * string)) (reply : db_reply)
| EvInsertProcessed (rows : list (string * list string)) (reply : db_reply)
| EvSelectProcessed (ids : list string) (reply : db_reply)
| EvDDL (reply : db_reply)
| EvTruncate (reply : db_reply)
| EvCommit (reply : db_reply)
| EvRollback
| EvBfReserve (name : string)
| EvBfMAdd (name : string) (keys : list string)
| EvBfMExists (name : string) (keys : list string)
| EvDel (name : string)
| EvLLen
| EvLPop
| EvRPush (entries : list envelope).

(** ** The monad of the worker: state, raised exceptions, emitted effects *)

Inductive outcome (A : Type) : Type :=
| Ret (a : A)
| Raise (e : exn).
Arguments Ret {A} a.
Arguments Raise {A} e.

Record run (A : Type) : Type := mkRun {
  res : outcome A;
  post : world;
  emitted : list event
}.
Arguments mkRun {A} res post emitted.
Arguments res {A} r.
Arguments post {A} r.
Arguments emitted {A} r.

Definition M (A : Type) : Type := world -> run A.

Definition ret {A} (a : A) : M A := fun w => mkRun (Ret a) w [].
Definition raise {A} (e : exn) : M A := fun w => mkRun (Raise e) w [].

Definition bind {A B} (m : M A) (k : A -> M B) : M B :=
  fun w =>
    match m w with
    | mkRun (Ret a) w1 evs1 =>
        match k a w1 with
        | mkRun r w2 evs2 => mkRun r w2 (evs1 ++ evs2)
        end
    | mkRun (Raise e) w1 evs1 => mkRun (Raise e) w1 evs1
    end.

(** [try: m  except <classes>: h]: [handles e] tells whether the except
    clause matches the raised exception. *)
Definition try_except {A} (m : M A) (handles : exn -> bool) (h : exn -> M A) : M A :=
  fun w =>
    match m w with
    | mkRun (Ret a) w1 evs1 => mkRun (Ret a) w1 evs1
    | mkRun (Raise e) w1 evs1 =>
        if handles e
        then match h e w1 with
             | mkRun r w2 evs2 => mkRun r w2 (evs1 ++ evs2)
             end
        else mkRun (Raise e) w1 evs1
    end.

(** [try: m  finally: f] *)
Definition try_finally {A} (m : M A) (f : M unit) : M A :=
  fun w =>
    match m w with
    | mkRun r w1 evs1 =>
        match f w1 with
        | mkRun (Ret _) w2 evs2 => mkRun r w2 (evs1 ++ evs2)
        | mkRun (Raise e) w2 evs2 => mkRun (Raise e) w2 (evs1 ++ evs2)
        end
    end.

Definition emit (e : event) : M unit := fun w => mkRun (Ret tt) w [e].
Definition get_world : M world := fun w => mkRun (Ret w) w [].
Definition put_world (w' : world) : M unit := fun _ => mkRun (Ret tt) w' [].

Declare Scope py_scope.
Delimit Scope py_scope with py.
Notation "x <- m ;; k" := (bind m (fun x => k))
  (at level 100, m at next level, right associativity) : py_scope.
Notation "m ;; k" := (bind m (fun _ => k))
  (at level 100, right associativity) : py_scope.
Local Open Scope py_scope.

(** Field updates of the world. *)
Definition set_now (t : Z) (w : world) : world :=
  mkWorld t (w_latency w) (w_limiter w) (w_http w) (w_shutdown w) (w_dbscript w)
          (w_committed w) (w_working w) (w_queue w) (w_bf_processed w) (w_bf_queued w).
Definition set_latency (l : list N) (w : world) : world :=
  mkWorld (w_now w) l (w_limiter w) (w_http w) (w_shutdown w) (w_dbscript w)
          (w_committed w) (w_working w) (w_queue w) (w_bf_processed w) (w_bf_queued w).
Definition set_limiter (l : RateLimiter) (w : world) : world :=
  mkWorld (w_now w) (w_latency w) l (w_http w) (w_shutdown w) (w_dbscript w)
          (w_committed w) (w_working w) (w_queue w) (w_bf_processed w) (w_bf_queued w).
Definition set_http (h : list http_reply) (w : world) : world :=
  mkWorld (w_now w) (w_latency w) (w_limiter w) h (w_shutdown w) (w_dbscript w)
          (w_committed w) (w_working w) (w_queue w) (w_bf_processed w) (w_bf_queued w).
Definition set_shutdown (s : option nat) (w : world) : world :=
  mkWorld (w_now w) (w_latency w) (w_limiter w) (w_http w) s (w_dbscript w)
          (w_committed w) (w_working w) (w_queue w) (w_bf_processed w) (w_bf_queued w).
Definition set_dbscript (s : list db_reply) (w : world) : world :=
  mkWorld (w_now w) (w_latency w) (w_limiter w) (w_http w) (w_shutdown w) s
          (w_committed w) (w_working w) (w_queue w) (w_bf_processed w) (w_bf_queued w).
Definition set_committed (d : database) (w : world) : world :=
  mkWorld (w_now w) (w_latency w) (w_limiter w) (w_http w) (w_shutdown w) (w_dbscript w)
          d (w_working w) (w_queue w) (w_bf_processed w) (w_bf_queued w).
Definition set_working (d : database) (w : world) : world :=
  mkWorld (w_now w) (w_latency w) (w_limiter w) (w_http w) (w_shutdown w) (w_dbscript w)
          (w_committed w) d (w_queue w) (w_bf_processed w) (w_bf_queued w).
Definition set_queue (q : list envelope) (w : world) : world :=
  mkWorld (w_now w) (w_latency w) (w_limiter w) (w_http w) (w_shutdown w) (w_dbscript w)
          (w_committed w) (w_working w) q (w_bf_processed w) (w_bf_queued w).
Definition set_bf_processed (b : bloom) (w : world) : world :=
  mkWorld (w_now w) (w_latency w) (w_limiter w) (w_http w) (w_shutdown w) (w_dbscript w)
          (w_committed w) (w_working w) (w_queue w) b (w_bf_queued w).
Definition set_bf_queued (b : bloom) (w : world) : world :=
  mkWorld (w_now w) (w_latency w) (w_limiter w) (w_http w) (w_shutdown w) (w_dbscript w)
          (w_committed w) (w_working w) (w_queue w) (w_bf_processed w) b.

(** ** The clock: [time.time()] and [time.sleep()]

    Before each reading of the clock some time has passed, as the latency
    script says; the script holds naturals, so the clock never runs
    backwards.  [time.sleep(d)] lasts [d]; whatever it oversleeps is part
    of the latency of the next reading.  A negative [d] raises
    [ValueError], as in Python. *)

Definition time_time : M Z :=
  fun w =>
    let '(l, rest) := match w_latency w with
                      | [] => (0%N, [])
                      | l :: rest => (l, rest)
                      end in
    let t := w_now w + Z.of_N l in
    mkRun (Ret t) (set_now t (set_latency rest w)) [].

Definition time_sleep (d : Z) : M unit :=
  fun w =>
    if d <? 0 then mkRun (Raise ValueError) w []
    else mkRun (Ret tt) (set_now (w_now w + d) w) [EvSleep d].

(** ** RateLimiter.acquire (lines 73-83) *)

(** [while self.calls and self.calls[0] <= bound: self.calls.popleft()] *)
Fixpoint evict (bound : Z) (cs : list Z) : list Z :=
  match cs with
  | [] => []
  | c :: rest => if c <=? bound then evict bound rest else cs
  end.

Definition RateLimiter_acquire : M unit :=
  now <- time_time ;;
  w <- get_world ;;
  let self := w_limiter w in
  let cs := evict (now - period self) (calls self) in
  if Z.of_nat (List.length cs) >=? max_calls self then
    match cs with
    | [] => raise IndexError                      (* self.calls[0] on an empty deque *)
    | c0 :: _ =>
        time_sleep (period self - (now - c0)) ;;
        now' <- time_time ;;
        w' <- get_world ;;
        let cs' := evict (now' - period self) cs in
        put_world (set_limiter (mkRateLimiter (cs' ++ [now']) (max_calls self) (period self)) w')
    end
  else
    put_world (set_limiter (mkRateLimiter (cs ++ [now]) (max_calls self) (period self)) w).

(** ** The HTTP client: send_request (lines 87-107) *)

(** [sess.request(...)]: the next reply of the script; with no reply left
    the API is unreachable. *)
Definition next_http_reply (w : world) : http_reply :=
  hd (HttpRaises ConnectionError) (w_http w).

Definition sess_request (rq : request) : M response :=
  fun w =>
    let reply := next_http_reply w in
    let w' := set_http (tl (w_http w)) w in
    match reply with
    | HttpRaises e => mkRun (Raise e) w' [EvHttp rq reply]
    | HttpReturns r => mkRun (Ret r) w' [EvHttp rq reply]
    end.

(** Python's [int(s)] on a string: surrounding white space is dropped, a
    sign may come first, then decimal digits, between which single
    underscores are allowed.  Anything else raises [ValueError]. *)
Definition is_space (c : ascii) : bool :=
  let n := nat_of_ascii c in
  (Nat.eqb n 32 || (Nat.leb 9 n && Nat.leb n 13))%bool.

Definition digit_of (c : ascii) : option Z :=
  let n := nat_of_ascii c in
  if (Nat.leb 48 n && Nat.leb n 57)%bool then Some (Z.of_nat (n - 48)) else None.

Fixpoint lstrip (cs : list ascii) : list ascii :=
  match cs with
  | c :: rest => if is_space c then lstrip rest else cs
  | [] => []
  end.

Definition strip (cs : list ascii) : list ascii := rev (lstrip (rev (lstrip cs))).

Fixpoint digits_value (acc : Z) (after_digit : bool) (cs : list ascii) : option Z :=
  match cs with
  | [] => if after_digit then Some acc else None
  | c :: rest =>
      match digit_of c with
      | Some d => digits_value (10 * acc + d) true rest
      | None =>
          if (Nat.eqb (nat_of_ascii c) 95 && after_digit)%bool
          then digits_value acc false rest
          else None
      end
  end.

Definition py_int (s : string) : option Z :=
  match strip (list_ascii_of_string s) with
  | c :: rest =>
      if Nat.eqb (nat_of_ascii c) 45 then option_map Z.opp (digits_value 0 false rest)
      else if Nat.eqb (nat_of_ascii c) 43 then digits_value 0 false rest
      else digits_value 0 false (c :: rest)
  | [] => None
  end.

(** [resp.raise_for_status()] of requests: statuses 400..599 raise
    [HTTPError]; every other status returns. *)
Definition raise_for_status (resp : response) : M unit :=
  if (400 <=? status_code resp) && (status_code resp <? 600)
  then raise (HTTPError (status_code resp))
  else ret tt.

(** [str(n)] for an integer *)
Definition str_of_Z (z : Z) : string := NilZero.string_of_int (Z.to_int z).

(** The body of [send_request], lines 93-107, without its decorator. *)
Definition send_request_once (method url : string) (kw : kwargs) : M response :=
  RateLimiter_acquire ;;
  resp <- sess_request (mkRequest method url REQUEST_TIMEOUT kw) ;;
  if (status_code resp =? 429) || (status_code resp =? 500) then
    match retry_after resp with
    | Some ra =>
        (if negb (String.eqb ra "") then
           try_except
             (match py_int ra with
              | Some wait_time => time_sleep (wait_time * second)
              | None => raise ValueError
              end)
             (fun e => match e with ValueError => true | _ => false end)
             (fun _ => ret tt)
         else ret tt) ;;
        raise (RequestException ("API error " ++ str_of_Z (status_code resp))%string)
    | None => raise (RequestException ("API error " ++ str_of_Z (status_code resp))%string)
    end
  else
    raise_for_status resp ;;
    ret resp.

(** tenacity's [wait_exponential(multiplier=1, min=1, max=30)]: the wait,
    in seconds, after attempt number [attempt] has failed. *)
Definition wait_exponential (attempt : Z) : Z :=
  Z.max (Z.max 0 1) (Z.min (1 * 2 ^ (attempt - 1)) 30).

(** tenacity's [@retry(retry=retry_if_exception_type(RequestException),
    stop=stop_after_attempt(n), wait=..., reraise=True)].  [left] counts the
    attempts that may still follow attempt number [attempt]: with none left
    the stop condition [attempt >= n] holds and the last exception is
    re-raised; an exception of another class is never caught. *)
Fixpoint tenacity_retry {A} (left : nat) (attempt : Z) (f : M A) : M A :=
  try_except f is_RequestException
    (fun e =>
       match left with
       | O => raise e
       | S left' =>
           time_sleep (wait_exponential attempt * second) ;;
           tenacity_retry left' (attempt + 1) f
       end).

Definition send_request (method url : string) (kw : kwargs) : M response :=
  tenacity_retry (Z.to_nat MAX_REQUEST_ATTEMPTS - 1) 1 (send_request_once method url kw).

(** ** The shutdown flag

    [shutdown_event] is set by the signal handler and never cleared.
    [w_shutdown = Some n] says that the signal arrives after [n] more
    checks of the flag; [None] that it never arrives. *)
Definition shutdown_is_set : M bool :=
  fun w =>
    match w_shutdown w with
    | None => mkRun (Ret false) w []
    | Some O => mkRun (Ret true) w []
    | Some (S n) => mkRun (Ret false) (set_shutdown (Some n) w) []
    end.

(** ** Reference pagination: fetch_pages (lines 189-222) *)

Definition MAX_OFFSET : Z := 9999.

(** [if rid:] for an id that is a string or null *)
Definition truthy_id (o : option string) : option string :=
  match o with
  | Some s => if String.eqb s "" then None else Some s
  | None => None
  end.

(** The rows [(pid, rid)] one page or one embedded list contributes. *)
Fixpoint edges_of (pid : string) (entries : list ref_entry) : list (string * string) :=
  match entries with
  | [] => []
  | e :: rest =>
      match truthy_id (ref_paperId e) with
      | Some rid => (pid, rid) :: edges_of pid rest
      | None => edges_of pid rest
      end
  end.

(** The value of [nxt] when [isinstance(nxt, int)] holds; [True] and
    [False] are the integers 1 and 0. *)
Definition int_of_next (nxt : next_field) : option Z :=
  match nxt with
  | NextInt n => Some n
  | NextBool b => Some (if b then 1 else 0)
  | NextAbsent | NextOther => None
  end.

Definition references_url (pid : string) : string :=
  (API_ROOT ++ "/paper/" ++ pid ++ "/references")%string.

(** The [try] block of lines 198-206: the request for the page at
    [offset]; [None] when the request failed for good, which the loop
    answers with [break]. *)
Definition fetch_page (pid : string) (offset : Z) : M (option response) :=
  try_except
    (resp <- send_request "GET" (references_url pid)
               (KwParams (mkParams "paperId" REF_PAGE_LIMIT offset)) ;;
     ret (Some resp))
    is_RequestException
    (fun _ => ret None).

(** One run of the [while] loop per unit of [fuel].  [fetch_pages] below
    supplies as much fuel as there are offsets up to [MAX_OFFSET], and the
    offset grows on every turn, so the branch for no fuel is never
    taken while the loop condition holds (lemma [fetch_pages_loop_fuel]). *)
Fixpoint fetch_pages_loop (fuel : nat) (pid : string) (total_refs offset : Z)
         (rows : list (string * string)) : M (list (string * string)) :=
  if (offset <? total_refs) && (offset <=? MAX_OFFSET) then
    match fuel with
    | O => ret rows
    | S fuel' =>
        stop <- shutdown_is_set ;;
        if stop then ret rows
        else
          got <- fetch_page pid offset ;;
          match got with
          | None => ret rows
          | Some resp =>
              match resp_body resp with
              | BodyDict data nxt =>
                  match data with
                  | None | Some [] => ret rows
                  | Some entries =>
                      let rows' := rows ++ edges_of pid entries in
                      match int_of_next nxt with
                      | None => ret rows'
                      | Some n =>
                          if (n <=? offset) || (n >? MAX_OFFSET) then ret rows'
                          else fetch_pages_loop fuel' pid total_refs n rows'
                      end
                  end
              | BodyList _ | BodyScalar => raise AttributeError
              end
          end
    end
  else ret rows.

Definition fetch_pages (pid : string) (start_offset total_refs : Z)
  : M (string * list (string * string)) :=
  rows <- fetch_pages_loop (Z.to_nat (MAX_OFFSET + 1 - start_offset))
            pid total_refs start_offset [] ;;
  ret (pid, rows).

(** ** PostgreSQL *)

(** The server's verdict on the next statement; with no verdict left in
    the script the statement succeeds. *)
Definition next_db_reply (w : world) : db_reply := hd DbOk (w_dbscript w).

(** One round trip to the server: [ev] is the statement, recorded with
    the verdict. *)
Definition db_exec (ev : db_reply -> event) : M unit :=
  fun w =>
    let reply := next_db_reply w in
    let w' := set_dbscript (tl (w_dbscript w)) w in
    match reply with
    | DbOk => mkRun (Ret tt) w' [ev reply]
    | DbDeadlock => mkRun (Raise DeadlockDetected) w' [ev reply]
    | DbFails => mkRun (Raise DatabaseError) w' [ev reply]
    end.

Definition mem_string (x : string) (l : list string) : bool :=
  existsb (String.eqb x) l.

Definition mem_edge (x : string * string) (l : list (string * string)) : bool :=
  existsb (fun y => String.eqb (fst x) (fst y) && String.eqb (snd x) (snd y)) l.

(** [INSERT INTO citations ... ON CONFLICT DO NOTHING] *)
Definition insert_citation_rows (rows table : list (string * string))
  : list (string * string) :=
  fold_left (fun t row => if mem_edge row t then t else t ++ [row]) rows table.

(** [INSERT INTO processed_papers ... ON CONFLICT DO NOTHING] *)
Definition insert_processed_rows (rows table : list (string * list string))
  : list (string * list string) :=
  fold_left (fun t row => if mem_string (fst row) (map fst t) then t else t ++ [row])
            rows table.

(** [chunked] (lines 177-179): [it[i:i+size]] for [i] in
    [range(0, len(it), size)]. *)
Definition chunked {A} (it : list A) (size : nat) : list (list A) :=
  map (fun k => firstn size (skipn (k * size) it))
      (seq 0 ((List.length it + size - 1) / size)).

(** psycopg2's [execute_values]: one INSERT statement per page of 100
    rows, so none at all for an empty list. *)
Fixpoint run_pages {A} (stmt : list A -> M unit) (pages : list (list A)) : M unit :=
  match pages with
  | [] => ret tt
  | page :: rest => stmt page ;; run_pages stmt rest
  end.

Definition insert_citations_stmt (page : list (string * string)) : M unit :=
  db_exec (EvInsertCitations page) ;;
  w <- get_world ;;
  put_world (set_working (mkDatabase (processed_papers (w_working w))
                            (insert_citation_rows page (citations (w_working w)))) w).

Definition insert_processed_stmt (page : list (string * list string)) : M unit :=
  db_exec (EvInsertProcessed page) ;;
  w <- get_world ;;
  put_world (set_working (mkDatabase
                            (insert_processed_rows page (processed_papers (w_working w)))
                            (citations (w_working w))) w).

Definition conn_commit : M unit :=
  db_exec EvCommit ;;
  w <- get_world ;;
  put_world (set_committed (w_working w) w).

Definition conn_rollback : M unit :=
  emit EvRollback ;;
  w <- get_world ;;
  put_world (set_working (w_committed w) w).

(** [SELECT paper_id FROM processed_papers WHERE paper_id = ANY(ids)] and
    [cur.fetchall()] *)
Definition select_processed (ids : list string) : M (list string) :=
  db_exec (EvSelectProcessed ids) ;;
  w <- get_world ;;
  ret (filter (fun k => mem_string k ids) (map fst (processed_papers (w_working w)))).

(** [DB_POOL.putconn(conn)]: the pool rolls back whatever the connection
    has not committed before it keeps the connection. *)
Definition putconn : M unit :=
  w <- get_world ;;
  put_world (set_working (w_committed w) w).

(** ** Redis: the Bloom filters and the frontier list *)

Definition bf_exists (b : bloom) (k : string) : bool :=
  forallb (fun i => existsb (Nat.eqb i) (bf_bits b)) (bf_hashes b k).

Definition bf_add (b : bloom) (k : string) : bloom :=
  mkBloom (bf_hashes b) (bf_bits b ++ bf_hashes b k).

(** [BF.MADD]: the keys are added one after the other; each flag tells
    whether its key was newly added. *)
Fixpoint bf_madd_flags (b : bloom) (keys : list string) : list bool * bloom :=
  match keys with
  | [] => ([], b)
  | k :: rest =>
      let flag := negb (bf_exists b k) in
      let '(flags, b') := bf_madd_flags (bf_add b k) rest in
      (flag :: flags, b')
  end.

Definition get_bf (name : string) (w : world) : bloom :=
  if String.eqb name BLOOM_NAME then w_bf_processed w else w_bf_queued w.

Definition set_bf (name : string) (b : bloom) (w : world) : world :=
  if String.eqb name BLOOM_NAME then set_bf_processed b w else set_bf_queued b w.

Definition wrong_arity (cmd : string) : exn :=
  ResponseError ("wrong number of arguments for '" ++ cmd ++ "' command")%string.

(** [r.execute_command("BF.MADD", name, *keys)].  The command takes a key
    and at least one item; the server rejects it otherwise and redis-py
    raises [ResponseError]. *)
Definition BF_MADD (name : string) (keys : list string) : M (list bool) :=
  emit (EvBfMAdd name keys) ;;
  match keys with
  | [] => raise (wrong_arity "BF.MADD")
  | _ =>
      w <- get_world ;;
      let '(flags, b') := bf_madd_flags (get_bf name w) keys in
      put_world (set_bf name b' w) ;;
      ret flags
  end.

(** [r.execute_command("BF.MEXISTS", name, *keys)] *)
Definition BF_MEXISTS (name : string) (keys : list string) : M (list bool) :=
  emit (EvBfMExists name keys) ;;
  match keys with
  | [] => raise (wrong_arity "BF.MEXISTS")
  | _ =>
      w <- get_world ;;
      ret (map (bf_exists (get_bf name w)) keys)
  end.

(** [BF.RESERVE name error_rate capacity] after the key was deleted: an
    empty filter. *)
Definition BF_RESERVE (name : string) : M unit :=
  emit (EvBfReserve name) ;;
  w <- get_world ;;
  put_world (set_bf name (mkBloom (bf_hashes (get_bf name w)) []) w).

Definition r_lpop : M (option envelope) :=
  emit EvLPop ;;
  w <- get_world ;;
  match w_queue w with
  | [] => ret None
  | e :: rest => put_world (set_queue rest w) ;; ret (Some e)
  end.

Definition r_rpush (entries : list envelope) : M unit :=
  emit (EvRPush entries) ;;
  match entries with
  | [] => raise (wrong_arity "rpush")
  | _ =>
      w <- get_world ;;
      put_world (set_queue (w_queue w ++ entries) w)
  end.

Definition r_llen : M Z :=
  emit EvLLen ;;
  w <- get_world ;;
  ret (Z.of_nat (List.length (w_queue w))).

Definition r_delete_queue : M unit :=
  emit (EvDel "paper_queue") ;;
  w <- get_world ;;
  put_world (set_queue [] w).

Definition r_delete_bf (name : string) : M unit :=
  emit (EvDel name) ;;
  w <- get_world ;;
  put_world (set_bf name (mkBloom (bf_hashes (get_bf name w)) []) w).

(** ** The batch writer (lines 126-160) *)

(** [range(1, n + 1)] *)
Definition attempts_upto (n : Z) : list Z :=
  map (fun k => Z.of_nat k + 1) (seq 0 (Z.to_nat n)).

(** The loop [for attempt in range(1, n + 1): try: body; return
    except DeadlockDetected: rollback; if attempt == n: raise;
    sleep(INSERT_BACKOFF * 2 ** (attempt - 1))] that both writers share. *)
Fixpoint deadlock_retry (n : Z) (attempts : list Z) (body : M unit) : M unit :=
  match attempts with
  | [] => ret tt
  | attempt :: rest =>
      try_except body is_DeadlockDetected
        (fun e =>
           conn_rollback ;;
           if attempt =? n then raise e
           else
             time_sleep (INSERT_BACKOFF * 2 ^ (attempt - 1)) ;;
             deadlock_retry n rest body)
  end.

Definition safe_insert_citations (rows : list (string * string)) : M unit :=
  deadlock_retry MAX_INSERT_RETRIES (attempts_upto MAX_INSERT_RETRIES)
    (run_pages insert_citations_stmt (chunked rows 100) ;;
     conn_commit).

(** A Python dict with string keys, in insertion order. *)
Definition dict (V : Type) : Type := list (string * V).

Fixpoint dict_set {V} (k : string) (v : V) (d : dict V) : dict V :=
  match d with
  | [] => [(k, v)]
  | (k', v') :: rest =>
      if String.eqb k k' then (k, v) :: rest else (k', v') :: dict_set k v rest
  end.

Definition dict_keys {V} (d : dict V) : list string := map fst d.

Definition mark_processed (fos_map : dict (list string)) : M unit :=
  match fos_map with
  | [] => ret tt
  | _ =>
      deadlock_retry MAX_MARK_RETRIES (attempts_upto MAX_MARK_RETRIES)
        (run_pages insert_processed_stmt (chunked fos_map 100) ;;
         conn_commit ;;
         BF_MADD BLOOM_NAME (dict_keys fos_map) ;;
         ret tt)
  end.

(** ** The dedup oracle: filter_new_ids (lines 162-175) *)

(** [[pid for pid, f in zip(ids, flags) if f]] and its complement *)
Definition flagged (want : bool) (ids : list string) (flags : list bool) : list string :=
  map fst (filter (fun p => Bool.eqb (snd p) want) (combine ids flags)).

Definition filter_new_ids (candidate_ids : list string) : M (list string) :=
  match candidate_ids with
  | [] => ret []
  | _ =>
      flags <- BF_MEXISTS BLOOM_NAME candidate_ids ;;
      let maybe_seen := flagged true candidate_ids flags in
      let new_ids := flagged false candidate_ids flags in
      match maybe_seen with
      | [] => ret new_ids
      | _ =>
          fetched <- select_processed maybe_seen ;;
          let seen := nodup string_dec fetched in
          BF_MADD BLOOM_NAME seen ;;
          ret (new_ids ++ filter (fun pid => negb (mem_string pid seen)) maybe_seen)
      end
  end.

(** ** The crawl loop and the lifecycle: main (lines 224-342) *)

Definition batch_url : string :=
  (API_ROOT ++ "/paper/batch?fields=paperId,referenceCount,fieldsOfStudy,references.paperId")%string.

Definition or_default {A} (o : option A) (d : A) : A :=
  match o with
  | Some a => a
  | None => d
  end.

(** What a batch has collected so far: [fos_map] and [ref_rows]. *)
Definition collected : Type := (dict (list string) * list (string * string))%type.

(** The body of [for rec in data] (lines 298-317) *)
Definition process_record (rec : batch_item) (st : collected) : M collected :=
  match rec with
  | ItemNull | ItemNotDict => ret st
  | ItemRecord paperId referenceCount references fieldsOfStudy =>
      match truthy_id paperId with
      | None => ret st
      | Some pid =>
          let total_refs := or_default referenceCount 0 in
          let nested := or_default references [] in
          let fos_map := dict_set pid (or_default fieldsOfStudy []) (fst st) in
          let ref_rows := snd st ++ edges_of pid nested in
          if (total_refs >? REF_PAGE_LIMIT) && (Z.of_nat (List.length nested) >? 98) then
            try_except
              (r <- fetch_pages pid REF_PAGE_LIMIT total_refs ;;
               ret (fos_map, ref_rows ++ snd r))
              is_RequestException
              (fun _ => ret (fos_map, ref_rows))
          else ret (fos_map, ref_rows)
      end
  end.

Fixpoint process_records (recs : list batch_item) (st : collected) : M collected :=
  match recs with
  | [] => ret st
  | rec :: rest => st' <- process_record rec st ;; process_records rest st'
  end.

(** The [try] block of lines 283-291: the batch request for one chunk;
    [None] when it failed for good, which the loop answers with
    [continue]. *)
Definition fetch_chunk (chunk : list string) : M (option response) :=
  try_except
    (resp <- send_request "POST" batch_url (KwJson chunk) ;;
     ret (Some resp))
    is_RequestException
    (fun _ => ret None).

(** The loop [for chunk in chunked(to_fetch, API_BATCH_LIMIT)] (lines
    280-317); [None] is the [return] of line 282. *)
Fixpoint process_chunks (chunks : list (list string)) (st : collected)
  : M (option collected) :=
  match chunks with
  | [] => ret (Some st)
  | chunk :: rest =>
      stop <- shutdown_is_set ;;
      if stop then ret None
      else
        got <- fetch_chunk chunk ;;
        match got with
        | None => process_chunks rest st
        | Some resp =>
            match resp_body resp with
            | BodyList data =>
                st' <- process_records data st ;;
                process_chunks rest st'
            | BodyDict _ _ | BodyScalar => process_chunks rest st
            end
        end
  end.

(** How the [try] block of one batch ends: the loop goes on, or [main]
    returns. *)
Inductive control : Type :=
| Continue
| Return.

(** Lines 322-329: the cited ids pass both oracles and are enqueued. *)
Definition enqueue_cited (ref_rows : list (string * string)) : M unit :=
  let cited_ids := map snd ref_rows in
  new_ids <- filter_new_ids cited_ids ;;
  match new_ids with
  | [] => ret tt
  | _ =>
      flags <- BF_MADD QUEUE_BLOOM_NAME new_ids ;;
      let truly_new := flagged true new_ids flags in
      match truly_new with
      | [] => ret tt
      | _ => r_rpush (map mkEnvelope truly_new)
      end
  end.

(** Lines 319-320: the two writes of a batch. *)
Definition write_batch (st : collected) : M unit :=
  safe_insert_citations (snd st) ;;
  mark_processed (fst st).

(** The [try] block of one batch (lines 273-337). *)
Definition batch_body (pids : list string) (batch_count : Z) : M control :=
  to_fetch <- filter_new_ids pids ;;
  match to_fetch with
  | [] => ret Continue
  | _ =>
      got <- process_chunks (chunked to_fetch (Z.to_nat API_BATCH_LIMIT)) ([], []) ;;
      match got with
      | None => ret Return
      | Some st =>
          write_batch st ;;
          enqueue_cited (snd st) ;;
          (if batch_count mod COMMIT_EVERY =? 0 then conn_commit else ret tt) ;;
          time_time ;;
          r_llen ;;
          ret Continue
      end
  end.

(** [[r.lpop(REDIS_QUEUE) for _ in range(n)]] *)
Fixpoint lpop_many (n : nat) : M (list (option envelope)) :=
  match n with
  | O => ret []
  | S n' => x <- r_lpop ;; xs <- lpop_many n' ;; ret (x :: xs)
  end.

(** [[i for i in items if i]] *)
Fixpoint present (items : list (option envelope)) : list envelope :=
  match items with
  | [] => []
  | Some e :: rest => e :: present rest
  | None :: rest => present rest
  end.

(** How a run of [main] is observed to end: it returned, or it is still
    in its loop when the observation stops. *)
Inductive main_result : Type :=
| Finished
| StillRunning.

(** The [while not shutdown_event.is_set()] loop (lines 259-340), one turn
    per unit of [fuel]. *)
Fixpoint crawl_loop (fuel : nat) (batch_count : Z) : M main_result :=
  match fuel with
  | O => ret StillRunning
  | S fuel' =>
      stop <- shutdown_is_set ;;
      if stop then ret Finished
      else
        time_time ;;
        items <- lpop_many (Z.to_nat BATCH_SIZE) ;;
        match present items with
        | [] => time_sleep (1 * second) ;; crawl_loop fuel' batch_count
        | entries =>
            let pids := map env_id entries in
            let batch_count := batch_count + 1 in
            c <- try_finally (batch_body pids batch_count) putconn ;;
            match c with
            | Continue => crawl_loop fuel' batch_count
            | Return => ret Finished
            end
        end
  end.

(** [init_db] (lines 109-124): four idempotent DDL statements. *)
Definition ddl : M unit := db_exec EvDDL.
Definition init_db : M unit := ddl ;; ddl ;; ddl ;; ddl.

(** [reset_bloom_filters] (lines 181-187) *)
Definition reset_bloom_filters : M unit :=
  r_delete_queue ;;
  r_delete_bf BLOOM_NAME ;;
  r_delete_bf QUEUE_BLOOM_NAME ;;
  BF_RESERVE BLOOM_NAME ;;
  BF_RESERVE QUEUE_BLOOM_NAME.

(** [TRUNCATE processed_papers, citations] *)
Definition truncate_tables : M unit :=
  db_exec EvTruncate ;;
  w <- get_world ;;
  put_world (set_working empty_database w).

(** Lines 225-256: everything [main] does before the loop.  The result
    tells whether the loop is entered; [false] is the [return] of line
    249. *)
Definition main_startup (seeds : list string) (fresh resume : bool) : M bool :=
  init_db ;;
  conn_commit ;;
  putconn ;;
  go <- (if fresh then
           reset_bloom_filters ;;
           truncate_tables ;;
           conn_commit ;;
           putconn ;;
           ret true
         else if resume then
           length <- r_llen ;;
           if length =? 0 then ret false else ret true
         else ret true) ;;
  if go then
    (if fresh then
       match seeds with
       | [] => ret tt
       | _ =>
           BF_MADD QUEUE_BLOOM_NAME seeds ;;
           r_rpush (map mkEnvelope seeds)
       end
     else ret tt) ;;
    ret true
  else ret false.

Definition main (seeds : list string) (fresh resume : bool) (fuel : nat) : M main_result :=
  go <- main_startup seeds fresh resume ;;
  if go then crawl_loop fuel 0 else ret Finished.

(** The script (lines 345-352).  argparse demands exactly one of
    [--fresh] and [--resume] and exits with status 2 otherwise. *)
Definition script (seeds : list string) (fresh resume : bool) (fuel : nat) : M main_result :=
  if xorb fresh resume then main seeds fresh resume fuel
  else raise (SystemExit 2).

(** The exit status of the Python process: 0 when the script runs to its
    end, the code of a [SystemExit], 1 for any other exception that
    nothing caught.  A run that is still going has none. *)
Definition exit_code (r : outcome main_result) : option Z :=
  match r with
  | Ret Finished => Some 0
  | Ret StillRunning => None
  | Raise (SystemExit c) => Some c
  | Raise _ => Some 1
  end.

(* ===================================================================== *)
(** * Part II: the vocabulary of the specification                        *)
(* ===================================================================== *)

(** ** Sample worlds, used to run the model on concrete inputs *)

(** A one-hash Bloom filter with eight bit positions: a key sets the bit
    given by its length, so keys of equal length collide. *)
Definition sample_hashes (s : string) : list nat := [(String.length s mod 8)%nat].

(** A worker that has just started: the clock reads 0, the limiter is
    fresh, the tables, the frontier and both filters are empty, the API
    is unreachable, the database never fails, no signal arrives. *)
Definition world0 : world :=
  mkWorld 0 [] limiter0 [] None [] empty_database empty_database []
          (mkBloom sample_hashes []) (mkBloom sample_hashes []).

(** ** The rate limiter *)



(** The limiter's invariant after the admissions [ts]: [self.calls] is the
    tail of [ts], it holds at most [K] timestamps, and every admission it
    has dropped is at least [T] old. *)
Definition limiter_inv (K T : Z) (ts : list Z) (w : world) : Prop :=
  max_calls (w_limiter w) = K /\
  period (w_limiter w) = T /\
  Z.of_nat (List.length (calls (w_limiter w))) <= K /\
  exists old, ts = old ++ calls (w_limiter w) /\ Forall (fun c => c + T <= w_now w) old.


(** The states the worker's own limiter, [RateLimiter(1)], can be in: it
    allows one call per second and holds at most one timestamp. *)
Definition limiter_okb (w : world) : bool :=
  (max_calls (w_limiter w) =? 1) && (period (w_limiter w) =? 1 * second) &&
  Nat.leb (List.length (calls (w_limiter w))) 1.

Definition limiter_ok (w : world) : Prop := limiter_okb w = true.

(** ** The HTTP client *)

(** An attempt that tenacity retries: it raised a [RequestException]. *)
Definition retryable_failure {A} (r : run A) : bool :=
  match res r with
  | Raise e => is_RequestException e
  | Ret _ => false
  end.

(** The effects of successive attempts, joined by tenacity's waits: after
    attempt number [attempt] comes a sleep of [wait_exponential attempt]
    seconds. *)
Fixpoint backoff_joined (attempt : Z) (attempts : list (list event)) : list event :=
  match attempts with
  | [] => []
  | [evs] => evs
  | evs :: rest =>
      evs ++ EvSleep (wait_exponential attempt * second) :: backoff_joined (attempt + 1) rest
  end.

(** The HTTP calls among some effects. *)
Fixpoint http_calls (evs : list event) : list (request * http_reply) :=
  match evs with
  | [] => []
  | EvHttp rq reply :: rest => (rq, reply) :: http_calls rest
  | _ :: rest => http_calls rest
  end.

(** The durations slept among some effects. *)
Fixpoint sleeps (evs : list event) : list Z :=
  match evs with
  | [] => []
  | EvSleep d :: rest => d :: sleeps rest
  | _ :: rest => sleeps rest
  end.

Definition not_found : response := mkResponse 404 None BodyScalar.
Definition world_404 : world := set_http (repeat (HttpReturns not_found) 6) world0.

(** A world whose API answers 304, a status that is neither 2xx nor an
    error for [raise_for_status]. *)
Definition not_modified : response := mkResponse 304 None BodyScalar.
Definition world_304 : world := set_http [HttpReturns not_modified] world0.

(** What an attempt does after a 429 or 500 response, before it raises:
    it sleeps for the seconds the [Retry-After] header gives, when the
    header is there, parses and is not negative. *)
Definition retry_after_sleep (resp : response) : list event :=
  match retry_after resp with
  | Some ra =>
      match py_int ra with
      | Some n => if 0 <=? n then [EvSleep (n * second)] else []
      | None => []
      end
  | None => []
  end.

(** The outcome of one attempt, by cases on the reply of the API. *)
Definition attempt_outcome (reply : http_reply) : outcome response :=
  match reply with
  | HttpRaises e => Raise e
  | HttpReturns resp =>
      if (status_code resp =? 429) || (status_code resp =? 500)
      then Raise (RequestException ("API error " ++ str_of_Z (status_code resp))%string)
      else if (400 <=? status_code resp) && (status_code resp <? 600)
           then Raise (HTTPError (status_code resp))
           else Ret resp
  end.

(** What one attempt does after its HTTP call. *)
Definition attempt_tail (reply : http_reply) : list event :=
  match reply with
  | HttpRaises _ => []
  | HttpReturns resp =>
      if (status_code resp =? 429) || (status_code resp =? 500)
      then retry_after_sleep resp
      else []
  end.

(** ** Reference pagination *)

(** The request [fetch_pages] sends for the page at [offset]. *)
Definition page_request (pid : string) (offset : Z) : request :=
  mkRequest "GET" (references_url pid) REQUEST_TIMEOUT
            (KwParams (mkParams "paperId" REF_PAGE_LIMIT offset)).

(** When a request at offset [o'] may come right after a request at
    offset [o] that was answered by [reply]: the attempt at [o] failed
    with a [RequestException] and [send_request] tries the same page
    again, or the attempt returned a page with entries whose [next] is an
    integer above [o] and not above the ceiling. *)
Definition may_follow (o : Z) (reply : http_reply) (o' : Z) : Prop :=
  match attempt_outcome reply with
  | Raise e => is_RequestException e = true /\ o' = o
  | Ret resp =>
      exists data nxt,
        resp_body resp = BodyDict (Some data) nxt /\ data <> [] /\
        int_of_next nxt = Some o' /\ o < o' <= MAX_OFFSET
  end.

(** The HTTP calls of a pagination that stands at offset [o]. *)
Fixpoint page_chain (pid : string) (o : Z) (calls : list (request * http_reply)) : Prop :=
  match calls with
  | [] => True
  | c :: rest =>
      fst c = page_request pid o /\ o <= MAX_OFFSET /\
      match rest with
      | [] => True
      | _ :: _ => exists o', may_follow o (snd c) o' /\ page_chain pid o' rest
      end
  end.

(** An API that serves two pages of references: the page at offset 99
    points to offset 198, the page at 198 is the last one. *)
Definition world_pages : world :=
  set_http
    [HttpReturns (mkResponse 200 None (BodyDict (Some [mkRef (Some "R1")]) (NextInt 198)));
     HttpReturns (mkResponse 200 None (BodyDict (Some [mkRef (Some "R2")]) NextAbsent))]
    world0.

(** ** The batch writer *)

(** An attempt that the writers retry: it raised [DeadlockDetected]. *)
Definition deadlocked {A} (r : run A) : bool :=
  match res r with
  | Raise e => is_DeadlockDetected e
  | Ret _ => false
  end.

(** The effects of successive attempts of a writer, joined by what the
    [except] clause does after a deadlock in attempt number [a]: a
    rollback and a sleep of [INSERT_BACKOFF * 2 ** (a - 1)]. *)
Fixpoint deadlock_joined (attempts : list Z) (runs : list (list event)) : list event :=
  match runs with
  | [] => []
  | [evs] => evs
  | evs :: rest =>
      evs ++ EvRollback :: EvSleep (INSERT_BACKOFF * 2 ^ (hd 0 attempts - 1))
          :: deadlock_joined (tl attempts) rest
  end.

(** The rollbacks among some effects. *)
Fixpoint rollbacks (evs : list event) : nat :=
  match evs with
  | [] => O
  | EvRollback :: rest => S (rollbacks rest)
  | _ :: rest => rollbacks rest
  end.

(** A database that reports a deadlock on each of the next three
    statements and then works again. *)
Definition world_deadlocks : world :=
  set_dbscript [DbDeadlock; DbDeadlock; DbDeadlock; DbOk] world0.

(** ** Classes of effects *)

(** [m] only ever emits effects that [allowed] accepts. *)
Definition emits_only {A} (allowed : event -> bool) (m : M A) : Prop :=
  forall w, Forall (fun ev => allowed ev = true) (emitted (m w)).

(** Everything but an insert into one of the two tables. *)
Definition not_insert (ev : event) : bool :=
  match ev with
  | EvInsertCitations _ _ | EvInsertProcessed _ _ => false
  | _ => true
  end.

(** What [safe_insert_citations] may do: insert citations, commit, roll
    back, sleep. *)
Definition citation_phase (ev : event) : bool :=
  match ev with
  | EvInsertCitations _ _ | EvCommit _ | EvRollback | EvSleep _ => true
  | _ => false
  end.

(** What [mark_processed] may do: insert processed papers, commit, roll
    back, sleep, add to a Bloom filter. *)
Definition mark_phase (ev : event) : bool :=
  match ev with
  | EvInsertProcessed _ _ | EvCommit _ | EvRollback | EvSleep _ | EvBfMAdd _ _ => true
  | _ => false
  end.


(** The bodies of the two writers' [try] blocks. *)
Definition citations_body (rows : list (string * string)) : M unit :=
  run_pages insert_citations_stmt (chunked rows 100) ;;
  conn_commit.

Definition processed_body (fos_map : dict (list string)) : M unit :=
  run_pages insert_processed_stmt (chunked fos_map 100) ;;
  conn_commit ;;
  BF_MADD BLOOM_NAME (dict_keys fos_map) ;;
  ret tt.

(** What the writers' bodies emit, without the retry loop around them. *)
Definition write_only (ev : event) : bool :=
  match ev with
  | EvInsertCitations _ _ | EvInsertProcessed _ _ | EvCommit _ | EvBfMAdd _ _ => true
  | _ => false
  end.

(** ** The dedup oracle *)

(** The ids with a row in the processed-papers table, as the open
    transaction sees it. *)
Definition processed_keys (w : world) : list string :=
  map fst (processed_papers (w_working w)).

(** A processed filter with a false positive: the key "P2" was added to
    it, which sets the bit that "P1" tests, and the table is empty. *)
Definition world_false_positive : world :=
  set_bf_processed (bf_add (mkBloom sample_hashes []) "P2") world0.

(** A world where "P2" is processed and recorded in the filter, so that
    "P1" (a false positive) and "P2" are both reported as possibly seen. *)
Definition world_one_processed : world :=
  set_working (mkDatabase [("P2", [])] [])
    (set_committed (mkDatabase [("P2", [])] []) world_false_positive).

(** What the fetch phase of a batch may do: sleep and call the API. *)
Definition http_only (ev : event) : bool :=
  match ev with
  | EvSleep _ | EvHttp _ _ => true
  | _ => false
  end.

(** ** The lifecycle *)

(** The database accepts the next [n] statements. *)
Definition db_accepts (n : nat) (w : world) : bool :=
  forallb (fun reply => match reply with DbOk => true | _ => false end)
          (firstn n (w_dbscript w)).

(** What a start that refuses to crawl may do: declare the schema,
    commit, and ask for the length of the frontier. *)
Definition startup_only (ev : event) : bool :=
  match ev with
  | EvDDL _ | EvCommit _ | EvLLen => true
  | _ => false
  end.

(** The two errors the database can raise. *)
Definition is_db_error (e : exn) : bool :=
  match e with
  | DeadlockDetected | DatabaseError => true
  | _ => false
  end.

(** ** What a piece of code keeps of the state *)

(** [m], started in a world where [P] holds, ends in a world where [Q]
    holds when it returns and in one where [R] holds when it raises. *)
Definition hoare {A} (P : world -> Prop) (m : M A)
           (Q : A -> world -> Prop) (R : exn -> world -> Prop) : Prop :=
  forall w, P w ->
    match res (m w) with
    | Ret a => Q a (post (m w))
    | Raise e => R e (post (m w))
    end.

(** [m] keeps [P], however it ends. *)
Definition keeps {A} (P : world -> Prop) (m : M A) : Prop :=
  hoare P m (fun _ => P) (fun _ => P).

(** What PostgreSQL and Redis hold, with the answers the database has
    still to give. *)
Definition store (w : world)
  : list db_reply * database * database * list envelope * bloom * bloom :=
  (w_dbscript w, w_committed w, w_working w, w_queue w, w_bf_processed w, w_bf_queued w).

(** What Redis holds. *)
Definition redis (w : world) : list envelope * bloom * bloom :=
  (w_queue w, w_bf_processed w, w_bf_queued w).

(** A predicate on worlds that does not look at the clock, the limiter,
    the API or the shutdown flag. *)
Definition store_only (P : world -> Prop) : Prop :=
  forall w w', store w = store w' -> P w -> P w'.

(** No transaction is open: the connection sees the committed rows. *)
Definition settled (w : world) : Prop := w_working w = w_committed w.

(** The filter [b] reports every key of the processed-papers table of [d]
    as present. *)
Definition covers (b : bloom) (d : database) : Prop :=
  forall k, In k (map fst (processed_papers d)) -> bf_exists b k = true.

(** The processed filter covers the committed rows, and the rows of the
    open transaction. *)
Definition filter_covers_table (w : world) : Prop :=
  covers (w_bf_processed w) (w_committed w).

Definition filter_covers_transaction (w : world) : Prop :=
  covers (w_bf_processed w) (w_working w).

(** What holds of the stores between two batches: no transaction is
    open and the processed filter covers the committed rows. *)
Definition batch_inv (w : world) : Prop := settled w /\ filter_covers_table w.

(** ** Sample worlds for the rate limiter *)


Definition world_no_calls : world :=
  set_limiter (RateLimiter_init 0) world0.

(** ** What a batch has collected *)

(** Every edge collected so far starts at a paper that will be marked as
    processed, and no id is empty. *)
Definition collected_ok (st : collected) : Prop :=
  forall a b, In (a, b) (snd st) -> In a (dict_keys (fst st)) /\ a <> "" /\ b <> "".


(** What the fetch phase of a batch may do when the ids to fetch were cut
    into [chunks]: sleep, page through references with GET requests of
    page size 99, and POST one of the chunks to the batch endpoint. *)
Definition fetch_phase_ok (chunks : list (list string)) (ev : event) : bool :=
  match ev with
  | EvSleep _ => true
  | EvHttp rq _ =>
      match rq_kwargs rq with
      | KwJson ids =>
          String.eqb (rq_method rq) "POST" && String.eqb (rq_url rq) batch_url &&
          (rq_timeout rq =? REQUEST_TIMEOUT) &&
          (if in_dec (list_eq_dec string_dec) ids chunks then true else false)
      | KwParams p =>
          String.eqb (rq_method rq) "GET" && (p_limit p =? REF_PAGE_LIMIT)
      end
  | _ => false
  end.

(** An API that answers a batch request with one record: paper "P1" with
    one reference, "R1", and no field of study. *)
Definition world_batch_reply : world :=
  set_http
    [HttpReturns (mkResponse 200 None
       (BodyList [ItemRecord (Some "P1") (Some 1) (Some [mkRef (Some "R1")]) None]))]
    world0.

(** A database that reports a deadlock once and then works, and one whose
    third statement fails for good. *)
Definition world_one_deadlock : world := set_dbscript [DbDeadlock] world0.
Definition world_db_fails : world := set_dbscript [DbOk; DbOk; DbFails] world0.

(** ** Sample worlds for the crawl loop *)

(** A frontier of two ids, on which a signal arrives after the first
    check of the shutdown flag. *)
Definition world_signal_in_batch : world :=
  set_shutdown (Some 1%nat) (set_queue [mkEnvelope "P1"; mkEnvelope "P2"] world0).

(** A worker that is stopped and has left a frontier behind. *)
Definition world_to_resume : world := set_queue [mkEnvelope "P1"] world_one_processed.

(** ** Time spent in retries *)

(** The sum of tenacity's waits, in microseconds, when attempt number
    [attempt] and the [left] attempts after it all fail but the last is
    not waited for. *)
Fixpoint total_wait (left : nat) (attempt : Z) : Z :=
  match left with
  | O => 0
  | S left' => wait_exponential attempt * second + total_wait left' (attempt + 1)
  end.

(** The worker's limiter is in its state space and the clock has reached
    [t]. *)
Definition clock_reached (t : Z) (w : world) : Prop := limiter_ok w /\ t <= w_now w.

(** Everything but a call of the API. *)
Definition not_http (ev : event) : bool :=
  match ev with
  | EvHttp _ _ => false
  | _ => true
  end.

(** What a batch has collected only grows: [st'] has every key and every
    edge of [st]. *)
Definition grows (st st' : collected) : Prop :=
  (forall k, In k (dict_keys (fst st)) -> In k (dict_keys (fst st'))) /\
  (forall row, In row (snd st) -> In row (snd st')).

(** What a record of a batch answer asks the batch to collect: its paper
    as a key of [fos_map] and an edge for each of its embedded
    references, when the ids are not empty. *)
Definition record_collected (rec : batch_item) (st : collected) : Prop :=
  match rec with
  | ItemRecord (Some pid) _ references _ =>
      pid <> "" ->
      In pid (dict_keys (fst st)) /\
      forall rid, In (mkRef (Some rid)) (or_default references []) -> rid <> "" ->
                  In (pid, rid) (snd st)
  | _ => True
  end.

(* ===================================================================== *)
(** * Part III: proofs                                                    *)
(* ===================================================================== *)

(** ** Running monadic code *)

Lemma run_eta {A} (r : run A) : r = mkRun (res r) (post r) (emitted r).
Proof. destruct r; reflexivity. Qed.

Lemma bind_Ret {A B} (m : M A) (k : A -> M B) w a w1 evs1 :
  m w = mkRun (Ret a) w1 evs1 ->
  bind m k w = mkRun (res (k a w1)) (post (k a w1)) (evs1 ++ emitted (k a w1)).
Proof. intros H. unfold bind. rewrite H. destruct (k a w1); reflexivity. Qed.

Lemma bind_Raise {A B} (m : M A) (k : A -> M B) w e w1 evs1 :
  m w = mkRun (Raise e) w1 evs1 ->
  bind m k w = mkRun (Raise e) w1 evs1.
Proof. intros H. unfold bind. rewrite H. reflexivity. Qed.

Lemma emitted_bind_Ret {A B} (m : M A) (k : A -> M B) w a w1 evs1 :
  m w = mkRun (Ret a) w1 evs1 -> emitted (bind m k w) = evs1 ++ emitted (k a w1).
Proof. intros H. rewrite (bind_Ret _ _ _ _ _ _ H). reflexivity. Qed.

Lemma emitted_bind_Raise {A B} (m : M A) (k : A -> M B) w e w1 evs1 :
  m w = mkRun (Raise e) w1 evs1 -> emitted (bind m k w) = evs1.
Proof. intros H. rewrite (bind_Raise _ _ _ _ _ _ H). reflexivity. Qed.

(** Every run of [m ;; k] is a run of [m] followed by a run of [k], or a
    run of [m] that raised. *)
Lemma bind_inv {A B} (m : M A) (k : A -> M B) w r w' evs :
  bind m k w = mkRun r w' evs ->
  (exists a w1 evs1 evs2,
      m w = mkRun (Ret a) w1 evs1 /\ k a w1 = mkRun r w' evs2 /\ evs = evs1 ++ evs2) \/
  (exists e, m w = mkRun (Raise e) w' evs /\ r = Raise e).
Proof.
  unfold bind. destruct (m w) as [[a|e] w1 evs1].
  - destruct (k a w1) as [r2 w2 evs2] eqn:Hk. intros H. injection H as <- <- <-.
    left. exists a, w1, evs1, evs2. auto.
  - intros H. injection H as <- <- <-. right. exists e. auto.
Qed.

Lemma try_except_Ret {A} (m : M A) handles h w a w1 evs1 :
  m w = mkRun (Ret a) w1 evs1 -> try_except m handles h w = mkRun (Ret a) w1 evs1.
Proof. intros H. unfold try_except. rewrite H. reflexivity. Qed.

Lemma try_except_caught {A} (m : M A) handles h w e w1 evs1 :
  m w = mkRun (Raise e) w1 evs1 -> handles e = true ->
  try_except m handles h w = mkRun (res (h e w1)) (post (h e w1)) (evs1 ++ emitted (h e w1)).
Proof. intros H He. unfold try_except. rewrite H, He. destruct (h e w1); reflexivity. Qed.

Lemma try_except_passed {A} (m : M A) handles h w e w1 evs1 :
  m w = mkRun (Raise e) w1 evs1 -> handles e = false ->
  try_except m handles h w = mkRun (Raise e) w1 evs1.
Proof. intros H He. unfold try_except. rewrite H, He. reflexivity. Qed.

Lemma time_time_run w :
  exists l rest,
    time_time w =
    mkRun (Ret (w_now w + Z.of_N l)) (set_now (w_now w + Z.of_N l) (set_latency rest w)) [].
Proof.
  unfold time_time. destruct (w_latency w) as [|l rest].
  - exists 0%N, []. reflexivity.
  - exists l, rest. reflexivity.
Qed.

Lemma time_sleep_run d w :
  0 <= d -> time_sleep d w = mkRun (Ret tt) (set_now (w_now w + d) w) [EvSleep d].
Proof. intros H. unfold time_sleep. destruct (Z.ltb_spec d 0); [lia | reflexivity]. Qed.

Lemma time_sleep_negative d w :
  d < 0 -> time_sleep d w = mkRun (Raise ValueError) w [].
Proof. intros H. unfold time_sleep. destruct (Z.ltb_spec d 0); [reflexivity | lia]. Qed.

(** ** The rate limiter (spec 4.3) *)

Section RateLimiterProofs.

Lemma evict_split bound cs :
  exists gone, cs = gone ++ evict bound cs /\ Forall (fun c => c <= bound) gone.
Proof.
  induction cs as [|c cs IH]; simpl.
  - exists []. split; [reflexivity | constructor].
  - destruct (Z.leb_spec c bound) as [Hle|Hgt].
    + destruct IH as (gone & Heq & Hall).
      exists (c :: gone). split.
      * simpl. f_equal. exact Heq.
      * constructor; assumption.
    + exists []. split; [reflexivity | constructor].
Qed.

Lemma evict_head bound cs c rest :
  evict bound cs = c :: rest -> bound < c.
Proof.
  induction cs as [|c' cs IH]; simpl; [discriminate|].
  destruct (Z.leb_spec c' bound) as [Hle|Hgt]; [exact IH|].
  intros H; injection H as -> _. exact Hgt.
Qed.

Lemma evict_length bound cs : (List.length (evict bound cs) <= List.length cs)%nat.
Proof.
  destruct (evict_split bound cs) as (gone & Heq & _).
  rewrite Heq at 2. rewrite length_app. lia.
Qed.

(** What one [acquire] does to a limiter that holds at most [max_calls >= 1]
    timestamps. *)
Lemma acquire_spec w :
  1 <= max_calls (w_limiter w) ->
  Z.of_nat (List.length (calls (w_limiter w))) <= max_calls (w_limiter w) ->
  0 <= period (w_limiter w) ->
  exists gone kept a,
    res (RateLimiter_acquire w) = Ret tt /\
    calls (w_limiter w) = gone ++ kept /\
    Forall (fun c => c + period (w_limiter w) <= a) gone /\
    w_limiter (post (RateLimiter_acquire w)) =
      mkRateLimiter (kept ++ [a]) (max_calls (w_limiter w)) (period (w_limiter w)) /\
    Z.of_nat (List.length kept) < max_calls (w_limiter w) /\
    w_now (post (RateLimiter_acquire w)) = a /\
    w_now w <= a.
Proof.
  intros HK Hlen HT.
  unfold RateLimiter_acquire, bind.
  destruct (time_time_run w) as (l & rest & ->). cbn [get_world].
  set (w1 := set_now _ _). set (now := w_now w + Z.of_N l).
  change (w_limiter w1) with (w_limiter w).
  destruct (evict_split (now - period (w_limiter w)) (calls (w_limiter w)))
    as (gone & Heq & Hgone).
  remember (evict (now - period (w_limiter w)) (calls (w_limiter w))) as cs eqn:Hcs.
  destruct (Z.geb_spec (Z.of_nat (List.length cs)) (max_calls (w_limiter w))) as [Hfull|Hroom].
  - destruct cs as [|c0 cs'].
    + simpl in Hfull. lia.
    + symmetry in Hcs. pose proof (evict_head _ _ _ _ Hcs) as Hc0.
      unfold time_sleep.
      destruct (Z.ltb_spec (period (w_limiter w) - (now - c0)) 0) as [Hneg|Hpos]; [lia|].
      cbn [res post emitted].
      set (w2 := set_now _ w1).
      destruct (time_time_run w2) as (l2 & rest2 & ->). cbn [res post emitted put_world].
      set (now' := w_now w2 + Z.of_N l2).
      assert (Hnow' : c0 + period (w_limiter w) <= now').
      { unfold now', w2. cbn. fold now. lia. }
      destruct (evict_split (now' - period (w_limiter w)) (c0 :: cs')) as (gone2 & Heq2 & Hgone2).
      exists (gone ++ gone2), (evict (now' - period (w_limiter w)) (c0 :: cs')), now'.
      repeat split.
      * rewrite <- app_assoc, <- Heq2. exact Heq.
      * apply Forall_app. split.
        -- eapply Forall_impl; [|exact Hgone]. cbn. intros. lia.
        -- eapply Forall_impl; [|exact Hgone2]. cbn. intros. lia.
      * assert (Hlt : (List.length (evict (now' - period (w_limiter w)) (c0 :: cs'))
                       <= List.length cs')%nat).
        { cbn [evict]. destruct (Z.leb_spec c0 (now' - period (w_limiter w))); [|lia].
          apply evict_length. }
        assert (Hcs_len : (List.length (c0 :: cs') <= List.length (calls (w_limiter w)))%nat).
        { rewrite <- Hcs. apply evict_length. }
        cbn [List.length] in Hcs_len. lia.
      * unfold now', w2. cbn. fold now. lia.
  - cbn [res post emitted put_world].
    exists gone, cs, now. repeat split; try assumption.
    all: try lia.
    + eapply Forall_impl; [|exact Hgone]. cbn. intros. lia.
Qed.







Lemma limiter_ok_iff w :
  limiter_ok w <->
  exists cs, w_limiter w = mkRateLimiter cs 1 (1 * second) /\ (List.length cs <= 1)%nat.
Proof.
  unfold limiter_ok, limiter_okb. destruct (w_limiter w) as [cs K T]. cbn.
  rewrite !andb_true_iff, !Z.eqb_eq, Nat.leb_le. split.
  - intros [[-> ->] Hl]. exists cs. auto.
  - intros (cs' & Heq & Hl). injection Heq as -> -> ->. auto.
Qed.

Lemma limiter_ok_inv w : limiter_ok w -> limiter_inv 1 (1 * second) (calls (w_limiter w)) w.
Proof.
  intros Hok. apply limiter_ok_iff in Hok. destruct Hok as (cs & Hw & Hlen). unfold limiter_inv. rewrite Hw. cbn [max_calls period calls].
  repeat split; try lia. exists []. split; [reflexivity | constructor].
Qed.

(** The worker's limiter stays in its state space, and [acquire] on it
    never raises. *)
Lemma acquire_ok w :
  limiter_ok w ->
  res (RateLimiter_acquire w) = Ret tt /\ limiter_ok (post (RateLimiter_acquire w)).
Proof.
  intros Hok. apply limiter_ok_iff in Hok. destruct Hok as (cs & Hw & Hlen).
  destruct (acquire_spec w) as (gone & kept & a & Hres & Hcalls & _ & Hpost & Hkept & _).
  - rewrite Hw. cbn. lia.
  - rewrite Hw. cbn. lia.
  - rewrite Hw. cbn. unfold second. lia.
  - split; [exact Hres|]. rewrite Hw in Hpost, Hkept. cbn [max_calls period] in *.
    apply limiter_ok_iff.
    exists (kept ++ [a]). split; [exact Hpost|].
    rewrite length_app. cbn [List.length]. lia.
Qed.



End RateLimiterProofs.

(** ** The HTTP client (spec 4.3) *)

(** [acquire] touches the clock and the limiter only. *)
Lemma acquire_frame w :
  let w' := post (RateLimiter_acquire w) in
  w_http w' = w_http w /\ w_shutdown w' = w_shutdown w /\ w_dbscript w' = w_dbscript w /\
  w_committed w' = w_committed w /\ w_working w' = w_working w /\ w_queue w' = w_queue w /\
  w_bf_processed w' = w_bf_processed w /\ w_bf_queued w' = w_bf_queued w.
Proof.
  unfold RateLimiter_acquire, bind, time_time, time_sleep, get_world, put_world.
  destruct (w_latency w) as [|l rest]; cbn [w_limiter set_now set_latency].
  all: destruct (_ >=? _); [destruct (evict _ _) as [|c0 cs] | ]; cbn; auto 10.
  all: destruct (_ <? 0); cbn; auto 10.
  all: destruct rest as [|l2 rest2] + idtac; cbn; auto 10.
Qed.

Lemma acquire_emits w :
  emitted (RateLimiter_acquire w) = [] \/ exists d, emitted (RateLimiter_acquire w) = [EvSleep d].
Proof.
  unfold RateLimiter_acquire, bind, time_time, time_sleep, get_world, put_world.
  destruct (w_latency w) as [|l rest]; cbn [w_limiter set_now set_latency].
  all: destruct (_ >=? _); [destruct (evict _ _) as [|c0 cs] | ]; cbn; auto.
  all: destruct (_ <? 0); cbn; auto.
  all: destruct rest as [|l2 rest2] + idtac; cbn; eauto.
Qed.

Lemma http_calls_app evs1 evs2 : http_calls (evs1 ++ evs2) = http_calls evs1 ++ http_calls evs2.
Proof.
  induction evs1 as [|ev evs1 IH]; [reflexivity|].
  destruct ev; cbn; rewrite IH; reflexivity.
Qed.

Lemma acquire_no_http w : http_calls (emitted (RateLimiter_acquire w)) = [].
Proof. destruct (acquire_emits w) as [-> | (d & ->)]; reflexivity. Qed.

Lemma retry_after_sleep_no_http resp : http_calls (retry_after_sleep resp) = [].
Proof.
  unfold retry_after_sleep. destruct (retry_after resp) as [ra|]; [|reflexivity].
  destruct (py_int ra) as [n|]; [|reflexivity]. destruct (0 <=? n); reflexivity.
Qed.

Lemma wait_exponential_bounds attempt : 1 <= wait_exponential attempt <= 30.
Proof. unfold wait_exponential. lia. Qed.

Lemma last_default_irrelevant {A} (l : list A) d d' : l <> [] -> last l d = last l d'.
Proof.
  induction l as [|x l IH]; [congruence|]. intros _.
  destruct l as [|y l]; [reflexivity|]. cbn [last] in *. apply IH. discriminate.
Qed.

Lemma last_cons_nonempty {A} (x : A) (l : list A) d d' : l <> [] -> last (x :: l) d = last l d'.
Proof.
  intros Hne. destruct l as [|y l]; [congruence|].
  change (last (x :: y :: l) d) with (last (y :: l) d).
  apply last_default_irrelevant. discriminate.
Qed.

Lemma last_map_nonempty {A B} (g : A -> B) (l : list A) d d' :
  l <> [] -> last (map g l) d' = g (last l d).
Proof.
  induction l as [|x l IH]; [congruence|]. intros _.
  destruct l as [|y l]; [reflexivity|].
  change (last (map g (x :: y :: l)) d') with (last (map g (y :: l)) d').
  change (last (x :: y :: l) d) with (last (y :: l) d).
  apply IH. discriminate.
Qed.

Lemma removelast_map {A B} (g : A -> B) (l : list A) :
  removelast (map g l) = map g (removelast l).
Proof.
  induction l as [|x l IH]; [reflexivity|].
  destruct l as [|y l]; [reflexivity|].
  change (removelast (map g (x :: y :: l))) with (g x :: removelast (map g (y :: l))).
  rewrite IH. reflexivity.
Qed.

Lemma backoff_joined_cons attempt evs rest :
  rest <> [] ->
  backoff_joined attempt (evs :: rest) =
  evs ++ EvSleep (wait_exponential attempt * second) :: backoff_joined (attempt + 1) rest.
Proof. destruct rest; [congruence | reflexivity]. Qed.

Lemma http_calls_backoff_joined attempt attempts :
  http_calls (backoff_joined attempt attempts) = List.concat (map http_calls attempts).
Proof.
  revert attempt. induction attempts as [|evs rest IH]; intros attempt; [reflexivity|].
  destruct rest as [|evs2 rest].
  - cbn. rewrite app_nil_r. reflexivity.
  - rewrite backoff_joined_cons by discriminate.
    rewrite http_calls_app. cbn [http_calls map List.concat].
    rewrite IH. reflexivity.
Qed.

Section Tenacity.

Context {A : Type} (f : M A) (I : world -> Prop).
Hypothesis I_f : forall w, I w -> I (post (f w)).
Hypothesis I_clock : forall w t, I w -> I (set_now t w).

(** A call wrapped in tenacity's [retry] is a chain of attempts of the
    wrapped function, started in the worlds [ws]: all but the last raised
    a [RequestException], waits of [wait_exponential] separate them, and
    the chain only stops short of its full length on an attempt that is
    not a retryable failure.  The result of the call is the result of the
    last attempt. *)
Lemma tenacity_retry_attempts left :
  forall attempt w, I w ->
    let r := tenacity_retry left attempt f w in
    exists ws : list world,
      hd_error ws = Some w /\
      (List.length ws <= S left)%nat /\
      Forall I ws /\
      Forall (fun w' => retryable_failure (f w') = true) (removelast ws) /\
      ((List.length ws < S left)%nat -> retryable_failure (f (last ws w)) = false) /\
      res r = res (f (last ws w)) /\
      post r = post (f (last ws w)) /\
      emitted r = backoff_joined attempt (map (fun w' => emitted (f w')) ws).
Proof.
  induction left as [|left IH]; intros attempt w Hw r; subst r.
  - exists [w]. cbn [tenacity_retry]. unfold try_except.
    destruct (f w) as [[a|e] w1 evs1] eqn:Hf; cbn; rewrite ?Hf; cbn.
    + repeat split; auto; try lia.
    + destruct (is_RequestException e); cbn; rewrite ?app_nil_r.
      all: repeat split; auto; try lia.
  - cbn [tenacity_retry]. unfold try_except.
    destruct (f w) as [[a|e] w1 evs1] eqn:Hf.
    + exists [w]. cbn. rewrite Hf. cbn.
      repeat split; auto; try lia.
    + destruct (is_RequestException e) eqn:He.
      * pose proof (wait_exponential_bounds attempt) as Hwait.
        unfold bind. rewrite time_sleep_run by (unfold second; lia).
        set (w2 := set_now _ w1).
        assert (Hw2 : I w2).
        { unfold w2. apply I_clock. specialize (I_f w Hw). rewrite Hf in I_f. exact I_f. }
        destruct (IH (attempt + 1) w2 Hw2)
          as (ws & Hhd & Hlen & Hall & Hinit & Hshort & Hres & Hpost & Hem).
        assert (Hne : ws <> []) by (destruct ws; cbn in Hhd; congruence).
        destruct (tenacity_retry left (attempt + 1) f w2) as [r2 w3 evs2] eqn:Hrec.
        cbn [res post emitted] in *.
        exists (w :: ws). repeat split.
        -- cbn [List.length]. lia.
        -- constructor; assumption.
        -- destruct ws as [|a1 rest]; [congruence|].
           cbn [removelast]. constructor; [|exact Hinit].
           unfold retryable_failure. rewrite Hf. cbn. exact He.
        -- intros Hl. cbn [List.length] in Hl.
           rewrite (last_cons_nonempty _ _ _ w2 Hne).
           apply Hshort. lia.
        -- rewrite (last_cons_nonempty _ _ _ w2 Hne). exact Hres.
        -- rewrite (last_cons_nonempty _ _ _ w2 Hne). exact Hpost.
        -- cbn [map]. rewrite backoff_joined_cons.
           ++ rewrite Hf. cbn [emitted]. rewrite <- Hem. reflexivity.
           ++ destruct ws; [congruence | discriminate].
      * exists [w]. cbn. rewrite Hf. cbn.
        repeat split; auto; try lia.
Qed.

End Tenacity.

Section HttpClient.

Variables (method url : string) (kw : kwargs).

Lemma send_request_once_run w :
  limiter_ok w ->
  let a := send_request_once method url kw w in
  let reply := next_http_reply w in
  res a = attempt_outcome reply /\
  emitted a = emitted (RateLimiter_acquire w) ++
              EvHttp (mkRequest method url REQUEST_TIMEOUT kw) reply :: attempt_tail reply /\
  limiter_ok (post a) /\
  w_http (post a) = tl (w_http w).
Proof.
  intros Hok a reply. subst a.
  destruct (acquire_ok w Hok) as (Hres & Hok1).
  destruct (acquire_frame w) as (Hhttp & _).
  pose proof (run_eta (RateLimiter_acquire w)) as Hacq. rewrite Hres in Hacq.
  set (w1 := post (RateLimiter_acquire w)) in *.
  set (evl := emitted (RateLimiter_acquire w)) in *.
  assert (Hreply : next_http_reply w1 = reply).
  { unfold reply, next_http_reply. rewrite Hhttp. reflexivity. }
  unfold send_request_once, bind. rewrite Hacq. unfold sess_request. rewrite Hreply.
  assert (Hkeep : forall t h, limiter_ok (set_now t (set_http h w1))).
  { intros t h. exact Hok1. }
  assert (Hkeep' : forall h, limiter_ok (set_http h w1)).
  { intros h. exact Hok1. }
  destruct reply as [e|resp] eqn:Er; cbn [attempt_outcome attempt_tail].
  - cbn. rewrite Hhttp. auto.
  - destruct ((status_code resp =? 429) || (status_code resp =? 500)) eqn:Est.
    + unfold retry_after_sleep.
      destruct (retry_after resp) as [ra|] eqn:Era.
      * destruct (String.eqb_spec ra "") as [->|Hne].
        -- cbn. rewrite Hhttp. auto.
        -- cbn [negb]. unfold try_except.
           destruct (py_int ra) as [n|].
           ++ destruct (Z.leb_spec 0 n) as [Hn|Hn].
              ** rewrite time_sleep_run by (unfold second; lia).
                 cbn. rewrite Hhttp. auto.
              ** rewrite time_sleep_negative by (unfold second; lia).
                 cbn. rewrite Hhttp. auto.
           ++ cbn. rewrite Hhttp. auto.
      * cbn. rewrite Hhttp. auto.
    + unfold raise_for_status.
      destruct ((400 <=? status_code resp) && (status_code resp <? 600)).
      * cbn. rewrite Hhttp. auto.
      * cbn. rewrite Hhttp. auto.
Qed.

Lemma send_request_once_http w :
  limiter_ok w ->
  http_calls (emitted (send_request_once method url kw w)) =
  [(mkRequest method url REQUEST_TIMEOUT kw, next_http_reply w)].
Proof.
  intros Hok. destruct (send_request_once_run w Hok) as (_ & Hem & _).
  rewrite Hem, http_calls_app, acquire_no_http. cbn [app http_calls]. f_equal.
  unfold attempt_tail. destruct (next_http_reply w) as [e|resp]; [reflexivity|].
  destruct (_ || _); [apply retry_after_sleep_no_http | reflexivity].
Qed.

Lemma limiter_ok_set_now w t : limiter_ok w -> limiter_ok (set_now t w).
Proof. intros H. exact H. Qed.

(** The chain of attempts behind one call of [send_request]: the worlds
    in which the attempts start and the replies they receive. *)
Lemma send_request_chain w :
  limiter_ok w ->
  let f := send_request_once method url kw in
  let r := send_request method url kw w in
  exists ws : list world,
    hd_error ws = Some w /\
    (List.length ws <= 5)%nat /\
    Forall limiter_ok ws /\
    Forall (fun w' => retryable_failure (f w') = true) (removelast ws) /\
    ((List.length ws < 5)%nat -> retryable_failure (f (last ws w)) = false) /\
    res r = res (f (last ws w)) /\
    limiter_ok (post r) /\
    emitted r = backoff_joined 1 (map (fun w' => emitted (f w')) ws) /\
    http_calls (emitted r) =
      map (fun w' => (mkRequest method url REQUEST_TIMEOUT kw, next_http_reply w')) ws.
Proof.
  intros Hok f r.
  destruct (tenacity_retry_attempts f limiter_ok) with (left := 4%nat) (attempt := 1) (w := w)
    as (ws & Hhd & Hlen & Hall & Hinit & Hshort & Hres & Hpost & Hem).
  - intros w' Hw'. apply (send_request_once_run w' Hw').
  - intros w' t. apply limiter_ok_set_now.
  - exact Hok.
  - assert (Hne : ws <> []) by (destruct ws; cbn in Hhd; congruence).
    exists ws. repeat split; try assumption.
    + change (tenacity_retry 4 1 f w) with r in Hpost. rewrite Hpost.
      apply (send_request_once_run (last ws w)).
      clear -Hall Hne. induction Hall as [|w1 rest H1 Hrest IH]; [congruence|].
      destruct rest as [|w2 rest]; [exact H1|].
      rewrite (last_cons_nonempty _ _ _ w) by discriminate. apply IH. discriminate.
    + change (tenacity_retry 4 1 f w) with r in Hem.
      rewrite Hem, http_calls_backoff_joined, map_map.
      clear -Hall. induction Hall as [|w1 rest H1 _ IH]; [reflexivity|].
      cbn [map List.concat]. rewrite IH. unfold f.
      rewrite (send_request_once_http w1 H1). reflexivity.
Qed.


(** C7 (as amended): an attempt answered by a status other than 429 and
    500 raises [HTTPError] when the status lies in 400..599, and returns
    the response for every other status.  [HTTPError] is a
    [RequestException], so [send_request] re-attempts the request under
    the same policy; a status below 400 or above 599 raises nothing and
    ends the call at once. *)
Theorem send_request_other_status w resp :
  limiter_ok w ->
  next_http_reply w = HttpReturns resp ->
  status_code resp <> 429 -> status_code resp <> 500 ->
  let r := send_request method url kw w in
  let rq := mkRequest method url REQUEST_TIMEOUT kw in
  (400 <= status_code resp < 600 ->
     res (send_request_once method url kw w) = Raise (HTTPError (status_code resp)) /\
     is_RequestException (HTTPError (status_code resp)) = true /\
     exists reply2 rest,
       http_calls (emitted r) = (rq, HttpReturns resp) :: (rq, reply2) :: rest) /\
  (status_code resp < 400 \/ 600 <= status_code resp ->
     res r = Ret resp /\ http_calls (emitted r) = [(rq, HttpReturns resp)]).
Proof.
  intros Hok Hreply H429 H500 r rq.
  destruct (send_request_once_run w Hok) as (Hres1 & _).
  rewrite Hreply in Hres1. cbn [attempt_outcome] in Hres1.
  assert (Hb : (status_code resp =? 429) || (status_code resp =? 500) = false).
  { apply orb_false_iff. rewrite !Z.eqb_neq. auto. }
  rewrite Hb in Hres1.
  destruct (send_request_chain w Hok)
    as (ws & Hhd & Hlen & Hall & Hinit & Hshort & Hres & _ & _ & Hcalls).
  fold r in Hres, Hcalls.
  destruct ws as [|w1 rest]; [discriminate|].
  cbn [hd_error] in Hhd. injection Hhd as ->.
  split.
  - intros Hrange.
    assert (Hc : (400 <=? status_code resp) && (status_code resp <? 600) = true).
    { apply andb_true_iff. rewrite Z.leb_le, Z.ltb_lt. exact Hrange. }
    rewrite Hc in Hres1. split; [exact Hres1|]. split; [reflexivity|].
    destruct rest as [|w2 rest].
    + exfalso. cbn [last List.length] in Hshort.
      specialize (Hshort ltac:(lia)). unfold retryable_failure in Hshort.
      rewrite Hres1 in Hshort. discriminate.
    + rewrite Hcalls. cbn [map]. rewrite Hreply. eauto.
  - intros Hout.
    assert (Hc : (400 <=? status_code resp) && (status_code resp <? 600) = false).
    { apply andb_false_iff. rewrite Z.leb_gt, Z.ltb_ge. lia. }
    rewrite Hc in Hres1.
    destruct rest as [|w2 rest].
    + cbn [last] in Hres. rewrite Hres, Hres1. split; [reflexivity|].
      rewrite Hcalls. cbn [map]. rewrite Hreply. reflexivity.
    + exfalso. cbn [removelast] in Hinit. inversion Hinit as [|? ? Hr _]; subst.
      unfold retryable_failure in Hr. rewrite Hres1 in Hr. discriminate.
Qed.

End HttpClient.



Lemma send_request_other_status_witness :
  limiter_ok world_404 /\
  next_http_reply world_404 = HttpReturns not_found /\
  exists reply2 rest,
    http_calls (emitted (send_request "POST" batch_url (KwJson ["P1"]) world_404)) =
    (mkRequest "POST" batch_url REQUEST_TIMEOUT (KwJson ["P1"]), HttpReturns not_found)
      :: (mkRequest "POST" batch_url REQUEST_TIMEOUT (KwJson ["P1"]), reply2) :: rest.
Proof.
  split; [reflexivity|]. split; [reflexivity|].
  destruct (send_request_other_status "POST" batch_url (KwJson ["P1"]) world_404 not_found
              eq_refl eq_refl ltac:(cbn; lia) ltac:(cbn; lia)) as (H4xx & _).
  destruct (H4xx ltac:(cbn; lia)) as (_ & _ & Hcalls).
  exact Hcalls.
Defined.

(** A 404 is re-attempted: with an API that answers 404 every time, the
    call makes five HTTP calls before the error reaches the caller.  And a
    304, which is not a 2xx status either, raises no error at all. *)
Lemma send_request_not_found_counterexample :
  let r := send_request "POST" batch_url (KwJson ["P1"]) world_404 in
  let r' := send_request "POST" batch_url (KwJson ["P1"]) world_304 in
  res r = Raise (HTTPError 404) /\
  List.length (http_calls (emitted r)) = 5%nat /\
  List.length (http_calls (emitted r)) <> 1%nat /\
  res r' = Ret not_modified.
Proof. vm_compute. repeat split. discriminate. Qed.

(** ** Reference pagination (spec 4.4) *)

Lemma shutdown_run w :
  exists b w1,
    shutdown_is_set w = mkRun (Ret b) w1 [] /\
    (w1 = w \/ exists n, w1 = set_shutdown n w).
Proof.
  unfold shutdown_is_set. destruct (w_shutdown w) as [[|n]|]; eauto 6.
Qed.

Lemma Forall_removelast {A} (P : A -> Prop) (l : list A) :
  Forall P l -> Forall P (removelast l).
Proof.
  induction 1 as [|x l Hx Hl IH]; [constructor|].
  destruct l as [|y l]; [constructor|].
  change (removelast (x :: y :: l)) with (x :: removelast (y :: l)).
  constructor; assumption.
Qed.

Lemma Forall_last {A} (P : A -> Prop) (l : list A) d :
  l <> [] -> Forall P l -> P (last l d).
Proof.
  intros Hne H. induction H as [|x l Hx Hl IH]; [congruence|].
  destruct l as [|y l]; [exact Hx|].
  change (last (x :: y :: l) d) with (last (y :: l) d). apply IH. discriminate.
Qed.

(** The replies behind one guarded call of [send_request], the shape of
    the [try] blocks of [fetch_pages] and of the crawl loop. *)
Lemma guarded_send_run method url kw w :
  limiter_ok w ->
  let m := try_except (resp <- send_request method url kw ;; ret (Some resp))
                      is_RequestException (fun _ => ret None) in
  let d := HttpRaises ConnectionError in
  exists replies,
    replies <> [] /\
    http_calls (emitted (m w)) = map (pair (mkRequest method url REQUEST_TIMEOUT kw)) replies /\
    Forall (fun rp => exists e, attempt_outcome rp = Raise e /\ is_RequestException e = true)
           (removelast replies) /\
    limiter_ok (post (m w)) /\
    match res (m w) with
    | Ret (Some resp) => attempt_outcome (last replies d) = Ret resp
    | Ret None => exists e, attempt_outcome (last replies d) = Raise e /\ is_RequestException e = true
    | Raise e => attempt_outcome (last replies d) = Raise e /\ is_RequestException e = false
    end.
Proof.
  intros Hok m d.
  destruct (send_request_chain method url kw w Hok)
    as (ws & Hhd & Hlen & Hall & Hinit & _ & Hres & Hok2 & _ & Hcalls).
  assert (Hne : ws <> []) by (destruct ws; cbn in Hhd; congruence).
  exists (map next_http_reply ws).
  assert (Hlast : last (map next_http_reply ws) d = next_http_reply (last ws w)).
  { apply last_map_nonempty. exact Hne. }
  assert (Hoklast : limiter_ok (last ws w)) by (apply Forall_last; assumption).
  destruct (send_request_once_run method url kw (last ws w) Hoklast) as (Hres1 & _).
  rewrite Hres1 in Hres. rewrite Hlast.
  assert (Hm : res (m w) = match res (send_request method url kw w) with
                           | Ret resp => Ret (Some resp)
                           | Raise e => if is_RequestException e then Ret None else Raise e
                           end /\
               post (m w) = post (send_request method url kw w) /\
               emitted (m w) = emitted (send_request method url kw w) ++ []).
  { unfold m, try_except, bind.
    destruct (send_request method url kw w) as [[resp|e] w2 evs]; cbn; auto.
    destruct (is_RequestException e); cbn; rewrite ?app_nil_r; auto. }
  destruct Hm as (Hmres & Hmpost & Hmem).
  rewrite Hmres, Hmpost, Hmem, app_nil_r. repeat split.
  - destruct ws; [congruence | discriminate].
  - rewrite Hcalls, map_map. reflexivity.
  - rewrite removelast_map. apply Forall_map.
    pose proof (Forall_removelast _ _ Hall) as Hall'.
    clear -Hinit Hall'. induction Hinit as [|w1 rest H1 _ IH]; [constructor|].
    inversion Hall' as [|? ? Hok1 Hrest]; subst.
    constructor; [|apply IH; exact Hrest].
    destruct (send_request_once_run method url kw w1 Hok1) as (Hr & _).
    unfold retryable_failure in H1. rewrite Hr in H1.
    destruct (attempt_outcome (next_http_reply w1)) as [resp|e]; [discriminate|].
    exists e. auto.
  - exact Hok2.
  - rewrite Hres. destruct (attempt_outcome (next_http_reply (last ws w))) as [resp|e].
    + reflexivity.
    + destruct (is_RequestException e) eqn:He; eauto.
Qed.

Lemma limiter_ok_shutdown w w1 :
  limiter_ok w -> (w1 = w \/ exists n, w1 = set_shutdown n w) -> limiter_ok w1.
Proof. intros Hok [-> | (n & ->)]; exact Hok. Qed.

Lemma page_chain_of_replies pid o replies tail d :
  replies <> [] -> o <= MAX_OFFSET ->
  Forall (fun rp => exists e, attempt_outcome rp = Raise e /\ is_RequestException e = true)
         (removelast replies) ->
  match tail with
  | [] => True
  | _ :: _ => exists o', may_follow o (last replies d) o' /\ page_chain pid o' tail
  end ->
  page_chain pid o (map (pair (page_request pid o)) replies ++ tail).
Proof.
  intros Hne Ho. induction replies as [|rp rest IH]; [congruence|].
  intros Hretry Htail. destruct rest as [|rp2 rest].
  - cbn [map app page_chain fst snd]. repeat split; try assumption.
  - change (removelast (rp :: rp2 :: rest)) with (rp :: removelast (rp2 :: rest)) in Hretry.
    inversion Hretry as [|? ? (e & He & Hre) Hretry']; subst.
    change (last (rp :: rp2 :: rest) d) with (last (rp2 :: rest) d) in Htail.
    specialize (IH ltac:(discriminate) Hretry' Htail).
    cbn [map app] in *. cbn [page_chain fst snd]. repeat split; try assumption.
    exists o. split; [|exact IH].
    unfold may_follow. rewrite He. auto.
Qed.

Lemma emitted_bind_ret {A B} (m : M A) (g : A -> B) w :
  emitted (bind m (fun x => ret (g x)) w) = emitted (m w).
Proof.
  unfold bind, ret. destruct (m w) as [[a|e] w1 evs]; cbn; rewrite ?app_nil_r; reflexivity.
Qed.

(** The HTTP calls of the pagination loop form a chain. *)
Lemma fetch_pages_loop_chain fuel :
  forall pid total o rows w,
    limiter_ok w ->
    page_chain pid o (http_calls (emitted (fetch_pages_loop fuel pid total o rows w))).
Proof.
  induction fuel as [|fuel IH]; intros pid total o rows w Hok.
  - cbn [fetch_pages_loop]. destruct (_ && _); exact I.
  - cbn [fetch_pages_loop].
    destruct ((o <? total) && (o <=? MAX_OFFSET)) eqn:Hcond; [|exact I].
    apply andb_true_iff in Hcond. destruct Hcond as (_ & Ho). apply Z.leb_le in Ho.
    destruct (shutdown_run w) as (b & w1 & Hsd & Hw1).
    pose proof (limiter_ok_shutdown w w1 Hok Hw1) as Hok1.
    rewrite (emitted_bind_Ret _ _ _ _ _ _ Hsd). cbn [app].
    destruct b; [exact I|].
    destruct (guarded_send_run "GET" (references_url pid)
                (KwParams (mkParams "paperId" REF_PAGE_LIMIT o)) w1 Hok1)
      as (replies & Hne & Hcalls & Hretry & Hok2 & Hres).
    change (try_except _ _ _) with (fetch_page pid o) in Hcalls, Hok2, Hres.
    change (mkRequest _ _ _ _) with (page_request pid o) in Hcalls.
    destruct (fetch_page pid o w1) as [[got|e] w2 evs] eqn:Hfp; cbn [res post emitted] in *.
    + rewrite (emitted_bind_Ret _ _ _ _ _ _ Hfp), http_calls_app, Hcalls.
      destruct got as [resp|].
      * assert (Hstop : page_chain pid o (map (pair (page_request pid o)) replies ++ [])).
        { eapply page_chain_of_replies with (d := HttpRaises ConnectionError); eauto. }
        destruct (resp_body resp) as [items|data nxt|] eqn:Hbody; try exact Hstop.
        destruct data as [[|entry entries]|]; try exact Hstop.
        destruct (int_of_next nxt) as [n|] eqn:Hnxt; try exact Hstop.
        destruct ((n <=? o) || (n >? MAX_OFFSET)) eqn:Hn; try exact Hstop.
        apply orb_false_iff in Hn. destruct Hn as (Hn1 & Hn2).
        apply Z.leb_gt in Hn1. rewrite Z.gtb_ltb in Hn2. apply Z.ltb_ge in Hn2.
        eapply page_chain_of_replies with (d := HttpRaises ConnectionError); eauto.
        specialize (IH pid total n (rows ++ edges_of pid (entry :: entries)) w2 Hok2).
        destruct (http_calls _) as [|c cs]; [exact I|].
        exists n. split; [|exact IH].
        unfold may_follow. rewrite Hres. exists (entry :: entries), nxt.
        repeat split; try assumption; try lia. discriminate.
      * cbn [ret emitted http_calls]. eapply page_chain_of_replies with (d := HttpRaises ConnectionError); eauto.
    + rewrite (emitted_bind_Raise _ _ _ _ _ _ Hfp), Hcalls.
      rewrite <- (app_nil_r (map _ replies)). eapply page_chain_of_replies with (d := HttpRaises ConnectionError); eauto.
Qed.

Lemma may_follow_increases o reply o' : may_follow o reply o' -> o <= o'.
Proof.
  unfold may_follow. destruct (attempt_outcome reply) as [resp|e].
  - intros (data & nxt & _ & _ & _ & H). lia.
  - intros (_ & ->). lia.
Qed.

Lemma page_chain_offsets pid calls :
  forall o, page_chain pid o calls ->
    Forall (fun c => exists o', fst c = page_request pid o' /\ o <= o' <= MAX_OFFSET) calls.
Proof.
  induction calls as [|c rest IH]; intros o Hchain; [constructor|].
  cbn [page_chain] in Hchain. destruct Hchain as (Hc & Ho & Hrest).
  constructor.
  - exists o. split; [exact Hc | lia].
  - destruct rest as [|c2 rest]; [constructor|].
    destruct Hrest as (o' & Hfollow & Hchain').
    apply may_follow_increases in Hfollow.
    eapply Forall_impl; [|apply (IH o' Hchain')].
    cbn. intros c' (o'' & Hc' & Ho''). exists o''. split; [exact Hc' | lia].
Qed.

Lemma page_chain_consecutive pid pre :
  forall o calls c1 c2 suf,
    page_chain pid o calls -> calls = pre ++ c1 :: c2 :: suf ->
    exists o1 o2,
      o <= o1 /\ fst c1 = page_request pid o1 /\ fst c2 = page_request pid o2 /\
      may_follow o1 (snd c1) o2.
Proof.
  induction pre as [|c pre IH]; intros o calls c1 c2 suf Hchain ->.
  - cbn [app page_chain] in Hchain.
    destruct Hchain as (Hc1 & _ & o2 & Hfollow & Hchain2).
    destruct Hchain2 as (Hc2 & _).
    exists o, o2. repeat split; try assumption. lia.
  - cbn [app page_chain] in Hchain. destruct Hchain as (_ & _ & Hrest).
    destruct (pre ++ c1 :: c2 :: suf) as [|c' rest'] eqn:Heq.
    { destruct pre; discriminate. }
    destruct Hrest as (o' & Hfollow & Hchain').
    apply may_follow_increases in Hfollow.
    destruct (IH o' (c' :: rest') c1 c2 suf Hchain' (eq_sym Heq)) as (o1 & o2 & Ho1 & H).
    exists o1, o2. split; [lia | exact H].
Qed.

(** More fuel than there are offsets up to the ceiling changes nothing:
    the loop never stops for lack of fuel. *)
Lemma fetch_pages_loop_fuel fuel :
  forall fuel' pid total o rows w,
    (Z.to_nat (MAX_OFFSET + 1 - o) <= fuel)%nat ->
    (Z.to_nat (MAX_OFFSET + 1 - o) <= fuel')%nat ->
    fetch_pages_loop fuel pid total o rows w = fetch_pages_loop fuel' pid total o rows w.
Proof.
  induction fuel as [|fuel IH]; intros fuel' pid total o rows w Hf Hf'.
  - destruct fuel' as [|fuel']; [reflexivity|].
    cbn [fetch_pages_loop].
    destruct ((o <? total) && (o <=? MAX_OFFSET)) eqn:Hcond; [|reflexivity].
    apply andb_true_iff in Hcond. destruct Hcond as (_ & Ho). apply Z.leb_le in Ho. lia.
  - cbn [fetch_pages_loop].
    destruct ((o <? total) && (o <=? MAX_OFFSET)) eqn:Hcond.
    + pose proof Hcond as Hcond'.
      apply andb_true_iff in Hcond. destruct Hcond as (_ & Ho). apply Z.leb_le in Ho.
      destruct fuel' as [|fuel']; [lia|].
      cbn [fetch_pages_loop]. rewrite Hcond'.
      unfold bind. destruct (shutdown_is_set w) as [[b|e] w1 evs1]; [|reflexivity].
      destruct b; [reflexivity|].
      destruct (fetch_page pid o w1) as [[got|e] w2 evs2]; [|reflexivity].
      destruct got as [resp|]; [|reflexivity].
      destruct (resp_body resp) as [items|data nxt|]; try reflexivity.
      destruct data as [[|entry entries]|]; try reflexivity.
      destruct (int_of_next nxt) as [n|]; try reflexivity.
      destruct ((n <=? o) || (n >? MAX_OFFSET)) eqn:Hn; try reflexivity.
      apply orb_false_iff in Hn. destruct Hn as (Hn1 & Hn2).
      apply Z.leb_gt in Hn1.
      rewrite (IH fuel' pid total n (rows ++ edges_of pid (entry :: entries)) w2) by lia.
      reflexivity.
    + destruct fuel'; cbn [fetch_pages_loop]; rewrite Hcond; reflexivity.
Qed.

Lemma int_of_next_above_one nxt n : int_of_next nxt = Some n -> 1 < n -> nxt = NextInt n.
Proof.
  destruct nxt as [|m|b|]; cbn; try discriminate.
  - intros H _. injection H as ->. reflexivity.
  - intros H Hn. injection H as <-. destruct b; lia.
Qed.

(** C4: every request [fetch_pages] issues is a GET of the paper's
    references with page size 99 and an offset between the start offset
    and the ceiling 9999.  Of two consecutive requests, the second is
    either a retry of the first, whose attempt failed with a
    [RequestException], or it follows a page that had entries and a [next]
    that is an integer (for a start offset of at least 1, as in the crawl
    loop: a JSON integer) strictly above the current offset and not above
    9999, which is the offset of the second.  So the routine stops after
    any other response, an empty [data] list or a malformed [next]
    included, and it stops in every case: the loop's fuel is never
    used up. *)
Theorem fetch_pages_pagination pid start total w :
  limiter_ok w ->
  let r := fetch_pages pid start total w in
  let calls := http_calls (emitted r) in
  Forall (fun c => exists o, fst c = page_request pid o /\
                             p_limit (mkParams "paperId" REF_PAGE_LIMIT o) = 99 /\
                             start <= o <= 9999) calls /\
  (forall pre c1 c2 suf,
      calls = pre ++ c1 :: c2 :: suf ->
      exists o1 o2,
        fst c1 = page_request pid o1 /\ fst c2 = page_request pid o2 /\
        match attempt_outcome (snd c1) with
        | Raise e => is_RequestException e = true /\ o2 = o1
        | Ret resp =>
            exists data nxt,
              resp_body resp = BodyDict (Some data) nxt /\ data <> [] /\
              int_of_next nxt = Some o2 /\ o1 < o2 <= 9999 /\
              (1 <= start -> nxt = NextInt o2)
        end) /\
  (forall fuel, (Z.to_nat (MAX_OFFSET + 1 - start) <= fuel)%nat ->
      fetch_pages_loop fuel pid total start [] w =
      fetch_pages_loop (Z.to_nat (MAX_OFFSET + 1 - start)) pid total start [] w).
Proof.
  intros Hok r calls.
  assert (Hchain : page_chain pid start calls).
  { unfold calls, r, fetch_pages. rewrite emitted_bind_ret.
    apply fetch_pages_loop_chain. exact Hok. }
  split; [|split].
  - eapply Forall_impl; [|apply (page_chain_offsets pid calls start Hchain)].
    cbn. intros c (o & Hc & Ho). exists o. unfold MAX_OFFSET in Ho. auto.
  - intros pre c1 c2 suf Hcalls.
    destruct (page_chain_consecutive pid pre start calls c1 c2 suf Hchain Hcalls)
      as (o1 & o2 & Ho1 & Hc1 & Hc2 & Hfollow).
    exists o1, o2. split; [exact Hc1|]. split; [exact Hc2|].
    unfold may_follow in Hfollow.
    destruct (attempt_outcome (snd c1)) as [resp|e]; [|exact Hfollow].
    destruct Hfollow as (data & nxt & Hbody & Hdata & Hnxt & Hrange).
    exists data, nxt. unfold MAX_OFFSET in Hrange. repeat split; try assumption; try lia.
    intros Hstart. apply int_of_next_above_one; [exact Hnxt | lia].
  - intros fuel Hfuel. apply fetch_pages_loop_fuel; [exact Hfuel | lia].
Qed.

Lemma fetch_pages_pagination_witness :
  limiter_ok world_pages /\
  Forall (fun c => exists o, fst c = page_request "P1" o /\
                             p_limit (mkParams "paperId" REF_PAGE_LIMIT o) = 99 /\
                             99 <= o <= 9999)
         (http_calls (emitted (fetch_pages "P1" 99 250 world_pages))).
Proof.
  split; [reflexivity|].
  exact (proj1 (fetch_pages_pagination "P1" 99 250 world_pages eq_refl)).
Defined.

(** Scenario 2 of the specification in small: two pages are fetched, at
    offsets 99 and 198, and their entries become edges of the paper. *)
Example fetch_pages_two_pages :
  let r := fetch_pages "P1" 99 250 world_pages in
  res r = Ret ("P1", [("P1", "R1"); ("P1", "R2")]) /\
  map fst (http_calls (emitted r)) = [page_request "P1" 99; page_request "P1" 198].
Proof. vm_compute. split; reflexivity. Qed.

(** ** Classes of effects *)

Section EmitsOnly.

Variable allowed : event -> bool.

Lemma emits_only_ret {A} (a : A) : emits_only allowed (ret a).
Proof. intros w. constructor. Qed.

Lemma emits_only_raise {A} e : emits_only allowed (@raise A e).
Proof. intros w. constructor. Qed.

Lemma emits_only_bind {A B} (m : M A) (k : A -> M B) :
  emits_only allowed m -> (forall a, emits_only allowed (k a)) -> emits_only allowed (bind m k).
Proof.
  intros Hm Hk w. unfold bind. specialize (Hm w).
  destruct (m w) as [[a|e] w1 evs1]; cbn in *; [|exact Hm].
  specialize (Hk a w1). destruct (k a w1) as [r w2 evs2]; cbn in *.
  apply Forall_app. split; assumption.
Qed.

Lemma emits_only_try_except {A} (m : M A) handles h :
  emits_only allowed m -> (forall e, emits_only allowed (h e)) ->
  emits_only allowed (try_except m handles h).
Proof.
  intros Hm Hh w. unfold try_except. specialize (Hm w).
  destruct (m w) as [[a|e] w1 evs1]; cbn in *; [exact Hm|].
  destruct (handles e); [|exact Hm].
  specialize (Hh e w1). destruct (h e w1) as [r w2 evs2]; cbn in *.
  apply Forall_app. split; assumption.
Qed.

Lemma emits_only_try_finally {A} (m : M A) f :
  emits_only allowed m -> emits_only allowed f -> emits_only allowed (try_finally m f).
Proof.
  intros Hm Hf w. unfold try_finally. specialize (Hm w).
  destruct (m w) as [r w1 evs1]; cbn in *.
  specialize (Hf w1). destruct (f w1) as [[u|e] w2 evs2]; cbn in *.
  all: apply Forall_app; split; assumption.
Qed.

Lemma emits_only_emit ev : allowed ev = true -> emits_only allowed (emit ev).
Proof. intros H w. constructor; [exact H | constructor]. Qed.

Lemma emits_only_get_world : emits_only allowed get_world.
Proof. intros w. constructor. Qed.

Lemma emits_only_put_world w' : emits_only allowed (put_world w').
Proof. intros w. constructor. Qed.

Lemma emits_only_time_time : emits_only allowed time_time.
Proof. intros w. unfold time_time. destruct (w_latency w); constructor. Qed.

Lemma emits_only_time_sleep d :
  allowed (EvSleep d) = true -> emits_only allowed (time_sleep d).
Proof.
  intros H w. unfold time_sleep. destruct (d <? 0); cbn; [constructor|].
  constructor; [exact H | constructor].
Qed.

Lemma emits_only_shutdown_is_set : emits_only allowed shutdown_is_set.
Proof. intros w. unfold shutdown_is_set. destruct (w_shutdown w) as [[|n]|]; constructor. Qed.

Lemma emits_only_db_exec ev :
  (forall reply, allowed (ev reply) = true) -> emits_only allowed (db_exec ev).
Proof.
  intros H w. unfold db_exec.
  destruct (next_db_reply w); cbn; (constructor; [apply H | constructor]).
Qed.

Lemma emits_only_sess_request rq :
  (forall reply, allowed (EvHttp rq reply) = true) -> emits_only allowed (sess_request rq).
Proof.
  intros H w. unfold sess_request.
  destruct (next_http_reply w); cbn; (constructor; [apply H | constructor]).
Qed.

End EmitsOnly.

(** Breaks a goal [emits_only allowed m] down along the structure of [m];
    the leaves are closed by evaluating [allowed]. *)
Ltac emits_step :=
  match goal with
  | |- emits_only _ (bind _ _) => apply emits_only_bind; [|intros ?]
  | |- emits_only _ (ret _) => apply emits_only_ret
  | |- emits_only _ (raise _) => apply emits_only_raise
  | |- emits_only _ (try_except _ _ _) => apply emits_only_try_except; [|intros ?]
  | |- emits_only _ (try_finally _ _) => apply emits_only_try_finally
  | |- emits_only _ (emit _) => apply emits_only_emit; reflexivity
  | |- emits_only _ get_world => apply emits_only_get_world
  | |- emits_only _ (put_world _) => apply emits_only_put_world
  | |- emits_only _ time_time => apply emits_only_time_time
  | |- emits_only _ (time_sleep _) => apply emits_only_time_sleep; reflexivity
  | |- emits_only _ shutdown_is_set => apply emits_only_shutdown_is_set
  | |- emits_only _ (db_exec _) => apply emits_only_db_exec; intros ?; reflexivity
  | |- emits_only _ (sess_request _) => apply emits_only_sess_request; intros ?; reflexivity
  | |- emits_only _ (match ?x with _ => _ end) => destruct x
  | |- emits_only _ (let '(_, _) := ?x in _) => destruct x
  | H : _ |- _ => solve [apply H]
  end.

Ltac emits := repeat emits_step.

(** *** The HTTP side emits sleeps and HTTP calls only *)

Section HttpEffects.

Variable allowed : event -> bool.
Hypothesis allowed_sleep : forall d, allowed (EvSleep d) = true.
Hypothesis allowed_http : forall rq reply, allowed (EvHttp rq reply) = true.

Lemma emits_only_sleep d : emits_only allowed (time_sleep d).
Proof. apply emits_only_time_sleep. apply allowed_sleep. Qed.


Lemma emits_only_acquire : emits_only allowed RateLimiter_acquire.
Proof.
  unfold RateLimiter_acquire.
  pose proof emits_only_sleep. emits.
Qed.


Lemma emits_only_tenacity_retry {A} (f : M A) left :
  emits_only allowed f -> forall attempt, emits_only allowed (tenacity_retry left attempt f).
Proof.
  intros Hf. induction left as [|left IH]; intros attempt; cbn [tenacity_retry].
  - pose proof emits_only_sleep. emits.
  - pose proof emits_only_sleep. emits.
Qed.







End HttpEffects.

(** ** The batch writer (spec 4.5) *)

Lemma conn_rollback_run w :
  conn_rollback w = mkRun (Ret tt) (set_working (w_committed w) w) [EvRollback].
Proof. reflexivity. Qed.

Lemma is_DeadlockDetected_eq e : is_DeadlockDetected e = true -> e = DeadlockDetected.
Proof. destruct e; cbn; congruence. Qed.

Lemma backoff_nonneg attempt : 0 <= INSERT_BACKOFF * 2 ^ (attempt - 1).
Proof.
  apply Z.mul_nonneg_nonneg; [unfold INSERT_BACKOFF, second; lia|].
  destruct (Z.le_gt_cases 0 (attempt - 1)) as [H|H].
  - apply Z.pow_nonneg. lia.
  - rewrite Z.pow_neg_r by lia. lia.
Qed.

Lemma deadlock_joined_cons a attempts evs rest :
  rest <> [] ->
  deadlock_joined (a :: attempts) (evs :: rest) =
  evs ++ EvRollback :: EvSleep (INSERT_BACKOFF * 2 ^ (a - 1)) :: deadlock_joined attempts rest.
Proof. destruct rest; [congruence | reflexivity]. Qed.

(** The effects of a chain of attempts end with those of the last
    attempt; what comes before is made of the earlier attempts, rollbacks
    and sleeps. *)
Lemma deadlock_joined_split attempts (runs : list (list event)) :
  runs <> [] ->
  exists before,
    deadlock_joined attempts runs = before ++ last runs [] /\
    forall allowed : event -> bool,
      allowed EvRollback = true -> (forall d, allowed (EvSleep d) = true) ->
      Forall (fun evs => Forall (fun ev => allowed ev = true) evs) (removelast runs) ->
      Forall (fun ev => allowed ev = true) before.
Proof.
  revert attempts. induction runs as [|evs runs IH]; intros attempts Hne; [congruence|].
  destruct runs as [|evs2 runs].
  - exists []. split; [reflexivity|]. intros; constructor.
  - destruct (IH (tl attempts) ltac:(discriminate)) as (before & Hb & Hall).
    change (last (evs :: evs2 :: runs) []) with (last (evs2 :: runs) []).
    exists (evs ++ EvRollback :: EvSleep (INSERT_BACKOFF * 2 ^ (hd 0 attempts - 1)) :: before).
    split.
    + change (deadlock_joined attempts (evs :: evs2 :: runs))
        with (evs ++ EvRollback :: EvSleep (INSERT_BACKOFF * 2 ^ (hd 0 attempts - 1))
                  :: deadlock_joined (tl attempts) (evs2 :: runs)).
      rewrite Hb. rewrite <- app_assoc. reflexivity.
    + intros allowed Hrb Hsl Hruns.
      change (removelast (evs :: evs2 :: runs)) with (evs :: removelast (evs2 :: runs)) in Hruns.
      inversion Hruns as [|? ? Hevs Hrest]; subst.
      apply Forall_app. split; [exact Hevs|].
      constructor; [exact Hrb|]. constructor; [apply Hsl|].
      apply Hall; assumption.
Qed.

Section DeadlockRetry.

Variables (n : Z) (body : M unit) (w0 : world) (I : world -> Prop).

(** What the [except] clause leaves behind when the loop goes on: the
    world after a deadlocked attempt, rolled back, some time later. *)
Hypothesis I_retry :
  forall w t,
    w = w0 \/ I w -> deadlocked (body w) = true ->
    I (set_now t (set_working (w_committed (post (body w))) (post (body w)))).

(** A writer is a chain of attempts of its body, started in the worlds
    [ws]: all but the last ended in a deadlock and were rolled back, and
    the chain stops on the first attempt that does not deadlock or on the
    attempt numbered [n], whose deadlock surfaces after its rollback. *)
Lemma deadlock_retry_attempts pre :
  forall w, ~ In n pre -> w = w0 \/ I w ->
    let attempts := pre ++ [n] in
    let r := deadlock_retry n attempts body w in
    exists ws : list world,
      hd_error ws = Some w /\
      (List.length ws <= List.length attempts)%nat /\
      Forall I (tl ws) /\
      Forall (fun w' => deadlocked (body w') = true) (removelast ws) /\
      emitted r = deadlock_joined attempts (map (fun w' => emitted (body w')) ws) ++
                  (if deadlocked (body (last ws w)) then [EvRollback] else []) /\
      (deadlocked (body (last ws w)) = true ->
         List.length ws = List.length attempts /\ res r = Raise DeadlockDetected) /\
      (deadlocked (body (last ws w)) = false ->
         res r = res (body (last ws w)) /\ post r = post (body (last ws w))).
Proof.
  induction pre as [|a pre IH]; intros w Hn Hw attempts r; subst attempts r.
  - exists [w]. cbn [app deadlock_retry]. unfold try_except.
    unfold deadlocked. cbn [last hd_error List.length tl removelast map deadlock_joined].
    destruct (body w) as [[u|e] w1 evs1] eqn:Hb; cbn [res post emitted].
    + rewrite app_nil_r. repeat split; auto; try discriminate.
    + destruct (is_DeadlockDetected e) eqn:He.
      * unfold bind. rewrite conn_rollback_run. rewrite Z.eqb_refl. cbn.
        apply is_DeadlockDetected_eq in He. subst e.
        repeat split; auto; try discriminate.
      * rewrite app_nil_r. repeat split; auto; try discriminate.
  - assert (Han : a <> n) by (intros ->; apply Hn; left; reflexivity).
    assert (Hn' : ~ In n pre) by (intros Hin; apply Hn; right; exact Hin).
    cbn [app deadlock_retry]. unfold try_except.
    destruct (body w) as [[u|e] w1 evs1] eqn:Hb.
    + exists [w]. unfold deadlocked. cbn. rewrite Hb. cbn. rewrite app_nil_r.
      repeat split; auto; try lia; try discriminate.
    + destruct (is_DeadlockDetected e) eqn:He.
      * unfold bind. rewrite conn_rollback_run.
        apply Z.eqb_neq in Han. rewrite Han.
        rewrite time_sleep_run by apply backoff_nonneg.
        set (w2 := set_now _ _).
        assert (Hw2 : I w2).
        { unfold w2. cbn [w_now set_working].
          pose proof (I_retry w (w_now w1 + INSERT_BACKOFF * 2 ^ (a - 1)) Hw) as HI.
          rewrite Hb in HI. unfold deadlocked in HI. cbn [res post] in HI.
          apply HI. exact He. }
        destruct (IH w2 Hn' (or_intror Hw2))
          as (ws & Hhd & Hlen & Hall & Hinit & Hem & Hdead & Hfine).
        assert (Hne : ws <> []) by (destruct ws; cbn in Hhd; congruence).
        destruct (deadlock_retry n (pre ++ [n]) body w2) as [r2 w3 evs2] eqn:Hrec.
        cbn [res post emitted] in *.
        exists (w :: ws).
        rewrite (last_cons_nonempty w ws w w2 Hne).
        repeat split.
        -- cbn [List.length]. lia.
        -- cbn [tl]. destruct ws as [|w' ws']; [congruence|].
           cbn [hd_error] in Hhd. injection Hhd as ->.
           constructor; [exact Hw2 | exact Hall].
        -- destruct ws as [|w' ws']; [congruence|].
           change (removelast (w :: w' :: ws')) with (w :: removelast (w' :: ws')).
           constructor; [|exact Hinit].
           unfold deadlocked. rewrite Hb. exact He.
        -- cbn [map]. rewrite deadlock_joined_cons.
           ++ rewrite Hb. cbn [emitted]. rewrite Hem. rewrite <- !app_assoc. reflexivity.
           ++ destruct ws; [congruence | discriminate].
        -- cbn [List.length]. f_equal. apply Hdead. assumption.
        -- apply Hdead. assumption.
        -- apply Hfine. assumption.
        -- apply Hfine. assumption.
      * exists [w]. unfold deadlocked. cbn. rewrite Hb. cbn. rewrite He, app_nil_r.
        repeat split; auto; try lia; try discriminate.
Qed.

End DeadlockRetry.

Lemma insert_citations_stmt_run page w :
  let w' := set_dbscript (tl (w_dbscript w)) w in
  insert_citations_stmt page w =
  match next_db_reply w with
  | DbOk =>
      mkRun (Ret tt)
            (set_working (mkDatabase (processed_papers (w_working w))
                            (insert_citation_rows page (citations (w_working w)))) w')
            [EvInsertCitations page DbOk]
  | DbDeadlock => mkRun (Raise DeadlockDetected) w' [EvInsertCitations page DbDeadlock]
  | DbFails => mkRun (Raise DatabaseError) w' [EvInsertCitations page DbFails]
  end.
Proof.
  unfold insert_citations_stmt, bind, db_exec, get_world, put_world.
  destruct (next_db_reply w); reflexivity.
Qed.

Lemma insert_processed_stmt_run page w :
  let w' := set_dbscript (tl (w_dbscript w)) w in
  insert_processed_stmt page w =
  match next_db_reply w with
  | DbOk =>
      mkRun (Ret tt)
            (set_working (mkDatabase
                            (insert_processed_rows page (processed_papers (w_working w)))
                            (citations (w_working w))) w')
            [EvInsertProcessed page DbOk]
  | DbDeadlock => mkRun (Raise DeadlockDetected) w' [EvInsertProcessed page DbDeadlock]
  | DbFails => mkRun (Raise DatabaseError) w' [EvInsertProcessed page DbFails]
  end.
Proof.
  unfold insert_processed_stmt, bind, db_exec, get_world, put_world.
  destruct (next_db_reply w); reflexivity.
Qed.

Lemma conn_commit_run w :
  let w' := set_dbscript (tl (w_dbscript w)) w in
  conn_commit w =
  match next_db_reply w with
  | DbOk => mkRun (Ret tt) (set_committed (w_working w) w') [EvCommit DbOk]
  | DbDeadlock => mkRun (Raise DeadlockDetected) w' [EvCommit DbDeadlock]
  | DbFails => mkRun (Raise DatabaseError) w' [EvCommit DbFails]
  end.
Proof.
  unfold conn_commit, bind, db_exec, get_world, put_world.
  destruct (next_db_reply w); reflexivity.
Qed.

Lemma insert_citation_rows_app rows1 rows2 table :
  insert_citation_rows (rows1 ++ rows2) table =
  insert_citation_rows rows2 (insert_citation_rows rows1 table).
Proof. unfold insert_citation_rows. apply fold_left_app. Qed.

Lemma insert_processed_rows_app rows1 rows2 table :
  insert_processed_rows (rows1 ++ rows2) table =
  insert_processed_rows rows2 (insert_processed_rows rows1 table).
Proof. unfold insert_processed_rows. apply fold_left_app. Qed.

(** The statements of the citation pages: the committed rows stay as
    they are, and when all statements succeed every page has been
    inserted into the open transaction. *)
Lemma run_pages_citations pages :
  forall w,
    let r := run_pages insert_citations_stmt pages w in
    w_committed (post r) = w_committed w /\
    w_bf_processed (post r) = w_bf_processed w /\
    (res r = Ret tt ->
       emitted r = map (fun p => EvInsertCitations p DbOk) pages /\
       citations (w_working (post r)) =
         insert_citation_rows (List.concat pages) (citations (w_working w)) /\
       processed_papers (w_working (post r)) = processed_papers (w_working w)).
Proof.
  induction pages as [|page pages IH]; intros w r; subst r.
  - cbn. auto.
  - cbn [run_pages]. unfold bind. rewrite insert_citations_stmt_run.
    destruct (next_db_reply w); cbn [res post emitted].
    + set (w1 := set_working _ _).
      specialize (IH w1). cbv zeta in IH.
      destruct (run_pages insert_citations_stmt pages w1) as [r2 w2 evs2].
      cbn [res post emitted] in *. destruct IH as (Hc & Hbf & Hok).
      split; [exact Hc|]. split; [exact Hbf|].
      intros Hr. destruct (Hok Hr) as (Hem & Hcit & Hproc).
      rewrite Hem, Hcit, Hproc. cbn [map List.concat app].
      rewrite insert_citation_rows_app. auto.
    + split; [reflexivity|]. split; [reflexivity|]. discriminate.
    + split; [reflexivity|]. split; [reflexivity|]. discriminate.
Qed.

Lemma run_pages_processed pages :
  forall w,
    let r := run_pages insert_processed_stmt pages w in
    w_committed (post r) = w_committed w /\
    w_bf_processed (post r) = w_bf_processed w /\
    (res r = Ret tt ->
       emitted r = map (fun p => EvInsertProcessed p DbOk) pages /\
       processed_papers (w_working (post r)) =
         insert_processed_rows (List.concat pages) (processed_papers (w_working w)) /\
       citations (w_working (post r)) = citations (w_working w)).
Proof.
  induction pages as [|page pages IH]; intros w r; subst r.
  - cbn. auto.
  - cbn [run_pages]. unfold bind. rewrite insert_processed_stmt_run.
    destruct (next_db_reply w); cbn [res post emitted].
    + set (w1 := set_working _ _).
      specialize (IH w1). cbv zeta in IH.
      destruct (run_pages insert_processed_stmt pages w1) as [r2 w2 evs2].
      cbn [res post emitted] in *. destruct IH as (Hc & Hbf & Hok).
      split; [exact Hc|]. split; [exact Hbf|].
      intros Hr. destruct (Hok Hr) as (Hem & Hcit & Hproc).
      rewrite Hem, Hcit, Hproc. cbn [map List.concat app].
      rewrite insert_processed_rows_app. auto.
    + split; [reflexivity|]. split; [reflexivity|]. discriminate.
    + split; [reflexivity|]. split; [reflexivity|]. discriminate.
Qed.

(** [chunked] cuts a list into consecutive pieces. *)
Lemma chunked_cons {A} (x : A) (l : list A) n :
  (0 < n)%nat ->
  chunked (x :: l) n = firstn n (x :: l) :: chunked (skipn n (x :: l)) n.
Proof.
  intros Hn. unfold chunked.
  set (len := List.length (x :: l)).
  assert (Hlen : (1 <= len)%nat) by (unfold len; cbn; lia).
  assert (Hcount : ((len + n - 1) / n = S ((List.length (skipn n (x :: l)) + n - 1) / n))%nat).
  { rewrite length_skipn. fold len.
    replace (len + n - 1)%nat with ((len - 1) + 1 * n)%nat by lia.
    rewrite Nat.div_add by lia.
    destruct (Nat.le_gt_cases n len) as [Hge|Hlt].
    - replace (len - n + n - 1)%nat with (len - 1)%nat by lia. lia.
    - replace (len - n + n - 1)%nat with (n - 1)%nat by lia.
      rewrite (Nat.div_small (len - 1) n) by lia.
      rewrite (Nat.div_small (n - 1) n) by lia. lia. }
  rewrite Hcount. cbn [seq map]. f_equal.
  rewrite <- seq_shift, map_map. apply map_ext. intros k.
  rewrite skipn_skipn. f_equal. f_equal. lia.
Qed.

Lemma chunked_nil {A} n : (0 < n)%nat -> chunked (@nil A) n = [].
Proof.
  intros Hn. unfold chunked. cbn [List.length].
  rewrite Nat.div_small by lia. reflexivity.
Qed.

Lemma concat_chunked {A} (l : list A) n : (0 < n)%nat -> List.concat (chunked l n) = l.
Proof.
  intros Hn.
  assert (H : forall m (l : list A), (List.length l <= m)%nat -> List.concat (chunked l n) = l).
  { induction m as [|m IH]; intros l' Hl.
    - destruct l'; [rewrite chunked_nil by exact Hn; reflexivity | cbn in Hl; lia].
    - destruct l' as [|x l']; [rewrite chunked_nil by exact Hn; reflexivity|].
      rewrite chunked_cons by exact Hn. cbn [List.concat].
      rewrite IH.
      + apply firstn_skipn.
      + rewrite length_skipn. cbn [List.length] in *. lia. }
  apply (H (List.length l)). lia.
Qed.

Lemma emits_only_run_pages {A} allowed (stmt : list A -> M unit) pages :
  (forall page, emits_only allowed (stmt page)) -> emits_only allowed (run_pages stmt pages).
Proof. intros Hs. induction pages as [|page pages IH]; cbn [run_pages]; emits. Qed.

Lemma emits_only_BF_MADD allowed name keys :
  allowed (EvBfMAdd name keys) = true -> emits_only allowed (BF_MADD name keys).
Proof.
  intros H. unfold BF_MADD. apply emits_only_bind; [apply emits_only_emit; exact H|].
  intros _. emits.
Qed.

Lemma citations_body_write_only rows : emits_only write_only (citations_body rows).
Proof.
  unfold citations_body, conn_commit.
  pose proof (emits_only_run_pages write_only insert_citations_stmt (chunked rows 100)) as Hp.
  apply emits_only_bind; [apply Hp; intros page; unfold insert_citations_stmt; emits|].
  intros _. emits.
Qed.

Lemma processed_body_write_only fos_map : emits_only write_only (processed_body fos_map).
Proof.
  unfold processed_body, conn_commit.
  pose proof (emits_only_run_pages write_only insert_processed_stmt (chunked fos_map 100)) as Hp.
  apply emits_only_bind; [apply Hp; intros page; unfold insert_processed_stmt; emits|].
  intros _. apply emits_only_bind; [emits|]. intros _.
  apply emits_only_bind; [apply emits_only_BF_MADD; reflexivity|]. intros _. emits.
Qed.

Lemma sleeps_app evs1 evs2 : sleeps (evs1 ++ evs2) = sleeps evs1 ++ sleeps evs2.
Proof.
  induction evs1 as [|ev evs1 IH]; [reflexivity|].
  destruct ev; cbn; rewrite IH; reflexivity.
Qed.

Lemma write_only_no_sleeps evs :
  Forall (fun ev => write_only ev = true) evs -> sleeps evs = [].
Proof.
  induction 1 as [|ev evs Hev _ IH]; [reflexivity|].
  destruct ev; cbn in *; try discriminate; exact IH.
Qed.

(** One attempt of the citation writer. *)
Lemma citations_body_run rows w :
  let r := citations_body rows w in
  (res r = Ret tt ->
     emitted r = map (fun p => EvInsertCitations p DbOk) (chunked rows 100) ++ [EvCommit DbOk] /\
     citations (w_committed (post r)) = insert_citation_rows rows (citations (w_working w)) /\
     processed_papers (w_committed (post r)) = processed_papers (w_working w) /\
     w_working (post r) = w_committed (post r)) /\
  (res r <> Ret tt -> w_committed (post r) = w_committed w).
Proof.
  intros r. subst r. unfold citations_body, bind.
  pose proof (run_pages_citations (chunked rows 100) w) as Hp. cbv zeta in Hp.
  destruct (run_pages insert_citations_stmt (chunked rows 100) w) as [[u|e] w1 evs1].
  - cbn [res post emitted] in Hp. destruct Hp as (Hc & _ & Hok).
    destruct u. destruct (Hok eq_refl) as (Hem & Hcit & Hproc).
    rewrite conn_commit_run. destruct (next_db_reply w1); cbn [res post emitted].
    + split; [|congruence]. intros _.
      rewrite Hem. cbn. rewrite Hcit, Hproc, concat_chunked by lia. auto.
    + split; [discriminate|]. intros _. exact Hc.
    + split; [discriminate|]. intros _. exact Hc.
  - cbn [res post emitted] in *. destruct Hp as (Hc & _).
    split; [discriminate|]. intros _. exact Hc.
Qed.

Lemma mem_edge_In row table : mem_edge row table = true <-> In row table.
Proof.
  unfold mem_edge. rewrite existsb_exists. split.
  - intros (y & Hin & Heq). apply andb_true_iff in Heq. destruct Heq as (H1 & H2).
    apply String.eqb_eq in H1, H2. destruct row, y; cbn in *; subst. exact Hin.
  - intros Hin. exists row. split; [exact Hin|]. rewrite !String.eqb_refl. reflexivity.
Qed.

(** [ON CONFLICT DO NOTHING]: the rows already there stay, the others are
    added, once. *)
Lemma insert_citation_rows_In rows :
  forall table row,
    In row (insert_citation_rows rows table) <-> In row table \/ In row rows.
Proof.
  unfold insert_citation_rows.
  induction rows as [|r rows IH]; intros table row; cbn [fold_left].
  - cbn. tauto.
  - rewrite IH. destruct (mem_edge r table) eqn:Hm.
    + apply mem_edge_In in Hm. cbn. split; [tauto|]. intros [H|[<-|H]]; auto.
    + rewrite in_app_iff. cbn. tauto.
Qed.

Lemma insert_citation_rows_NoDup rows :
  forall table, NoDup table -> NoDup (insert_citation_rows rows table).
Proof.
  unfold insert_citation_rows.
  induction rows as [|r rows IH]; intros table Hnd; cbn [fold_left]; [exact Hnd|].
  apply IH. destruct (mem_edge r table) eqn:Hm; [exact Hnd|].
  apply NoDup_app; [exact Hnd | repeat constructor; cbn; tauto |].
  intros x Hx [<-|[]]. apply mem_edge_In in Hx. congruence.
Qed.

Lemma attempts_upto_3 : attempts_upto 3 = [1; 2] ++ [3].
Proof. reflexivity. Qed.

(** The attempts behind one call of [safe_insert_citations]: a deadlocked
    attempt leaves the committed rows as they were, and the next attempt
    starts from them. *)
Lemma safe_insert_citations_chain rows w :
  let r := safe_insert_citations rows w in
  exists ws : list world,
    hd_error ws = Some w /\
    (1 <= List.length ws <= 3)%nat /\
    Forall (fun w' => w_working w' = w_committed w /\ w_committed w' = w_committed w) (tl ws) /\
    Forall (fun w' => deadlocked (citations_body rows w') = true) (removelast ws) /\
    emitted r =
      deadlock_joined [1; 2; 3] (map (fun w' => emitted (citations_body rows w')) ws) ++
      (if deadlocked (citations_body rows (last ws w)) then [EvRollback] else []) /\
    (deadlocked (citations_body rows (last ws w)) = true ->
       List.length ws = 3%nat /\ res r = Raise DeadlockDetected) /\
    (deadlocked (citations_body rows (last ws w)) = false ->
       res r = res (citations_body rows (last ws w)) /\
       post r = post (citations_body rows (last ws w))).
Proof.
  intros r. subst r. unfold safe_insert_citations.
  change (run_pages _ _ ;; conn_commit) with (citations_body rows).
  change MAX_INSERT_RETRIES with 3. rewrite attempts_upto_3.
  destruct (deadlock_retry_attempts 3 (citations_body rows) w
              (fun w' => w_working w' = w_committed w /\ w_committed w' = w_committed w))
    with (pre := [1; 2]) (w := w)
    as (ws & Hhd & Hlen & Hall & Hinit & Hem & Hdead & Hfine).
  - intros w' t Hw' Hd. cbn [w_working w_committed set_now set_working].
    destruct (citations_body_run rows w') as (_ & Hfail).
    assert (Hc : w_committed (post (citations_body rows w')) = w_committed w').
    { apply Hfail. unfold deadlocked in Hd.
      destruct (res (citations_body rows w')); [discriminate | congruence]. }
    rewrite Hc. destruct Hw' as [-> | (_ & Hw')]; auto.
  - cbn. intros [H|[H|[]]]; discriminate.
  - left. reflexivity.
  - cbn [app List.length] in Hlen, Hdead.
    exists ws. split; [exact Hhd|]. split; [destruct ws; [discriminate | cbn in *; lia]|].
    split; [exact Hall|]. split; [exact Hinit|]. split; [exact Hem|].
    split; [exact Hdead | exact Hfine].
Qed.

(** When [safe_insert_citations] returns, its effects end with the
    successful insert of every page and the successful commit. *)
Lemma safe_insert_citations_returns rows w :
  let r := safe_insert_citations rows w in
  res r = Ret tt ->
  exists before,
    emitted r = before ++
      map (fun p => EvInsertCitations p DbOk) (chunked rows 100) ++ [EvCommit DbOk].
Proof.
  intros r Hret.
  destruct (safe_insert_citations_chain rows w)
    as (ws & Hhd & _ & _ & _ & Hem & Hdead & Hfine).
  fold r in Hem, Hdead, Hfine.
  assert (Hne : ws <> []) by (destruct ws; cbn in Hhd; congruence).
  destruct (deadlocked (citations_body rows (last ws w))) eqn:Hd.
  { destruct (Hdead eq_refl) as (_ & Hr). congruence. }
  destruct (Hfine eq_refl) as (Hr & _). rewrite Hr in Hret.
  destruct (citations_body_run rows (last ws w)) as (Hok & _).
  destruct (Hok Hret) as (Hbody & _).
  destruct (deadlock_joined_split [1; 2; 3]
              (map (fun w' => emitted (citations_body rows w')) ws))
    as (before & Hb & _).
  { destruct ws; [congruence | discriminate]. }
  exists before. rewrite Hem, app_nil_r, Hb.
  rewrite (last_map_nonempty (fun w' => emitted (citations_body rows w')) ws w [] Hne).
  rewrite Hbody. reflexivity.
Qed.

(** C9 (as amended): [safe_insert_citations] makes at most three
    attempts, each of which sends the rows in pages of 100 with
    on-conflict-do-nothing inserts and commits.  An attempt that ends in a
    deadlock is rolled back; after the first the writer sleeps 1 s, after
    the second 2 s, and the deadlock of the third surfaces to the caller
    right after its rollback, so there are two retries and no wait of
    4 s.  When the call returns, the last attempt has inserted and
    committed every row: the table holds its former rows and the new
    ones. *)
Theorem safe_insert_citations_retry rows w :
  let r := safe_insert_citations rows w in
  exists ws : list world,
    hd_error ws = Some w /\
    (1 <= List.length ws <= 3)%nat /\
    Forall (fun w' => w_working w' = w_committed w /\ w_committed w' = w_committed w) (tl ws) /\
    Forall (fun w' => deadlocked (citations_body rows w') = true) (removelast ws) /\
    emitted r =
      deadlock_joined [1; 2; 3] (map (fun w' => emitted (citations_body rows w')) ws) ++
      (if deadlocked (citations_body rows (last ws w)) then [EvRollback] else []) /\
    sleeps (emitted r) = firstn (List.length ws - 1) [1 * second; 2 * second] /\
    (deadlocked (citations_body rows (last ws w)) = true ->
       List.length ws = 3%nat /\ res r = Raise DeadlockDetected) /\
    (deadlocked (citations_body rows (last ws w)) = false ->
       res r = res (citations_body rows (last ws w))) /\
    (res r = Ret tt ->
       let base := citations (w_working (last ws w)) in
       (exists before,
           emitted r = before ++
             map (fun p => EvInsertCitations p DbOk) (chunked rows 100) ++ [EvCommit DbOk]) /\
       citations (w_committed (post r)) = insert_citation_rows rows base /\
       (forall row, In row (citations (w_committed (post r))) <-> In row base \/ In row rows) /\
       (NoDup base -> NoDup (citations (w_committed (post r))))).
Proof.
  intros r.
  destruct (safe_insert_citations_chain rows w)
    as (ws & Hhd & Hlen & Hall & Hinit & Hem & Hdead & Hfine).
  fold r in Hem, Hdead, Hfine.
  assert (Hnosleep : forall w', sleeps (emitted (citations_body rows w')) = []).
  { intros w'. apply write_only_no_sleeps. apply citations_body_write_only. }
  assert (Hflag : sleeps (if deadlocked (citations_body rows (last ws w))
                          then [EvRollback] else []) = []).
  { destruct (deadlocked _); reflexivity. }
  exists ws. split; [exact Hhd|]. split; [exact Hlen|].
  split; [exact Hall|]. split; [exact Hinit|]. split; [exact Hem|].
  split; [|split; [|split]].
  - rewrite Hem, sleeps_app, Hflag, app_nil_r.
    destruct ws as [|w1 [|w2 [|w3 [|w4 ws']]]]; cbn [List.length] in *; try lia.
    + cbn. apply Hnosleep.
    + cbn [map deadlock_joined hd tl]. rewrite sleeps_app. cbn [sleeps].
      rewrite !Hnosleep. reflexivity.
    + cbn [map deadlock_joined hd tl]. rewrite !sleeps_app. cbn [sleeps].
      rewrite sleeps_app. cbn [sleeps]. rewrite !Hnosleep. reflexivity.
  - exact Hdead.
  - intros Hd. apply (Hfine Hd).
  - intros Hret.
    destruct (deadlocked (citations_body rows (last ws w))) eqn:Hd.
    { destruct (Hdead eq_refl) as (_ & Hr). congruence. }
    destruct (Hfine eq_refl) as (Hr & Hp).
    split; [exact (safe_insert_citations_returns rows w Hret)|].
    rewrite Hr in Hret.
    destruct (citations_body_run rows (last ws w)) as (Hok & _).
    destruct (Hok Hret) as (_ & Hcit & _).
    rewrite Hp, Hcit. split; [reflexivity|]. split.
    + apply insert_citation_rows_In.
    + apply insert_citation_rows_NoDup.
Qed.

(** With three deadlocks in a row the call fails: it has slept 1 s and
    2 s, never 4 s, it has made three attempts, that is two retries, and
    the fourth verdict of the database, under which a further retry would
    have succeeded, is never asked for. *)
Lemma safe_insert_citations_counterexample :
  let r := safe_insert_citations [("A", "B")] world_deadlocks in
  res r = Raise DeadlockDetected /\
  sleeps (emitted r) = [1 * second; 2 * second] /\
  ~ In (4 * second) (sleeps (emitted r)) /\
  rollbacks (emitted r) = 3%nat /\
  w_dbscript (post r) = [DbOk].
Proof.
  vm_compute. repeat split. intros [H|[H|[]]]; discriminate.
Qed.

(** ** The dedup oracle (spec 4.1) *)

(** [filter_new_ids] on a non-empty list, case by case. *)
Lemma filter_new_ids_run ids w :
  ids <> [] ->
  let flags := map (bf_exists (w_bf_processed w)) ids in
  let maybe_seen := flagged true ids flags in
  let new_ids := flagged false ids flags in
  let w' := set_dbscript (tl (w_dbscript w)) w in
  let seen := nodup string_dec (filter (fun k => mem_string k maybe_seen) (processed_keys w)) in
  filter_new_ids ids w =
  match maybe_seen with
  | [] => mkRun (Ret new_ids) w [EvBfMExists BLOOM_NAME ids]
  | _ :: _ =>
      match next_db_reply w with
      | DbOk =>
          match seen with
          | [] =>
              mkRun (Raise (wrong_arity "BF.MADD")) w'
                    [EvBfMExists BLOOM_NAME ids; EvSelectProcessed maybe_seen DbOk;
                     EvBfMAdd BLOOM_NAME []]
          | _ :: _ =>
              mkRun (Ret (new_ids ++ filter (fun pid => negb (mem_string pid seen)) maybe_seen))
                    (set_bf_processed (snd (bf_madd_flags (w_bf_processed w) seen)) w')
                    [EvBfMExists BLOOM_NAME ids; EvSelectProcessed maybe_seen DbOk;
                     EvBfMAdd BLOOM_NAME seen]
          end
      | DbDeadlock =>
          mkRun (Raise DeadlockDetected) w'
                [EvBfMExists BLOOM_NAME ids; EvSelectProcessed maybe_seen DbDeadlock]
      | DbFails =>
          mkRun (Raise DatabaseError) w'
                [EvBfMExists BLOOM_NAME ids; EvSelectProcessed maybe_seen DbFails]
      end
  end.
Proof.
  intros Hne flags maybe_seen new_ids w' seen.
  destruct ids as [|id ids]; [congruence|].
  unfold filter_new_ids.
  cbv beta iota zeta delta [BF_MEXISTS bind emit get_world ret].
  change (get_bf BLOOM_NAME w) with (w_bf_processed w).
  fold flags. fold maybe_seen. fold new_ids.
  destruct maybe_seen as [|m ms] eqn:Hms; [reflexivity|].
  cbv beta iota zeta delta [select_processed bind db_exec emit get_world ret].
  destruct (next_db_reply w) eqn:Hreply; try reflexivity.
  cbn [w_working set_dbscript]. fold (processed_keys w). fold w'.
  change (nodup string_dec (filter (fun k => mem_string k (m :: ms)) (processed_keys w)))
    with seen.
  destruct seen as [|s ss] eqn:Hseen; [reflexivity|].
  cbv beta iota zeta delta [BF_MADD bind emit get_world put_world ret].
  change (get_bf BLOOM_NAME w') with (w_bf_processed w).
  destruct (bf_madd_flags (w_bf_processed w) (s :: ss)) as [fl b'] eqn:Hm.
  reflexivity.
Qed.

Lemma mem_string_In k l : mem_string k l = true <-> In k l.
Proof.
  unfold mem_string. rewrite existsb_exists. split.
  - intros (y & Hin & Heq). apply String.eqb_eq in Heq. subst. exact Hin.
  - intros Hin. exists k. split; [exact Hin | apply String.eqb_refl].
Qed.

Lemma flagged_filter want (f : string -> bool) ids :
  flagged want ids (map f ids) = filter (fun k => Bool.eqb (f k) want) ids.
Proof.
  unfold flagged. induction ids as [|id ids IH]; [reflexivity|].
  cbn [map combine filter snd]. destruct (Bool.eqb (f id) want); cbn [map fst]; rewrite IH;
    reflexivity.
Qed.

(** C10: whenever the filter reports some candidates as possibly seen and
    none of those has a row in the processed-papers table, the set [seen]
    is empty, [filter_new_ids] sends [BF.MADD] with no item, and the call
    raises the server's arity error instead of returning the candidates
    as unprocessed.  The witness below shows such an input and state. *)
Theorem filter_new_ids_empty_multi_add ids w :
  ids <> [] ->
  let maybe_seen := flagged true ids (map (bf_exists (w_bf_processed w)) ids) in
  maybe_seen <> [] ->
  (forall k, In k maybe_seen -> ~ In k (processed_keys w)) ->
  next_db_reply w = DbOk ->
  let r := filter_new_ids ids w in
  In (EvBfMAdd BLOOM_NAME []) (emitted r) /\
  res r = Raise (wrong_arity "BF.MADD") /\
  (forall l, res r <> Ret l).
Proof.
  intros Hne maybe_seen Hms Hnone Hdb r. subst r.
  rewrite (filter_new_ids_run ids w Hne). fold maybe_seen.
  destruct maybe_seen as [|m ms] eqn:Heq; [congruence|].
  rewrite Hdb.
  assert (Hseen : nodup string_dec
                    (filter (fun k => mem_string k (m :: ms)) (processed_keys w)) = []).
  { destruct (nodup _ _) as [|s ss] eqn:Hnd; [reflexivity|]. exfalso.
    assert (Hin : In s (s :: ss)) by (left; reflexivity).
    rewrite <- Hnd in Hin. apply nodup_In in Hin. apply filter_In in Hin.
    destruct Hin as (Hkey & Hmem). apply mem_string_In in Hmem.
    exact (Hnone s Hmem Hkey). }
  rewrite Hseen. cbn [res emitted]. repeat split.
  - right. right. left. reflexivity.
  - intros l. discriminate.
Qed.

Lemma filter_new_ids_empty_multi_add_witness :
  exists ids w,
    ids <> [] /\
    flagged true ids (map (bf_exists (w_bf_processed w)) ids) <> [] /\
    (forall k, In k (flagged true ids (map (bf_exists (w_bf_processed w)) ids)) ->
               ~ In k (processed_keys w)) /\
    In (EvBfMAdd BLOOM_NAME []) (emitted (filter_new_ids ids w)) /\
    res (filter_new_ids ids w) = Raise (wrong_arity "BF.MADD").
Proof.
  exists ["P1"], world_false_positive.
  assert (H1 : ["P1"] <> []) by discriminate.
  assert (H2 : flagged true ["P1"]
                 (map (bf_exists (w_bf_processed world_false_positive)) ["P1"]) <> [])
    by (vm_compute; discriminate).
  assert (H3 : forall k,
             In k (flagged true ["P1"]
                     (map (bf_exists (w_bf_processed world_false_positive)) ["P1"])) ->
             ~ In k (processed_keys world_false_positive))
    by (intros k _ []).
  destruct (filter_new_ids_empty_multi_add ["P1"] world_false_positive H1 H2 H3 eq_refl)
    as (Hin & Hres & _).
  repeat split; assumption.
Defined.

(** C2 at its failing input: "P1" has no row in the table, which is
    empty, and the filter, a superset of the table's keys, reports it as
    possibly seen; the call raises instead of returning ["P1"]. *)
Theorem filter_new_ids_false_positive_raises :
  let w := world_false_positive in
  let r := filter_new_ids ["P1"] w in
  processed_keys w = [] /\
  (forall k, In k (processed_keys w) -> bf_exists (w_bf_processed w) k = true) /\
  bf_exists (w_bf_processed w) "P1" = true /\
  res r = Raise (wrong_arity "BF.MADD") /\
  res r <> Ret ["P1"] /\
  emitted r = [EvBfMExists BLOOM_NAME ["P1"]; EvSelectProcessed ["P1"] DbOk;
               EvBfMAdd BLOOM_NAME []].
Proof.
  cbv zeta. split; [reflexivity|]. split; [intros k []|].
  split; [reflexivity|]. split; [reflexivity|]. split; [discriminate | reflexivity].
Qed.

Lemma filter_partition (f t : string -> bool) ids :
  (forall k, t k = true -> f k = true) ->
  Permutation
    (filter (fun k => Bool.eqb (f k) false) ids ++
     filter (fun k => negb (t k)) (filter (fun k => Bool.eqb (f k) true) ids))
    (filter (fun k => negb (t k)) ids).
Proof.
  intros Hsup. induction ids as [|id ids IH]; [constructor|].
  cbn [filter]. destruct (f id) eqn:Hf, (t id) eqn:Ht; cbn [Bool.eqb negb filter app].
  - rewrite Ht. exact IH.
  - rewrite Ht. cbn [negb]. apply Permutation_sym.
    eapply Permutation_trans; [|apply Permutation_middle].
    constructor. apply Permutation_sym. exact IH.
  - apply Hsup in Ht. congruence.
  - constructor. exact IH.
Qed.

(** Apart from that slip [filter_new_ids] is what the specification
    describes: when the filter covers the table's keys and the call
    returns, it returns the candidates without a row in the table, the
    ones the filter does not know first. *)
Lemma filter_new_ids_returns_unprocessed ids w l :
  (forall k, In k (processed_keys w) -> bf_exists (w_bf_processed w) k = true) ->
  res (filter_new_ids ids w) = Ret l ->
  Permutation l (filter (fun k => negb (mem_string k (processed_keys w))) ids).
Proof.
  intros Hsup Hres. destruct ids as [|id ids].
  { cbn in Hres. injection Hres as <-. constructor. }
  rewrite (filter_new_ids_run (id :: ids) w ltac:(discriminate)) in Hres.
  set (all := id :: ids) in *.
  set (f := bf_exists (w_bf_processed w)) in *.
  set (t := fun k => mem_string k (processed_keys w)).
  assert (Hsup' : forall k, t k = true -> f k = true).
  { intros k Hk. apply Hsup. apply mem_string_In. exact Hk. }
  rewrite !flagged_filter in Hres.
  pose proof (filter_partition f t all Hsup') as Hperm.
  destruct (filter (fun k => Bool.eqb (f k) true) all) as [|m ms] eqn:Hms.
  - unfold res in Hres.
    match type of Hres with Ret ?x = _ => assert (Hl : l = x) by congruence end.
    subst l. clear Hres.
    cbn [filter] in Hperm. rewrite app_nil_r in Hperm. exact Hperm.
  - destruct (next_db_reply w); try discriminate.
    destruct (nodup _ _) as [|s ss] eqn:Hseen; [discriminate|].
    unfold res in Hres.
    match type of Hres with Ret ?x = _ => assert (Hl : l = x) by congruence end.
    subst l. clear Hres.
    eapply Permutation_trans; [|exact Hperm].
    apply Permutation_app_head.
    rewrite <- Hseen.
    erewrite filter_ext_in; [apply Permutation_refl|].
    intros k Hk. cbn beta. f_equal. unfold t.
    apply eq_true_iff_eq. rewrite !mem_string_In, nodup_In, filter_In, mem_string_In.
    tauto.
Qed.

(** ** The write ordering of a batch (invariant I3) *)

Lemma emits_only_deadlock_retry allowed n body attempts :
  allowed EvRollback = true -> (forall d, allowed (EvSleep d) = true) ->
  emits_only allowed body ->
  emits_only allowed (deadlock_retry n attempts body).
Proof.
  intros Hrb Hsl Hbody.
  assert (Hs : forall d, emits_only allowed (time_sleep d)).
  { intros d. apply emits_only_time_sleep. apply Hsl. }
  induction attempts as [|a attempts IH]; cbn [deadlock_retry]; [emits|].
  apply emits_only_try_except; [exact Hbody|]. intros e.
  apply emits_only_bind.
  - unfold conn_rollback. apply emits_only_bind; [apply emits_only_emit; exact Hrb|].
    intros _. emits.
  - intros _. emits.
Qed.

Lemma emits_only_weaken {A} (allowed allowed' : event -> bool) (m : M A) :
  (forall ev, allowed ev = true -> allowed' ev = true) ->
  emits_only allowed m -> emits_only allowed' m.
Proof. intros Himp Hm w. eapply Forall_impl; [|apply Hm]. exact Himp. Qed.

Lemma safe_insert_citations_phase rows : emits_only citation_phase (safe_insert_citations rows).
Proof.
  unfold safe_insert_citations. apply emits_only_deadlock_retry; try reflexivity.
  change (run_pages _ _ ;; conn_commit) with (citations_body rows).
  unfold citations_body, conn_commit.
  pose proof (emits_only_run_pages citation_phase insert_citations_stmt (chunked rows 100)) as Hp.
  apply emits_only_bind; [apply Hp; intros page; unfold insert_citations_stmt; emits|].
  intros _. emits.
Qed.

Lemma mark_processed_phase fos_map : emits_only mark_phase (mark_processed fos_map).
Proof.
  unfold mark_processed. destruct fos_map as [|entry fos_map]; [emits|].
  apply emits_only_deadlock_retry; try reflexivity.
  unfold conn_commit.
  pose proof (emits_only_run_pages mark_phase insert_processed_stmt
                (chunked (entry :: fos_map) 100)) as Hp.
  apply emits_only_bind; [apply Hp; intros page; unfold insert_processed_stmt; emits|].
  intros _. apply emits_only_bind; [emits|]. intros _.
  apply emits_only_bind; [apply emits_only_BF_MADD; reflexivity|]. intros _. emits.
Qed.









(** ** The lifecycle controller (spec 4.7) *)

Lemma db_exec_run ev w :
  db_exec ev w =
  mkRun (match next_db_reply w with
         | DbOk => Ret tt
         | DbDeadlock => Raise DeadlockDetected
         | DbFails => Raise DatabaseError
         end)
        (set_dbscript (tl (w_dbscript w)) w)
        [ev (next_db_reply w)].
Proof. unfold db_exec. destruct (next_db_reply w); reflexivity. Qed.

(** The schema bootstrap at the start of [main] (lines 229-234): it
    changes no row and leaves the frontier alone. *)
Lemma schema_bootstrap_run w :
  let r := (init_db ;; conn_commit ;; putconn) w in
  Forall (fun ev => startup_only ev = true) (emitted r) /\
  w_queue (post r) = w_queue w /\
  (w_working w = w_committed w ->
     w_committed (post r) = w_committed w /\ w_working (post r) = w_working w) /\
  (res r = Ret tt \/ exists e, res r = Raise e /\ is_db_error e = true) /\
  (db_accepts 5 w = true -> res r = Ret tt).
Proof.
  intros r.
  assert (Hr : r = (init_db ;; conn_commit ;; putconn) w) by reflexivity. clearbody r.
  split.
  { subst r. revert w. change (emits_only startup_only (init_db ;; conn_commit ;; putconn)).
    unfold init_db, ddl, conn_commit, putconn. emits. }
  cbv beta iota zeta delta [init_db ddl conn_commit putconn bind get_world put_world] in Hr.
  unfold db_accepts. unfold db_exec, next_db_reply in Hr.
  destruct (w_dbscript w) as [|r1 s1] eqn:Hs; cbn [hd tl firstn forallb] in *.
  - cbn in Hr. subst r. cbn. intuition congruence.
  - destruct r1; cbn in Hr.
    2,3: subst r; cbn; split; [reflexivity|]; split; [tauto|];
         split; [right; eexists; split; reflexivity | discriminate].
    destruct s1 as [|r2 s2]; cbn [hd tl firstn forallb] in *.
    { cbn in Hr. subst r. cbn. intuition congruence. }
    destruct r2; cbn in Hr.
    2,3: subst r; cbn; split; [reflexivity|]; split; [tauto|];
         split; [right; eexists; split; reflexivity | discriminate].
    destruct s2 as [|r3 s3]; cbn [hd tl firstn forallb] in *.
    { cbn in Hr. subst r. cbn. intuition congruence. }
    destruct r3; cbn in Hr.
    2,3: subst r; cbn; split; [reflexivity|]; split; [tauto|];
         split; [right; eexists; split; reflexivity | discriminate].
    destruct s3 as [|r4 s4]; cbn [hd tl firstn forallb] in *.
    { cbn in Hr. subst r. cbn. intuition congruence. }
    destruct r4; cbn in Hr.
    2,3: subst r; cbn; split; [reflexivity|]; split; [tauto|];
         split; [right; eexists; split; reflexivity | discriminate].
    destruct s4 as [|r5 s5]; cbn [hd tl firstn forallb] in *.
    { cbn in Hr. subst r. cbn. intuition congruence. }
    destruct r5; cbn in Hr.
    2,3: subst r; cbn; split; [reflexivity|]; split; [tauto|];
         split; [right; eexists; split; reflexivity | discriminate].
    subst r. cbn. intuition congruence.
Qed.

Lemma bind_assoc {A B C} (m : M A) (k : A -> M B) (h : B -> M C) w :
  bind (bind m k) h w = bind m (fun a => bind (k a) h) w.
Proof.
  unfold bind. destruct (m w) as [[a|e] w1 evs1]; [|reflexivity].
  destruct (k a w1) as [[b|e] w2 evs2]; [|reflexivity].
  destruct (h b w2) as [r w3 evs3]. rewrite app_assoc. reflexivity.
Qed.

Lemma bind3_assoc {A B} (m1 m2 m3 : M A) (k : M B) w :
  (m1 ;; m2 ;; m3 ;; k) w = ((m1 ;; m2 ;; m3) ;; k) w.
Proof.
  rewrite !bind_assoc. unfold bind.
  destruct (m1 w) as [[a|e] w1 evs1]; [|reflexivity].
  destruct (m2 w1) as [[b|e] w2 evs2]; [|reflexivity].
  destruct (m3 w2) as [[c|e] w3 evs3]; [|reflexivity].
  destruct (k w3) as [r w4 evs4]. rewrite <- ?app_assoc. reflexivity.
Qed.

(** A start in resume mode on an empty frontier. *)
Lemma main_resume_empty seeds fuel w :
  w_queue w = [] ->
  let r := main seeds false true fuel w in
  Forall (fun ev => startup_only ev = true) (emitted r) /\
  w_queue (post r) = [] /\
  (w_working w = w_committed w ->
     w_committed (post r) = w_committed w /\ w_working (post r) = w_working w) /\
  (res r = Ret Finished \/ exists e, res r = Raise e /\ is_db_error e = true) /\
  (db_accepts 5 w = true -> res r = Ret Finished).
Proof.
  intros Hq r.
  assert (Hr : r = main seeds false true fuel w) by reflexivity. clearbody r.
  unfold main in Hr. unfold bind at 1 in Hr.
  unfold main_startup in Hr. cbv iota in Hr. rewrite bind3_assoc in Hr.
  pose proof (schema_bootstrap_run w) as Hboot. cbv zeta in Hboot.
  unfold bind at 1 in Hr.
  destruct ((init_db ;; conn_commit ;; putconn) w) as [[u|e] w1 evs1].
  - cbn [res post emitted] in Hboot.
    destruct Hboot as (Hev & Hq1 & Hrows & _ & _).
    rewrite Hq in Hq1.
    cbv beta iota zeta delta [bind r_llen emit get_world ret] in Hr.
    rewrite Hq1 in Hr. cbn in Hr. subst r. cbn [res post emitted].
    split; [|split; [exact Hq1 | split; [exact Hrows | split; [left; reflexivity | reflexivity]]]].
    rewrite app_nil_r. apply Forall_app. split; [exact Hev | repeat constructor].
  - cbn [res post emitted] in Hboot.
    destruct Hboot as (Hev & Hq1 & Hrows & Hres & Hacc).
    subst r. cbn [res post emitted].
    rewrite Hq in Hq1.
    split; [exact Hev|]. split; [exact Hq1|]. split; [exact Hrows|].
    split; [|intros Ha; specialize (Hacc Ha); discriminate].
    right. destruct Hres as [Hres | (e' & He' & Hdb)]; [discriminate|].
    injection He' as ->. eauto.
Qed.

(** C6 (as amended): started in resume mode on an empty frontier, the
    worker declares the schema, commits, asks for the length of the
    frontier and returns from [main] without entering the crawl loop: it
    writes no row, neither table changes, and when the database has
    accepted the schema statements the script runs to its end, so the
    process exits with status 0. *)
Theorem resume_with_empty_frontier seeds fuel w :
  w_queue w = [] ->
  let r := script seeds false true fuel w in
  Forall (fun ev => startup_only ev = true) (emitted r) /\
  Forall (fun ev => not_insert ev = true) (emitted r) /\
  (w_working w = w_committed w ->
     w_committed (post r) = w_committed w /\ w_working (post r) = w_working w) /\
  res r <> Ret StillRunning /\
  (db_accepts 5 w = true -> res r = Ret Finished /\ exit_code (res r) = Some 0).
Proof.
  intros Hq r. subst r. unfold script. cbn [xorb].
  destruct (main_resume_empty seeds fuel w Hq) as (Hev & _ & Hrows & Hres & Hacc).
  split; [exact Hev|]. split.
  { eapply Forall_impl; [|exact Hev]. intros ev. destruct ev; cbn; congruence. }
  split; [exact Hrows|]. split.
  - destruct Hres as [-> | (e & -> & _)]; discriminate.
  - intros Ha. rewrite (Hacc Ha). split; reflexivity.
Qed.

Lemma resume_with_empty_frontier_witness :
  w_queue world0 = [] /\
  res (script [] false true 3 world0) = Ret Finished /\
  exit_code (res (script [] false true 3 world0)) = Some 0.
Proof.
  split; [reflexivity|].
  destruct (resume_with_empty_frontier [] 3%nat world0 eq_refl) as (_ & _ & _ & _ & Hexit).
  exact (Hexit eq_refl).
Defined.

(** The exit status of a resume on an empty frontier is 0, not nonzero. *)
Lemma resume_exit_code_counterexample :
  w_queue world0 = [] /\
  exit_code (res (script [] false true 3 world0)) = Some 0 /\
  exit_code (res (script [] false true 3 world0)) <> Some 1.
Proof. vm_compute. repeat split. discriminate. Qed.

Lemma db_exec_accepted n ev w :
  db_accepts (S n) w = true ->
  db_exec ev w = mkRun (Ret tt) (set_dbscript (tl (w_dbscript w)) w) [ev DbOk] /\
  db_accepts n (set_dbscript (tl (w_dbscript w)) w) = true.
Proof.
  unfold db_accepts, db_exec, next_db_reply.
  destruct (w_dbscript w) as [|reply rest]; cbn [firstn forallb hd tl].
  - intros _. split; [reflexivity|]. destruct n; reflexivity.
  - destruct reply; cbn; try discriminate. intros H. split; [reflexivity | exact H].
Qed.

(** A fresh start pushes every seed it is given, as often as it is
    given: the flags that [BF.MADD] returns for the seeds are not
    looked at. *)
Lemma fresh_pushes_every_seed seeds w :
  seeds <> [] ->
  db_accepts 7 w = true ->
  let r := main_startup seeds true false w in
  res r = Ret true /\ w_queue (post r) = map mkEnvelope seeds.
Proof.
  intros Hne Hdb r.
  assert (Hr : r = main_startup seeds true false w) by reflexivity. clearbody r.
  destruct seeds as [|seed seeds]; [congruence|].
  cbv beta iota zeta delta
      [main_startup init_db ddl conn_commit putconn reset_bloom_filters truncate_tables
       r_delete_queue r_delete_bf BF_RESERVE BF_MADD r_rpush
       bind get_world put_world emit ret] in Hr.
  destruct (db_exec_accepted 6 EvDDL w Hdb) as (E1 & Hdb1). rewrite E1 in Hr.
  cbv iota beta in Hr. clear E1 Hdb.
  set (w1 := set_dbscript (tl (w_dbscript w)) w) in *. clearbody w1.
  destruct (db_exec_accepted 5 EvDDL w1 Hdb1) as (E2 & Hdb2). rewrite E2 in Hr.
  cbv iota beta in Hr. clear E2 Hdb1.
  set (w2 := set_dbscript (tl (w_dbscript w1)) w1) in *. clearbody w2.
  destruct (db_exec_accepted 4 EvDDL w2 Hdb2) as (E3 & Hdb3). rewrite E3 in Hr.
  cbv iota beta in Hr. clear E3 Hdb2.
  set (w3 := set_dbscript (tl (w_dbscript w2)) w2) in *. clearbody w3.
  destruct (db_exec_accepted 3 EvDDL w3 Hdb3) as (E4 & Hdb4). rewrite E4 in Hr.
  cbv iota beta in Hr. clear E4 Hdb3.
  set (w4 := set_dbscript (tl (w_dbscript w3)) w3) in *. clearbody w4.
  destruct (db_exec_accepted 2 EvCommit w4 Hdb4) as (E5 & Hdb5). rewrite E5 in Hr.
  cbv iota beta in Hr. clear E5 Hdb4.
  set (w5 := set_dbscript (tl (w_dbscript w4)) w4) in *. clearbody w5.
  match type of Hr with
  | context [db_exec EvTruncate ?wt] =>
      set (w6 := wt) in *;
      assert (Hdb6 : db_accepts 2 w6 = true) by exact Hdb5;
      assert (Hq6 : w_queue w6 = []) by reflexivity
  end.
  clearbody w6. clear Hdb5.
  destruct (db_exec_accepted 1 EvTruncate w6 Hdb6) as (E6 & Hdb7). rewrite E6 in Hr.
  cbv iota beta in Hr. clear E6 Hdb6.
  match type of Hr with
  | context [db_exec EvCommit ?wt] =>
      set (w7 := wt) in *;
      assert (Hdb8 : db_accepts 1 w7 = true) by exact Hdb7;
      assert (Hq7 : w_queue w7 = []) by exact Hq6
  end.
  clearbody w7. clear Hdb7 Hq6.
  destruct (db_exec_accepted 0 EvCommit w7 Hdb8) as (E7 & _). rewrite E7 in Hr.
  cbv iota beta in Hr. clear E7 Hdb8.
  match type of Hr with
  | context [bf_madd_flags ?b ?ks] => destruct (bf_madd_flags b ks) as [flags b']
  end.
  subst r. split; [reflexivity|].
  destruct w7 as [now lat lim http sd dbs com wrk q bfp bfq].
  cbn [w_queue] in Hq7. subst q. reflexivity.
Qed.

(** C8 at its failing input: a fresh start with the seed "P1" given
    twice.  The queued filter reports the second "P1" as already present,
    but the flags are dropped and both copies are pushed: the frontier
    holds "P1" twice. *)
Theorem fresh_duplicate_seed_pushed_twice :
  let r := main_startup ["P1"; "P1"] true false world0 in
  res r = Ret true /\
  w_queue (post r) = [mkEnvelope "P1"; mkEnvelope "P1"] /\
  In (EvRPush [mkEnvelope "P1"; mkEnvelope "P1"]) (emitted r) /\
  fst (bf_madd_flags (mkBloom sample_hashes []) ["P1"; "P1"]) = [true; false] /\
  w_queue (post (script ["P1"; "P1"] true false 0 world0)) =
    [mkEnvelope "P1"; mkEnvelope "P1"] /\
  w_queue (post r) <> [mkEnvelope "P1"].
Proof.
  vm_compute. repeat split; try discriminate.
  repeat match goal with |- _ \/ _ => first [left; reflexivity | right] end.
Qed.

(* ===================================================================== *)
(** * Part IV: further properties of the worker                           *)
(* ===================================================================== *)

(** ** chunked (lines 177-179) *)

Lemma chunked_empty_iff {A} (l : list A) n : (0 < n)%nat -> chunked l n = [] <-> l = [].
Proof.
  intros Hn. split.
  - destruct l as [|x l]; [reflexivity|]. rewrite chunked_cons by exact Hn. discriminate.
  - intros ->. apply chunked_nil. exact Hn.
Qed.

Lemma chunked_lengths {A} n :
  (0 < n)%nat ->
  forall m (l : list A), (List.length l <= m)%nat ->
    Forall (fun c => (1 <= List.length c <= n)%nat) (chunked l n) /\
    Forall (fun c => List.length c = n) (removelast (chunked l n)).
Proof.
  intros Hn. induction m as [|m IH]; intros l Hl.
  - destruct l; [|cbn in Hl; lia]. rewrite chunked_nil by exact Hn. split; constructor.
  - destruct l as [|x l]; [rewrite chunked_nil by exact Hn; split; constructor|].
    rewrite chunked_cons by exact Hn.
    destruct (IH (skipn n (x :: l))) as (IH1 & IH2).
    { rewrite length_skipn. cbn [List.length] in *. lia. }
    split.
    + constructor; [|exact IH1].
      rewrite length_firstn. cbn [List.length]. lia.
    + destruct (chunked (skipn n (x :: l)) n) as [|c cs] eqn:Hrest; [constructor|].
      change (removelast (firstn n (x :: l) :: c :: cs))
        with (firstn n (x :: l) :: removelast (c :: cs)).
      constructor; [|exact IH2].
      rewrite length_firstn.
      assert (Hskip : skipn n (x :: l) <> []).
      { intros Hs. apply (chunked_empty_iff _ n Hn) in Hs. congruence. }
      assert (Hlen : (List.length (skipn n (x :: l)) <> 0)%nat).
      { intros H0. apply Hskip. apply length_zero_iff_nil. exact H0. }
      rewrite length_skipn in Hlen. lia.
Qed.

(** X1: for a positive chunk size, [chunked] cuts a list into consecutive
    pieces: put end to end the chunks give the list back, no chunk is
    empty or longer than the size, and every chunk but the last is full.
    So a batch request never carries more ids than the size it is cut
    to, no id is dropped and none is sent twice. *)
Theorem chunked_partition {A} (it : list A) (size : nat) :
  (0 < size)%nat ->
  List.concat (chunked it size) = it /\
  Forall (fun c => (1 <= List.length c <= size)%nat) (chunked it size) /\
  Forall (fun c => List.length c = size) (removelast (chunked it size)).
Proof.
  intros Hn. split; [apply concat_chunked; exact Hn|].
  apply (chunked_lengths size Hn (List.length it)). lia.
Qed.

Lemma chunked_partition_witness :
  List.concat (chunked ["a"; "b"; "c"; "d"; "e"] 2) = ["a"; "b"; "c"; "d"; "e"] /\
  Forall (fun c => (1 <= List.length c <= 2)%nat) (chunked ["a"; "b"; "c"; "d"; "e"] 2) /\
  Forall (fun c => List.length c = 2%nat) (removelast (chunked ["a"; "b"; "c"; "d"; "e"] 2)).
Proof. apply (chunked_partition ["a"; "b"; "c"; "d"; "e"] 2). lia. Defined.

(** ** The Bloom filters as Redis keeps them *)

Lemma bf_exists_add_same b k : bf_exists (bf_add b k) k = true.
Proof.
  unfold bf_exists, bf_add. cbn [bf_hashes bf_bits].
  apply forallb_forall. intros i Hi. apply existsb_exists.
  exists i. split; [apply in_or_app; right; exact Hi | apply Nat.eqb_refl].
Qed.

Lemma bf_exists_add_mono b k k' :
  bf_exists b k' = true -> bf_exists (bf_add b k) k' = true.
Proof.
  unfold bf_exists, bf_add. cbn [bf_hashes bf_bits].
  rewrite !forallb_forall. intros H i Hi. specialize (H i Hi).
  apply existsb_exists in H. destruct H as (j & Hj & Heq).
  apply existsb_exists. exists j. split; [apply in_or_app; left; exact Hj | exact Heq].
Qed.

(** [BF.MADD] only adds: what the filter reported before it still
    reports, and it reports every key it was given. *)
Lemma bf_madd_mono keys :
  forall b k, bf_exists b k = true -> bf_exists (snd (bf_madd_flags b keys)) k = true.
Proof.
  induction keys as [|key keys IH]; intros b k Hk; [exact Hk|].
  cbn [bf_madd_flags]. specialize (IH (bf_add b key) k (bf_exists_add_mono b key k Hk)).
  destruct (bf_madd_flags (bf_add b key) keys) as [flags b']. exact IH.
Qed.

Lemma bf_madd_member keys :
  forall b k, In k keys -> bf_exists (snd (bf_madd_flags b keys)) k = true.
Proof.
  induction keys as [|key keys IH]; intros b k Hin; [destruct Hin|].
  cbn [bf_madd_flags].
  pose proof (bf_madd_mono keys (bf_add b key) k) as Hmono.
  specialize (IH (bf_add b key) k).
  destruct (bf_madd_flags (bf_add b key) keys) as [flags b']. cbn [snd] in *.
  destruct Hin as [<- | Hin]; [apply Hmono; apply bf_exists_add_same | apply IH; exact Hin].
Qed.

Lemma bf_madd_hashes keys :
  forall b, bf_hashes (snd (bf_madd_flags b keys)) = bf_hashes b.
Proof.
  induction keys as [|key keys IH]; intros b; [reflexivity|].
  cbn [bf_madd_flags]. specialize (IH (bf_add b key)).
  destruct (bf_madd_flags (bf_add b key) keys) as [flags b']. exact IH.
Qed.

Lemma bf_madd_flags_length keys :
  forall b, List.length (fst (bf_madd_flags b keys)) = List.length keys.
Proof.
  induction keys as [|key keys IH]; intros b; [reflexivity|].
  cbn [bf_madd_flags]. specialize (IH (bf_add b key)).
  destruct (bf_madd_flags (bf_add b key) keys) as [flags b']. cbn [fst List.length] in *.
  f_equal. exact IH.
Qed.

(** The keys [BF.MADD] flags as newly added: each was unknown to the
    filter before the command, and none is flagged twice. *)
Lemma bf_madd_newly_added keys :
  forall b,
    let added := flagged true keys (fst (bf_madd_flags b keys)) in
    NoDup added /\
    forall k, In k added -> In k keys /\ bf_exists b k = false.
Proof.
  induction keys as [|key keys IH]; intros b added; subst added.
  - split; [constructor | intros k []].
  - cbn [bf_madd_flags]. specialize (IH (bf_add b key)). cbv zeta in IH.
    destruct (bf_madd_flags (bf_add b key) keys) as [flags b']. cbn [fst] in *.
    destruct IH as (Hnd & Hin).
    assert (Hrest : forall k, In k (flagged true keys flags) ->
                      In k keys /\ bf_exists b k = false /\ k <> key).
    { intros k Hk. destruct (Hin k Hk) as (Hk1 & Hk2). split; [exact Hk1|].
      split.
      - destruct (bf_exists b k) eqn:Hb; [|reflexivity].
        rewrite (bf_exists_add_mono b key k Hb) in Hk2. discriminate.
      - intros ->. rewrite bf_exists_add_same in Hk2. discriminate. }
    unfold flagged in *. cbn [combine filter snd].
    destruct (bf_exists b key) eqn:Hkey; cbn [negb Bool.eqb].
    + split; [exact Hnd|]. intros k Hk. destruct (Hrest k Hk) as (H1 & H2 & _).
      split; [right; exact H1 | exact H2].
    + cbn [map fst]. split.
      * constructor; [|exact Hnd]. intros Hk. destruct (Hrest key Hk) as (_ & _ & Hne).
        congruence.
      * intros k [<- | Hk]; [split; [left; reflexivity | exact Hkey]|].
        destruct (Hrest k Hk) as (H1 & H2 & _). split; [right; exact H1 | exact H2].
Qed.

(** ** Rules for [hoare] *)

Lemma hoare_ret {A} (P : world -> Prop) (a : A) Q R :
  (forall w, P w -> Q a w) -> hoare P (ret a) Q R.
Proof. intros H w Hw. apply H. exact Hw. Qed.

Lemma hoare_raise {A} (P : world -> Prop) e (Q : A -> world -> Prop) (R : exn -> world -> Prop) :
  (forall w, P w -> R e w) -> hoare P (raise e) Q R.
Proof. intros H w Hw. apply H. exact Hw. Qed.

Lemma hoare_bind {A B} (P : world -> Prop) (m : M A) (k : A -> M B) Q' Q R :
  hoare P m Q' R -> (forall a, hoare (Q' a) (k a) Q R) -> hoare P (bind m k) Q R.
Proof.
  intros Hm Hk w Hw. specialize (Hm w Hw). unfold bind.
  destruct (m w) as [[a|e] w1 evs1]; cbn [res post] in *; [|exact Hm].
  specialize (Hk a w1 Hm). destruct (k a w1) as [r w2 evs2]. exact Hk.
Qed.

Lemma hoare_try_except {A} (P : world -> Prop) (m : M A) handles h Q R R' :
  hoare P m Q R' ->
  (forall e, handles e = true -> hoare (R' e) (h e) Q R) ->
  (forall e w, handles e = false -> R' e w -> R e w) ->
  hoare P (try_except m handles h) Q R.
Proof.
  intros Hm Hh Hpass w Hw. specialize (Hm w Hw). unfold try_except.
  destruct (m w) as [[a|e] w1 evs1]; cbn [res post] in *; [exact Hm|].
  destruct (handles e) eqn:He.
  - specialize (Hh e He w1 Hm). destruct (h e w1) as [r w2 evs2]. exact Hh.
  - cbn [res post]. apply Hpass; assumption.
Qed.

Lemma hoare_try_finally {A} (P : world -> Prop) (m : M A) f Q R (S : world -> Prop) Q' R' :
  hoare P m Q R ->
  (forall a w, Q a w -> S w) -> (forall e w, R e w -> S w) ->
  hoare S f (fun _ w => (forall a, Q' a w) /\ (forall e, R' e w)) R' ->
  hoare P (try_finally m f) Q' R'.
Proof.
  intros Hm HQ HR Hf w Hw. specialize (Hm w Hw). unfold try_finally.
  destruct (m w) as [r w1 evs1]; cbn [res post] in *.
  assert (Hs : S w1) by (destruct r; [eapply HQ | eapply HR]; exact Hm).
  specialize (Hf w1 Hs). destruct (f w1) as [[u|e] w2 evs2]; cbn [res post] in *.
  - destruct r; apply Hf.
  - exact Hf.
Qed.

Lemma hoare_weaken {A} (P P' : world -> Prop) (m : M A) (Q Q' : A -> world -> Prop)
      (R R' : exn -> world -> Prop) :
  hoare P m Q R ->
  (forall w, P' w -> P w) -> (forall a w, Q a w -> Q' a w) -> (forall e w, R e w -> R' e w) ->
  hoare P' m Q' R'.
Proof.
  intros Hm HP HQ HR w Hw. specialize (Hm w (HP w Hw)).
  destruct (res (m w)); [apply HQ | apply HR]; exact Hm.
Qed.

Lemma keeps_ret {A} P (a : A) : keeps P (ret a).
Proof. intros w Hw. exact Hw. Qed.

Lemma keeps_raise {A} P e : keeps P (@raise A e).
Proof. intros w Hw. exact Hw. Qed.

Lemma keeps_bind {A B} P (m : M A) (k : A -> M B) :
  keeps P m -> (forall a, keeps P (k a)) -> keeps P (bind m k).
Proof. intros Hm Hk. eapply hoare_bind; [exact Hm|]. intros a. apply Hk. Qed.

Lemma keeps_try_except {A} P (m : M A) handles h :
  keeps P m -> (forall e, keeps P (h e)) -> keeps P (try_except m handles h).
Proof.
  intros Hm Hh. eapply hoare_try_except with (R' := fun _ => P); [exact Hm | |].
  - intros e _. apply Hh.
  - intros e w _ Hw. exact Hw.
Qed.

Lemma keeps_post {A} P (m : M A) w : keeps P m -> P w -> P (post (m w)).
Proof. intros Hm Hw. specialize (Hm w Hw). destruct (res (m w)); exact Hm. Qed.

(** *** What the HTTP side keeps: everything that looks at the stores only *)

Section HttpKeeps.

Variable P : world -> Prop.
Hypothesis P_store_only : store_only P.

Lemma keeps_time_time : keeps P time_time.
Proof.
  intros w Hw. unfold time_time. destruct (w_latency w); cbn [res post];
    (eapply P_store_only; [|exact Hw]); reflexivity.
Qed.

Lemma keeps_time_sleep d : keeps P (time_sleep d).
Proof.
  intros w Hw. unfold time_sleep. destruct (d <? 0); cbn [res post]; [exact Hw|].
  eapply P_store_only; [|exact Hw]. reflexivity.
Qed.

Lemma keeps_shutdown_is_set : keeps P shutdown_is_set.
Proof.
  intros w Hw. unfold shutdown_is_set. destruct (w_shutdown w) as [[|n]|]; cbn [res post];
    try exact Hw.
  eapply P_store_only; [|exact Hw]. reflexivity.
Qed.

Lemma keeps_sess_request rq : keeps P (sess_request rq).
Proof.
  intros w Hw. unfold sess_request. destruct (next_http_reply w); cbn [res post];
    (eapply P_store_only; [|exact Hw]); reflexivity.
Qed.

Lemma keeps_acquire : keeps P RateLimiter_acquire.
Proof.
  intros w Hw.
  assert (Hp : P (post (RateLimiter_acquire w))).
  { eapply P_store_only; [|exact Hw]. unfold store.
    destruct (acquire_frame w) as (_ & _ & H1 & H2 & H3 & H4 & H5 & H6).
    rewrite H1, H2, H3, H4, H5, H6. reflexivity. }
  destruct (res (RateLimiter_acquire w)); exact Hp.
Qed.

End HttpKeeps.

(** Breaks a goal [keeps P m] down along the structure of [m]. *)
Ltac keeps_step :=
  match goal with
  | |- keeps _ (bind _ _) => apply keeps_bind; [|intros ?]
  | |- keeps _ (ret _) => apply keeps_ret
  | |- keeps _ (raise _) => apply keeps_raise
  | |- keeps _ (try_except _ _ _) => apply keeps_try_except; [|intros ?]
  | |- keeps _ (match ?x with _ => _ end) => destruct x
  | H : _ |- _ => solve [apply H]
  end.

Ltac keeps_all := repeat keeps_step.

Section HttpKeeps2.

Variable P : world -> Prop.
Hypothesis P_store_only : store_only P.

Lemma keeps_send_request_once method url kw : keeps P (send_request_once method url kw).
Proof.
  pose proof (keeps_acquire P P_store_only).
  pose proof (keeps_sess_request P P_store_only).
  pose proof (keeps_time_sleep P P_store_only).
  unfold send_request_once, raise_for_status. keeps_all.
Qed.

Lemma keeps_tenacity_retry {A} (f : M A) left :
  keeps P f -> forall attempt, keeps P (tenacity_retry left attempt f).
Proof.
  intros Hf. pose proof (keeps_time_sleep P P_store_only).
  induction left as [|left IH]; intros attempt; cbn [tenacity_retry]; keeps_all.
Qed.

Lemma keeps_send_request method url kw : keeps P (send_request method url kw).
Proof. apply keeps_tenacity_retry. apply keeps_send_request_once. Qed.

Lemma keeps_fetch_pages_loop fuel :
  forall pid total offset rows, keeps P (fetch_pages_loop fuel pid total offset rows).
Proof.
  pose proof (keeps_shutdown_is_set P P_store_only).
  pose proof keeps_send_request.
  induction fuel as [|fuel IH]; intros pid total offset rows; cbn [fetch_pages_loop];
    unfold fetch_page; keeps_all.
Qed.

Lemma keeps_fetch_pages pid start total : keeps P (fetch_pages pid start total).
Proof. unfold fetch_pages. pose proof keeps_fetch_pages_loop. keeps_all. Qed.

Lemma keeps_process_record rec st : keeps P (process_record rec st).
Proof. unfold process_record. pose proof keeps_fetch_pages. keeps_all. Qed.

Lemma keeps_process_records recs : forall st, keeps P (process_records recs st).
Proof.
  pose proof keeps_process_record.
  induction recs as [|rec recs IH]; intros st; cbn [process_records]; keeps_all.
Qed.

Lemma keeps_process_chunks chunks : forall st, keeps P (process_chunks chunks st).
Proof.
  pose proof (keeps_shutdown_is_set P P_store_only).
  pose proof keeps_send_request. pose proof keeps_process_records.
  induction chunks as [|chunk chunks IH]; intros st; cbn [process_chunks];
    unfold fetch_chunk; keeps_all.
Qed.

End HttpKeeps2.

(** ** RateLimiter for any number of calls and any period (lines 67-83) *)



(** X3: a limiter that allows no call at all does not block: its first
    [acquire] finds the deque empty and "full" at once, so [self.calls[0]]
    raises [IndexError]; nothing is slept and no admission is recorded. *)
Theorem RateLimiter_no_calls_raises (w : world) :
  max_calls (w_limiter w) <= 0 ->
  calls (w_limiter w) = [] ->
  let r := RateLimiter_acquire w in
  res r = Raise IndexError /\ emitted r = [] /\ w_limiter (post r) = w_limiter w.
Proof.
  intros HK Hcalls r. subst r.
  unfold RateLimiter_acquire, bind.
  destruct (time_time_run w) as (l & rest & ->). cbn [get_world].
  cbn [w_limiter set_now set_latency]. rewrite Hcalls. cbn [evict List.length].
  destruct (Z.geb_spec (Z.of_nat 0) (max_calls (w_limiter w))) as [_|Hlt]; [|cbn in Hlt; lia].
  cbn. auto.
Qed.

Lemma RateLimiter_no_calls_raises_witness :
  res (RateLimiter_acquire world_no_calls) = Raise IndexError /\
  emitted (RateLimiter_acquire world_no_calls) = [] /\
  w_limiter (post (RateLimiter_acquire world_no_calls)) = w_limiter world_no_calls.
Proof.
  apply (RateLimiter_no_calls_raises world_no_calls).
  - cbn. lia.
  - reflexivity.
Defined.

(** ** The fetch phase of a batch (lines 280-317, 189-222) *)

Lemma store_eq_store_only s : store_only (fun w => store w = s).
Proof. intros w w' Heq Hw. congruence. Qed.

(** X4: the fetch phase works on the API alone.  However they end,
    [send_request], [fetch_pages] and the whole loop over the chunks of a
    batch leave the two tables, the open transaction, the frontier and
    both filters exactly as they found them, and send no statement to the
    database. *)
Theorem fetch_phase_keeps_stores (w : world) :
  (forall method url kw, store (post (send_request method url kw w)) = store w) /\
  (forall pid start total, store (post (fetch_pages pid start total w)) = store w) /\
  (forall chunks st, store (post (process_chunks chunks st w)) = store w).
Proof.
  pose proof (store_eq_store_only (store w)) as Hso.
  split; [|split].
  - intros method url kw.
    exact (keeps_post _ _ w (keeps_send_request _ Hso method url kw) eq_refl).
  - intros pid start total.
    exact (keeps_post _ _ w (keeps_fetch_pages _ Hso pid start total) eq_refl).
  - intros chunks st.
    exact (keeps_post _ _ w (keeps_process_chunks _ Hso chunks st) eq_refl).
Qed.

Lemma hoare_any {A} (P : world -> Prop) (m : M A) :
  hoare P m (fun _ _ => True) (fun _ _ => True).
Proof. intros w _. destruct (res (m w)); exact I. Qed.

Lemma truthy_id_nonempty o s : truthy_id o = Some s -> s <> "".
Proof.
  destruct o as [s'|]; cbn; [|discriminate].
  destruct (String.eqb_spec s' ""); [discriminate|]. intros H. injection H as <-. assumption.
Qed.

Lemma edges_of_In pid entries a b :
  In (a, b) (edges_of pid entries) <->
  a = pid /\ b <> "" /\ In (mkRef (Some b)) entries.
Proof.
  induction entries as [|[rid] entries IH]; cbn [edges_of ref_paperId].
  - cbn. tauto.
  - destruct (truthy_id rid) as [s|] eqn:Hrid.
    + pose proof (truthy_id_nonempty _ _ Hrid) as Hne.
      assert (Hs : rid = Some s).
      { destruct rid as [s'|]; cbn in Hrid; [|discriminate].
        destruct (String.eqb s' ""); [discriminate|]. congruence. }
      subst rid. cbn [In]. rewrite IH. split.
      * intros [H | (H1 & H2 & H3)]; [injection H as <- <-; auto | auto].
      * intros (H1 & H2 & [H3 | H3]); [left; injection H3 as <-; subst; reflexivity | auto].
    + cbn [In]. rewrite IH. split; [intros (H1 & H2 & H3); auto|].
      intros (H1 & H2 & [H3 | H3]); [|auto].
      injection H3 as ->. cbn in Hrid.
      destruct (String.eqb_spec b ""); [contradiction | discriminate].
Qed.

Lemma edges_of_ok pid entries :
  Forall (fun row => fst row = pid /\ snd row <> "") (edges_of pid entries).
Proof.
  apply Forall_forall. intros [a b] Hin. apply edges_of_In in Hin. cbn. tauto.
Qed.

Lemma fetch_pages_loop_rows fuel :
  forall pid total o rows,
    Forall (fun row => fst row = pid /\ snd row <> "") rows ->
    hoare (fun _ => True) (fetch_pages_loop fuel pid total o rows)
          (fun rows' _ => Forall (fun row => fst row = pid /\ snd row <> "") rows')
          (fun _ _ => True).
Proof.
  induction fuel as [|fuel IH]; intros pid total o rows Hrows; cbn [fetch_pages_loop];
    (destruct ((o <? total) && (o <=? MAX_OFFSET)); [|apply hoare_ret; auto]).
  - apply hoare_ret; auto.
  - eapply hoare_bind; [apply hoare_any | intros stop].
    destruct stop; [apply hoare_ret; auto|].
    eapply hoare_bind; [apply hoare_any | intros got].
    assert (Hrows' : forall entries,
               Forall (fun row => fst row = pid /\ snd row <> "") (rows ++ edges_of pid entries)).
    { intros entries. apply Forall_app. split; [exact Hrows | apply edges_of_ok]. }
    destruct got as [resp|]; [|apply hoare_ret; auto].
    destruct (resp_body resp) as [items|data nxt|]; try (apply hoare_raise; auto).
    destruct data as [[|entry entries]|]; try (apply hoare_ret; auto).
    destruct (int_of_next nxt) as [n|]; [|apply hoare_ret; auto].
    destruct ((n <=? o) || (n >? MAX_OFFSET)); [apply hoare_ret; auto|].
    eapply hoare_weaken; [apply IH; apply Hrows' | auto..].
Qed.

Lemma fetch_pages_rows_hoare pid start total :
  hoare (fun _ => True) (fetch_pages pid start total)
        (fun r _ => fst r = pid /\ Forall (fun row => fst row = pid /\ snd row <> "") (snd r))
        (fun _ _ => True).
Proof.
  unfold fetch_pages. eapply hoare_bind; [apply fetch_pages_loop_rows; constructor|].
  intros rows. apply hoare_ret. cbn. auto.
Qed.

(** X5: whatever the API answers, the rows [fetch_pages] returns are
    edges of the paper it was called for: the first component of the
    result and the citing id of every row are [pid], and no cited id is
    empty (entries whose [paperId] is null or empty are dropped). *)
Theorem fetch_pages_rows pid start total w p rows :
  res (fetch_pages pid start total w) = Ret (p, rows) ->
  p = pid /\ Forall (fun row => fst row = pid /\ snd row <> "") rows.
Proof.
  intros Hres. pose proof (fetch_pages_rows_hoare pid start total w I) as H.
  rewrite Hres in H. exact H.
Qed.

Lemma fetch_pages_rows_witness :
  Forall (fun row => fst row = "P1" /\ snd row <> "") [("P1", "R1"); ("P1", "R2")].
Proof.
  apply (fetch_pages_rows "P1" 99 250 world_pages "P1" [("P1", "R1"); ("P1", "R2")]).
  vm_compute. reflexivity.
Defined.

(** *** What a batch collects *)

Lemma dict_set_keys {V} k (v : V) d a :
  In a (dict_keys (dict_set k v d)) <-> a = k \/ In a (dict_keys d).
Proof.
  unfold dict_keys. induction d as [|[k' v'] d IH]; cbn [dict_set map fst In].
  - intuition congruence.
  - destruct (String.eqb_spec k k') as [->|Hne]; cbn [map fst In].
    + intuition congruence.
    + rewrite IH. intuition congruence.
Qed.

Lemma collected_ok_step (st : collected) pid (v : list string) rows :
  collected_ok st -> pid <> "" ->
  Forall (fun row => fst row = pid /\ snd row <> "") rows ->
  collected_ok (dict_set pid v (fst st), snd st ++ rows).
Proof.
  intros Hst Hpid Hrows a b Hin. cbn [fst snd] in *.
  apply in_app_or in Hin. rewrite dict_set_keys. destruct Hin as [Hin | Hin].
  - destruct (Hst a b Hin) as (H1 & H2 & H3). auto.
  - rewrite Forall_forall in Hrows. destruct (Hrows _ Hin) as (H1 & H2). cbn in H1, H2.
    subst a. auto.
Qed.

Lemma process_record_collects rec st :
  collected_ok st ->
  hoare (fun _ => True) (process_record rec st) (fun st' _ => collected_ok st') (fun _ _ => True).
Proof.
  intros Hst. unfold process_record.
  destruct rec as [| |paperId referenceCount references fieldsOfStudy];
    try (apply hoare_ret; auto).
  destruct (truthy_id paperId) as [pid|] eqn:Hpid; [|apply hoare_ret; auto].
  pose proof (truthy_id_nonempty _ _ Hpid) as Hne.
  assert (Hbase : collected_ok (dict_set pid (or_default fieldsOfStudy []) (fst st),
                                snd st ++ edges_of pid (or_default references []))).
  { apply collected_ok_step; [exact Hst | exact Hne | apply edges_of_ok]. }
  destruct (_ && _); [|apply hoare_ret; auto].
  eapply hoare_try_except with (R' := fun _ _ => True).
  - eapply hoare_bind; [apply fetch_pages_rows_hoare|].
    intros r. apply hoare_ret. intros w (_ & Hrows).
    rewrite <- app_assoc.
    apply collected_ok_step; [exact Hst | exact Hne|].
    apply Forall_app. split; [apply edges_of_ok | exact Hrows].
  - intros e _. apply hoare_ret. auto.
  - auto.
Qed.

Lemma process_records_collects recs :
  forall st, collected_ok st ->
    hoare (fun _ => True) (process_records recs st) (fun st' _ => collected_ok st')
          (fun _ _ => True).
Proof.
  induction recs as [|rec recs IH]; intros st Hst; cbn [process_records].
  - apply hoare_ret; auto.
  - eapply hoare_bind; [apply process_record_collects; exact Hst|].
    intros st'. intros w Hst'. apply (IH st' Hst' w I).
Qed.

Lemma process_chunks_collects chunks :
  forall st, collected_ok st ->
    hoare (fun _ => True) (process_chunks chunks st)
          (fun got _ => match got with Some st' => collected_ok st' | None => True end)
          (fun _ _ => True).
Proof.
  induction chunks as [|chunk chunks IH]; intros st Hst; cbn [process_chunks].
  - apply hoare_ret; auto.
  - eapply hoare_bind; [apply hoare_any | intros stop].
    destruct stop; [apply hoare_ret; auto|].
    eapply hoare_bind; [apply hoare_any | intros got].
    destruct got as [resp|]; [|apply IH; exact Hst].
    destruct (resp_body resp) as [data|? ?|]; try (apply IH; exact Hst).
    eapply hoare_bind; [apply process_records_collects; exact Hst|].
    intros st'. intros w Hst'. apply (IH st' Hst' w I).
Qed.

(** X6: what the fetch phase of a batch hands to the writers is
    consistent: every edge it collected starts at a paper that is a key
    of [fos_map], so that it will be marked as processed by the same
    batch, and neither end of an edge is the empty id. *)
Theorem process_chunks_edges_of_marked_papers chunks w st :
  res (process_chunks chunks ([], []) w) = Ret (Some st) ->
  forall a b, In (a, b) (snd st) -> In a (dict_keys (fst st)) /\ a <> "" /\ b <> "".
Proof.
  intros Hres.
  assert (H0 : collected_ok ([], [])) by (intros a b []).
  pose proof (process_chunks_collects chunks ([], []) H0 w I) as H.
  rewrite Hres in H. exact H.
Qed.

Lemma process_chunks_edges_of_marked_papers_witness :
  res (process_chunks [["P1"]] ([], []) world_batch_reply) =
    Ret (Some ([("P1", [])], [("P1", "R1")])) /\
  In "P1" (dict_keys [("P1", @nil string)]) /\ "P1" <> "" /\ "R1" <> "".
Proof.
  split; [vm_compute; reflexivity|].
  apply (process_chunks_edges_of_marked_papers [["P1"]] world_batch_reply
           ([("P1", [])], [("P1", "R1")])).
  - vm_compute. reflexivity.
  - left. reflexivity.
Defined.

(** *** The requests of the fetch phase *)

Lemma http_calls_In rq reply evs :
  In (rq, reply) (http_calls evs) <-> In (EvHttp rq reply) evs.
Proof.
  induction evs as [|ev evs IH]; [reflexivity|].
  destruct ev; cbn [http_calls In]; rewrite IH; intuition congruence.
Qed.

Section FetchPhaseRequests.

Variable chunks : list (list string).

Let allowed := fetch_phase_ok chunks.

Lemma emits_only_send_request_to method url kw :
  (forall reply, allowed (EvHttp (mkRequest method url REQUEST_TIMEOUT kw) reply) = true) ->
  emits_only allowed (send_request method url kw).
Proof.
  intros Hrq. unfold send_request.
  assert (Hsl : forall d, allowed (EvSleep d) = true) by reflexivity.
  apply emits_only_tenacity_retry; [exact Hsl|].
  unfold send_request_once, raise_for_status.
  pose proof (emits_only_sleep allowed Hsl).
  pose proof (emits_only_acquire allowed Hsl).
  pose proof (emits_only_sess_request allowed _ Hrq).
  emits.
Qed.

Lemma fetch_phase_pages_loop fuel :
  forall pid total o rows, emits_only allowed (fetch_pages_loop fuel pid total o rows).
Proof.
  assert (Hget : forall pid o,
             emits_only allowed (send_request "GET" (references_url pid)
                                   (KwParams (mkParams "paperId" REF_PAGE_LIMIT o)))).
  { intros pid o. apply emits_only_send_request_to. reflexivity. }
  induction fuel as [|fuel IH]; intros pid total o rows; cbn [fetch_pages_loop];
    unfold fetch_page; emits.
Qed.

Lemma fetch_phase_process_records recs :
  forall st, emits_only allowed (process_records recs st).
Proof.
  pose proof fetch_phase_pages_loop.
  induction recs as [|rec recs IH]; intros st; cbn [process_records];
    unfold process_record, fetch_pages; emits.
Qed.

Lemma fetch_phase_process_chunks some :
  incl some chunks -> forall st, emits_only allowed (process_chunks some st).
Proof.
  pose proof fetch_phase_process_records.
  induction some as [|chunk some IH]; intros Hincl st; cbn [process_chunks]; [emits|].
  assert (Hpost : emits_only allowed (send_request "POST" batch_url (KwJson chunk))).
  { apply emits_only_send_request_to. intros reply.
    unfold allowed, fetch_phase_ok. cbn [rq_kwargs rq_method rq_url rq_timeout].
    rewrite !String.eqb_refl, Z.eqb_refl.
    destruct (in_dec (list_eq_dec string_dec) chunk chunks) as [_|Hn]; [reflexivity|].
    exfalso. apply Hn. apply Hincl. left. reflexivity. }
  assert (IH' : forall st, emits_only allowed (process_chunks some st)).
  { apply IH. intros c Hc. apply Hincl. right. exact Hc. }
  unfold fetch_chunk. emits.
Qed.

End FetchPhaseRequests.

(** X7: the requests of the fetch phase of a batch.  Every request that
    carries ids is a POST to the batch endpoint, with the 30 s timeout,
    whose ids are one of the chunks the ids to fetch were cut into, so
    between 1 and 100 ids ([API_BATCH_LIMIT]); every other request is a
    GET of a references page of size 99.  Nothing else but sleeping
    happens in the phase. *)
Theorem fetch_phase_requests to_fetch st w :
  let chunks := chunked to_fetch (Z.to_nat API_BATCH_LIMIT) in
  let evs := emitted (process_chunks chunks st w) in
  Forall (fun ev => http_only ev = true) evs /\
  forall rq reply, In (rq, reply) (http_calls evs) ->
    match rq_kwargs rq with
    | KwJson ids =>
        rq = mkRequest "POST" batch_url REQUEST_TIMEOUT (KwJson ids) /\
        In ids chunks /\ (1 <= List.length ids <= 100)%nat
    | KwParams p => rq_method rq = "GET" /\ p_limit p = 99
    end.
Proof.
  intros chunks evs.
  pose proof (fetch_phase_process_chunks chunks chunks (incl_refl _) st w) as Hall.
  fold evs in Hall. split.
  - eapply Forall_impl; [|exact Hall]. intros ev. destruct ev; cbn; congruence.
  - intros rq reply Hin. apply http_calls_In in Hin.
    rewrite Forall_forall in Hall. specialize (Hall _ Hin).
    unfold fetch_phase_ok in Hall. destruct rq as [method url timeout kw].
    cbn [rq_kwargs rq_method rq_url rq_timeout] in *.
    destruct kw as [p|ids].
    + apply andb_true_iff in Hall. destruct Hall as (Hm & Hl).
      apply String.eqb_eq in Hm. apply Z.eqb_eq in Hl. auto.
    + destruct (in_dec (list_eq_dec string_dec) ids chunks) as [Hc|]; [|rewrite andb_false_r in Hall; discriminate].
      rewrite andb_true_r in Hall. apply andb_true_iff in Hall. destruct Hall as (Hall & Ht).
      apply andb_true_iff in Hall. destruct Hall as (Hm & Hu).
      apply String.eqb_eq in Hm, Hu. apply Z.eqb_eq in Ht. subst.
      split; [reflexivity|]. split; [exact Hc|].
      destruct (chunked_lengths (A := string) 100 ltac:(lia) (List.length to_fetch) to_fetch
                  ltac:(lia)) as (Hlen & _).
      rewrite Forall_forall in Hlen. exact (Hlen ids Hc).
Qed.

(** ** The two writers as transactions (lines 126-160) *)

Section DeadlockRetryHoare.

Variables (n : Z) (body : M unit).
Variables (P : world -> Prop) (Q : unit -> world -> Prop) (R' R : exn -> world -> Prop).

Hypothesis body_ok : hoare P body Q R'.
Hypothesis retry_ok :
  forall w t, R' DeadlockDetected w -> P (set_now t (set_working (w_committed w) w)).
Hypothesis final_ok :
  forall w, R' DeadlockDetected w -> R DeadlockDetected (set_working (w_committed w) w).
Hypothesis pass_ok : forall e w, is_DeadlockDetected e = false -> R' e w -> R e w.

(** The retry loop of the writers: what holds after an attempt that
    raised holds, rolled back, before the next attempt and when the last
    deadlock surfaces. *)
Lemma deadlock_retry_hoare pre :
  ~ In n pre -> hoare P (deadlock_retry n (pre ++ [n]) body) Q R.
Proof.
  induction pre as [|a pre IH]; intros Hn w Hw.
  - cbn [app deadlock_retry]. unfold try_except.
    specialize (body_ok w Hw).
    destruct (body w) as [[u|e] w1 evs1]; cbn [res post] in *; [exact body_ok|].
    destruct (is_DeadlockDetected e) eqn:He.
    + apply is_DeadlockDetected_eq in He. subst e.
      unfold bind. rewrite conn_rollback_run. rewrite Z.eqb_refl. cbn.
      apply final_ok. exact body_ok.
    + cbn. apply pass_ok; assumption.
  - assert (Han : a <> n) by (intros ->; apply Hn; left; reflexivity).
    assert (Hn' : ~ In n pre) by (intros Hin; apply Hn; right; exact Hin).
    cbn [app deadlock_retry]. unfold try_except.
    specialize (body_ok w Hw).
    destruct (body w) as [[u|e] w1 evs1]; cbn [res post] in *; [exact body_ok|].
    destruct (is_DeadlockDetected e) eqn:He.
    + apply is_DeadlockDetected_eq in He. subst e.
      unfold bind. rewrite conn_rollback_run.
      apply Z.eqb_neq in Han. rewrite Han.
      rewrite time_sleep_run by apply backoff_nonneg.
      set (w2 := set_now _ _).
      assert (Hw2 : P w2) by (apply retry_ok; exact body_ok).
      specialize (IH Hn' w2 Hw2).
      destruct (deadlock_retry n (pre ++ [n]) body w2) as [r2 w3 evs2].
      exact IH.
    + cbn. apply pass_ok; assumption.
Qed.

End DeadlockRetryHoare.

(** *** What the database statements leave alone *)

Section DbFrame.

Variables (X : Type) (f : world -> X).
Hypothesis f_now : forall t w, f (set_now t w) = f w.
Hypothesis f_dbscript : forall s w, f (set_dbscript s w) = f w.
Hypothesis f_working : forall d w, f (set_working d w) = f w.
Hypothesis f_committed : forall d w, f (set_committed d w) = f w.

Variable x : X.

Let P := fun w => f w = x.

Lemma frame_db_exec ev : keeps P (db_exec ev).
Proof.
  intros w Hw. rewrite db_exec_run. cbn [res post].
  assert (H : P (set_dbscript (tl (w_dbscript w)) w)) by (unfold P; rewrite f_dbscript; exact Hw).
  destruct (next_db_reply w); exact H.
Qed.

Lemma frame_insert_citations_stmt page : keeps P (insert_citations_stmt page).
Proof.
  intros w Hw. rewrite insert_citations_stmt_run. unfold P in *.
  destruct (next_db_reply w); cbn [res post]; rewrite ?f_working, f_dbscript; exact Hw.
Qed.

Lemma frame_insert_processed_stmt page : keeps P (insert_processed_stmt page).
Proof.
  intros w Hw. rewrite insert_processed_stmt_run. unfold P in *.
  destruct (next_db_reply w); cbn [res post]; rewrite ?f_working, f_dbscript; exact Hw.
Qed.

Lemma frame_conn_commit : keeps P conn_commit.
Proof.
  intros w Hw. rewrite conn_commit_run. unfold P in *.
  destruct (next_db_reply w); cbn [res post]; rewrite ?f_committed, f_dbscript; exact Hw.
Qed.

Lemma frame_conn_rollback : keeps P conn_rollback.
Proof. intros w Hw. rewrite conn_rollback_run. cbn [res post]. unfold P. rewrite f_working. exact Hw. Qed.

Lemma frame_putconn : keeps P putconn.
Proof. intros w Hw. cbn. unfold P. rewrite f_working. exact Hw. Qed.

Lemma frame_select_processed ids : keeps P (select_processed ids).
Proof.
  intros w Hw. unfold select_processed, bind. rewrite db_exec_run.
  assert (H : P (set_dbscript (tl (w_dbscript w)) w)) by (unfold P; rewrite f_dbscript; exact Hw).
  destruct (next_db_reply w); cbn; exact H.
Qed.

Lemma frame_time_sleep d : keeps P (time_sleep d).
Proof.
  intros w Hw. unfold time_sleep. destruct (d <? 0); cbn [res post]; [exact Hw|].
  unfold P. rewrite f_now. exact Hw.
Qed.

Lemma frame_run_pages {A} (stmt : list A -> M unit) pages :
  (forall page, keeps P (stmt page)) -> keeps P (run_pages stmt pages).
Proof. intros Hs. induction pages as [|page pages IH]; cbn [run_pages]; keeps_all. Qed.

Lemma frame_deadlock_retry n attempts body :
  keeps P body -> keeps P (deadlock_retry n attempts body).
Proof.
  intros Hb. pose proof frame_conn_rollback. pose proof frame_time_sleep.
  induction attempts as [|a attempts IH]; cbn [deadlock_retry]; keeps_all.
Qed.

Lemma frame_safe_insert_citations rows : keeps P (safe_insert_citations rows).
Proof.
  unfold safe_insert_citations. apply frame_deadlock_retry.
  pose proof frame_conn_commit.
  pose proof (frame_run_pages insert_citations_stmt (chunked rows 100)
                frame_insert_citations_stmt).
  keeps_all.
Qed.

End DbFrame.

Lemma insert_citation_rows_absorb rows :
  forall table, incl rows table -> insert_citation_rows rows table = table.
Proof.
  unfold insert_citation_rows.
  induction rows as [|r rows IH]; intros table Hincl; cbn [fold_left]; [reflexivity|].
  assert (Hr : mem_edge r table = true) by (apply mem_edge_In; apply Hincl; left; reflexivity).
  rewrite Hr. apply IH. intros y Hy. apply Hincl. right. exact Hy.
Qed.

Lemma insert_citation_rows_idempotent rows table :
  insert_citation_rows rows (insert_citation_rows rows table) = insert_citation_rows rows table.
Proof.
  apply insert_citation_rows_absorb. intros r Hr.
  apply insert_citation_rows_In. right. exact Hr.
Qed.

Lemma insert_citation_rows_prefix rows :
  forall table, exists added, insert_citation_rows rows table = table ++ added.
Proof.
  unfold insert_citation_rows.
  induction rows as [|r rows IH]; intros table; cbn [fold_left].
  - exists []. rewrite app_nil_r. reflexivity.
  - destruct (mem_edge r table); [apply IH|].
    destruct (IH (table ++ [r])) as (added & ->). exists (r :: added).
    rewrite <- app_assoc. reflexivity.
Qed.

(** The citation writer as a transaction, started with no transaction
    open. *)
Lemma safe_insert_citations_hoare rows c :
  hoare (fun w => w_working w = c /\ w_committed w = c)
        (safe_insert_citations rows)
        (fun _ w => citations (w_committed w) = insert_citation_rows rows (citations c) /\
                    processed_papers (w_committed w) = processed_papers c /\
                    w_working w = w_committed w)
        (fun e w => w_committed w = c /\ (e = DeadlockDetected -> w_working w = c)).
Proof.
  unfold safe_insert_citations.
  change (run_pages _ _ ;; conn_commit) with (citations_body rows).
  change MAX_INSERT_RETRIES with 3. rewrite attempts_upto_3.
  apply deadlock_retry_hoare with (R' := fun _ w => w_committed w = c).
  - intros w (Hw & Hc).
    destruct (citations_body_run rows w) as (Hok & Hfail).
    destruct (res (citations_body rows w)) as [[]|e] eqn:Hres.
    + destruct (Hok eq_refl) as (_ & H1 & H2 & H3). rewrite H1, H2, Hw. auto.
    + rewrite Hfail by discriminate. exact Hc.
  - intros w t Hc. cbn. rewrite Hc. auto.
  - intros w Hc. cbn. rewrite Hc. auto.
  - intros e w He Hc. split; [exact Hc|]. intros ->. discriminate.
  - cbn. intros [H|[H|[]]]; discriminate.
Qed.

(** X8: [safe_insert_citations] is all or nothing.  Called with no
    transaction open, it either returns, and then the committed citations
    are the former ones, in their order, followed by the new rows, once
    each, and no transaction is left open; or it raises, and then the
    committed rows are exactly the former ones (after a final deadlock
    the open transaction is rolled back as well).  In both cases the
    processed-papers table, the frontier and both filters are as
    before. *)
Theorem safe_insert_citations_all_or_nothing rows w :
  settled w ->
  let r := safe_insert_citations rows w in
  (res r = Ret tt ->
     citations (w_committed (post r)) = insert_citation_rows rows (citations (w_committed w)) /\
     (exists added, citations (w_committed (post r)) = citations (w_committed w) ++ added) /\
     (forall row, In row (citations (w_committed (post r))) <->
                  In row (citations (w_committed w)) \/ In row rows) /\
     settled (post r)) /\
  (forall e, res r = Raise e ->
     w_committed (post r) = w_committed w /\
     (e = DeadlockDetected -> settled (post r))) /\
  processed_papers (w_committed (post r)) = processed_papers (w_committed w) /\
  redis (post r) = redis w.
Proof.
  intros Hs r.
  pose proof (safe_insert_citations_hoare rows (w_committed w) w (conj Hs eq_refl)) as H.
  assert (Hredis : redis (post r) = redis w).
  { apply (keeps_post (fun w' => redis w' = redis w)); [|reflexivity].
    apply (frame_safe_insert_citations _ redis); reflexivity. }
  fold r in H. destruct (res r) as [[]|e] eqn:Hres.
  - destruct H as (H1 & H2 & H3). split; [|split; [discriminate | auto]].
    intros _. split; [exact H1|]. split; [rewrite H1; apply insert_citation_rows_prefix|].
    split; [intros row; rewrite H1; apply insert_citation_rows_In | exact H3].
  - destruct H as (H1 & H2). split; [discriminate|]. split; [|rewrite H1; auto].
    intros e' He'. injection He' as <-. split; [exact H1|].
    intros He. unfold settled. rewrite H1. apply H2. exact He.
Qed.

Lemma safe_insert_citations_all_or_nothing_witness :
  settled world_db_fails /\
  res (safe_insert_citations [("A", "B")] world_db_fails) = Ret tt /\
  citations (w_committed (post (safe_insert_citations [("A", "B")] world_db_fails))) =
    [("A", "B")].
Proof.
  split; [reflexivity|].
  destruct (safe_insert_citations_all_or_nothing [("A", "B")] world_db_fails eq_refl)
    as (Hok & _).
  split; [reflexivity|].
  destruct (Hok eq_refl) as (H & _). exact H.
Defined.

(** X9: writing the same citations again changes nothing.  When two
    calls of [safe_insert_citations] with the same rows both return, the
    second leaves the committed citations exactly as the first left them,
    whatever deadlocks were retried on the way: this is what makes
    re-fetching a paper after a crash harmless. *)
Theorem safe_insert_citations_idempotent rows w :
  settled w ->
  let r1 := safe_insert_citations rows w in
  res r1 = Ret tt ->
  forall latency script,
    let r2 := safe_insert_citations rows (set_latency latency (set_dbscript script (post r1))) in
    res r2 = Ret tt ->
    w_committed (post r2) = w_committed (post r1).
Proof.
  intros Hs r1 Hres1 latency script r2 Hres2.
  pose proof (safe_insert_citations_hoare rows (w_committed w) w (conj Hs eq_refl)) as H1.
  fold r1 in H1. rewrite Hres1 in H1. destruct H1 as (Hc1 & Hp1 & Hs1).
  set (w1 := set_latency latency (set_dbscript script (post r1))) in *.
  pose proof (safe_insert_citations_hoare rows (w_committed (post r1)) w1 (conj Hs1 eq_refl)) as H2.
  fold r2 in H2. rewrite Hres2 in H2. destruct H2 as (Hc2 & Hp2 & _).
  rewrite Hc1, insert_citation_rows_idempotent, <- Hc1 in Hc2.
  destruct (w_committed (post r2)) as [p2 c2], (w_committed (post r1)) as [p1' c1'].
  cbn in *. congruence.
Qed.

Lemma safe_insert_citations_idempotent_witness :
  w_committed (post (safe_insert_citations [("A", "B"); ("A", "C")]
                       (set_latency [] (set_dbscript [DbDeadlock]
                          (post (safe_insert_citations [("A", "B"); ("A", "C")] world0)))))) =
  w_committed (post (safe_insert_citations [("A", "B"); ("A", "C")] world0)).
Proof.
  apply (safe_insert_citations_idempotent [("A", "B"); ("A", "C")] world0 eq_refl eq_refl
           [] [DbDeadlock]).
  reflexivity.
Defined.

(** *** mark_processed *)

Lemma insert_processed_rows_keys rows :
  forall table k,
    In k (map fst (insert_processed_rows rows table)) <-> In k (map fst table) \/ In k (map fst rows).
Proof.
  unfold insert_processed_rows.
  induction rows as [|r rows IH]; intros table k; cbn [fold_left map].
  - cbn. tauto.
  - rewrite IH. destruct (mem_string (fst r) (map fst table)) eqn:Hm.
    + apply mem_string_In in Hm. cbn [In]. split; [tauto|].
      intros [H|[<-|H]]; auto.
    + rewrite map_app, in_app_iff. cbn. tauto.
Qed.

Lemma insert_processed_rows_prefix rows :
  forall table, exists added, insert_processed_rows rows table = table ++ added.
Proof.
  unfold insert_processed_rows.
  induction rows as [|r rows IH]; intros table; cbn [fold_left].
  - exists []. rewrite app_nil_r. reflexivity.
  - destruct (mem_string (fst r) (map fst table)); [apply IH|].
    destruct (IH (table ++ [r])) as (added & ->). exists (r :: added).
    rewrite <- app_assoc. reflexivity.
Qed.

(** One attempt of [mark_processed], as a change of state. *)
Lemma processed_body_state fos_map w :
  fos_map <> [] ->
  let r := processed_body fos_map w in
  (res r = Ret tt ->
     processed_papers (w_committed (post r)) =
       insert_processed_rows fos_map (processed_papers (w_working w)) /\
     citations (w_committed (post r)) = citations (w_working w) /\
     w_working (post r) = w_committed (post r) /\
     w_bf_processed (post r) = snd (bf_madd_flags (w_bf_processed w) (dict_keys fos_map))) /\
  (res r <> Ret tt ->
     w_committed (post r) = w_committed w /\ w_bf_processed (post r) = w_bf_processed w).
Proof.
  intros Hne r.
  assert (Hr : r = processed_body fos_map w) by reflexivity. clearbody r.
  pose proof (run_pages_processed (chunked fos_map 100) w) as Hp. cbv zeta in Hp.
  unfold processed_body in Hr. cbv beta iota zeta delta [bind] in Hr.
  destruct (run_pages insert_processed_stmt (chunked fos_map 100) w) as [[u|e] w1 evs1].
  - cbn [res post emitted] in *. destruct Hp as (Hc & Hbf & Hok). destruct u.
    destruct (Hok eq_refl) as (_ & Hproc & Hcit).
    rewrite concat_chunked in Hproc by lia.
    rewrite conn_commit_run in Hr.
    destruct (next_db_reply w1).
    + destruct fos_map as [|entry fos_map]; [congruence|].
      cbv beta iota zeta delta [BF_MADD bind emit get_world put_world ret dict_keys] in Hr.
      cbn [map] in Hr.
      change (get_bf BLOOM_NAME (set_committed (w_working w1)
                (set_dbscript (tl (w_dbscript w1)) w1))) with (w_bf_processed w1) in Hr.
      rewrite Hbf in Hr.
      destruct (bf_madd_flags (w_bf_processed w) (fst entry :: map fst fos_map))
        as [fl b'] eqn:Hm.
      subst r. cbn [res post]. split; [|congruence]. intros _.
      unfold dict_keys. cbn [map]. rewrite Hm. cbn. auto.
    + subst r. cbn [res post]. split; [discriminate|]. intros _. auto.
    + subst r. cbn [res post]. split; [discriminate|]. intros _. auto.
  - subst r. cbn [res post emitted] in *. destruct Hp as (Hc & Hbf & _).
    split; [discriminate|]. intros _. auto.
Qed.

Lemma mark_processed_hoare fos_map c b :
  fos_map <> [] ->
  hoare (fun w => w_working w = c /\ w_committed w = c /\ w_bf_processed w = b)
        (mark_processed fos_map)
        (fun _ w => processed_papers (w_committed w) =
                      insert_processed_rows fos_map (processed_papers c) /\
                    citations (w_committed w) = citations c /\
                    w_working w = w_committed w /\
                    w_bf_processed w = snd (bf_madd_flags b (dict_keys fos_map)))
        (fun e w => w_committed w = c /\ w_bf_processed w = b /\
                    (e = DeadlockDetected -> w_working w = c)).
Proof.
  intros Hne. unfold mark_processed. destruct fos_map as [|entry fos_map]; [congruence|].
  set (fos := entry :: fos_map).
  change (run_pages _ _ ;; conn_commit ;; BF_MADD _ _ ;; ret tt) with (processed_body fos).
  change MAX_MARK_RETRIES with 3. rewrite attempts_upto_3.
  apply deadlock_retry_hoare
    with (R' := fun _ w => w_committed w = c /\ w_bf_processed w = b).
  - intros w (Hw & Hc & Hb).
    destruct (processed_body_state fos w ltac:(discriminate)) as (Hok & Hfail).
    destruct (res (processed_body fos w)) as [[]|e] eqn:Hres.
    + destruct (Hok eq_refl) as (H1 & H2 & H3 & H4). rewrite H1, H2, H4, Hw, Hb. auto.
    + destruct (Hfail ltac:(discriminate)) as (H1 & H2). rewrite H1, H2. auto.
  - intros w t (Hc & Hb). cbn. rewrite Hc. auto.
  - intros w (Hc & Hb). cbn. rewrite Hc. auto.
  - intros e w He (Hc & Hb). split; [exact Hc|]. split; [exact Hb|]. intros ->. discriminate.
  - cbn. intros [H|[H|[]]]; discriminate.
Qed.

(** X10: [mark_processed] is all or nothing, and the filter follows the
    table.  Called with no transaction open and a non-empty [fos_map], it
    either returns, and then every key of [fos_map] has a committed row
    and is reported by the processed filter, rows that existed before
    keep their place and their fields of study (the first write wins),
    and no transaction is left open; or it raises, and then neither the
    committed rows nor the filter have changed.  The citations are never
    touched. *)
Theorem mark_processed_all_or_nothing fos_map w :
  fos_map <> [] ->
  settled w ->
  let r := mark_processed fos_map w in
  (res r = Ret tt ->
     (forall k, In k (dict_keys fos_map) ->
        In k (map fst (processed_papers (w_committed (post r)))) /\
        bf_exists (w_bf_processed (post r)) k = true) /\
     (forall k, In k (map fst (processed_papers (w_committed (post r)))) <->
        In k (map fst (processed_papers (w_committed w))) \/ In k (dict_keys fos_map)) /\
     (exists added,
        processed_papers (w_committed (post r)) = processed_papers (w_committed w) ++ added) /\
     (forall k, bf_exists (w_bf_processed w) k = true ->
        bf_exists (w_bf_processed (post r)) k = true) /\
     settled (post r)) /\
  (forall e, res r = Raise e ->
     w_committed (post r) = w_committed w /\
     w_bf_processed (post r) = w_bf_processed w /\
     (e = DeadlockDetected -> settled (post r))) /\
  citations (w_committed (post r)) = citations (w_committed w).
Proof.
  intros Hne Hs r.
  pose proof (mark_processed_hoare fos_map (w_committed w) (w_bf_processed w) Hne w
                (conj Hs (conj eq_refl eq_refl))) as H.
  fold r in H. destruct (res r) as [[]|e] eqn:Hres.
  - destruct H as (H1 & H2 & H3 & H4). split; [|split; [discriminate | exact H2]].
    intros _. split; [|split; [|split; [|split]]].
    + intros k Hk. split.
      * rewrite H1. apply insert_processed_rows_keys. right. exact Hk.
      * rewrite H4. apply bf_madd_member. exact Hk.
    + intros k. rewrite H1. apply insert_processed_rows_keys.
    + rewrite H1. apply insert_processed_rows_prefix.
    + intros k Hk. rewrite H4. apply bf_madd_mono. exact Hk.
    + exact H3.
  - destruct H as (H1 & H2 & H3). split; [discriminate|]. split; [|rewrite H1; reflexivity].
    intros e' He'. injection He' as <-. split; [exact H1|]. split; [exact H2|].
    intros He. unfold settled. rewrite H1. apply H3. exact He.
Qed.

Lemma mark_processed_all_or_nothing_witness :
  In "P1" (map fst (processed_papers
                      (w_committed (post (mark_processed [("P1", ["Physics"])] world_one_deadlock))))) /\
  bf_exists (w_bf_processed (post (mark_processed [("P1", ["Physics"])] world_one_deadlock)))
            "P1" = true.
Proof.
  destruct (mark_processed_all_or_nothing [("P1", ["Physics"])] world_one_deadlock
              ltac:(discriminate) eq_refl) as (Hok & _).
  destruct (Hok eq_refl) as (Hkeys & _).
  apply Hkeys. left. reflexivity.
Defined.

(** X11: [mark_processed] retries like the citation writer.  With a
    non-empty [fos_map] it makes between one and three attempts; every
    attempt but the last ended in a deadlock and was rolled back; it
    sleeps 1 s after the first deadlock and 2 s after the second; the
    deadlock of a third attempt surfaces after its rollback, without a
    further sleep, and any other outcome of an attempt is the outcome of
    the call. *)
Theorem mark_processed_retry fos_map w :
  fos_map <> [] ->
  let r := mark_processed fos_map w in
  exists ws : list world,
    hd_error ws = Some w /\
    (1 <= List.length ws <= 3)%nat /\
    Forall (fun w' => deadlocked (processed_body fos_map w') = true) (removelast ws) /\
    sleeps (emitted r) = firstn (List.length ws - 1) [1 * second; 2 * second] /\
    rollbacks (emitted r) =
      (List.length ws - 1 + if deadlocked (processed_body fos_map (last ws w)) then 1 else 0)%nat /\
    (deadlocked (processed_body fos_map (last ws w)) = true ->
       List.length ws = 3%nat /\ res r = Raise DeadlockDetected) /\
    (deadlocked (processed_body fos_map (last ws w)) = false ->
       res r = res (processed_body fos_map (last ws w)) /\
       post r = post (processed_body fos_map (last ws w))).
Proof.
  intros Hne r. subst r. unfold mark_processed.
  destruct fos_map as [|entry fos_map]; [congruence|].
  set (fos := entry :: fos_map).
  change (run_pages _ _ ;; conn_commit ;; BF_MADD _ _ ;; ret tt) with (processed_body fos).
  change MAX_MARK_RETRIES with 3. rewrite attempts_upto_3.
  destruct (deadlock_retry_attempts 3 (processed_body fos) w (fun _ => True))
    with (pre := [1; 2]) (w := w)
    as (ws & Hhd & Hlen & _ & Hinit & Hem & Hdead & Hfine).
  - intros; exact I.
  - cbn. intros [H|[H|[]]]; discriminate.
  - left. reflexivity.
  - set (r := deadlock_retry 3 ([1; 2] ++ [3]) (processed_body fos) w) in *.
    cbn [app List.length] in Hlen, Hdead.
    assert (Hne' : ws <> []) by (destruct ws; cbn in Hhd; congruence).
    assert (Hlen1 : (1 <= List.length ws <= 3)%nat)
      by (destruct ws; [congruence | cbn in *; lia]).
    clear Hlen.
    assert (Hnosleep : forall w', sleeps (emitted (processed_body fos w')) = []).
    { intros w'. apply write_only_no_sleeps. apply processed_body_write_only. }
    assert (Hnorb : forall w', rollbacks (emitted (processed_body fos w')) = 0%nat).
    { intros w'. pose proof (processed_body_write_only fos w') as Hwo.
      induction Hwo as [|ev evs Hev _ IH]; [reflexivity|].
      destruct ev; cbn in *; try discriminate; exact IH. }
    assert (Hrb_app : forall e1 e2, rollbacks (e1 ++ e2) = (rollbacks e1 + rollbacks e2)%nat).
    { intros e1 e2. induction e1 as [|ev e1 IH]; [reflexivity|].
      destruct ev; cbn; rewrite ?IH; reflexivity. }
    exists ws. split; [exact Hhd|].
    split; [exact Hlen1|].
    split; [exact Hinit|].
    split; [|split; [|split; [exact Hdead | exact Hfine]]].
    + rewrite Hem, sleeps_app.
      assert (Hflag : sleeps (if deadlocked (processed_body fos (last ws w))
                              then [EvRollback] else []) = [])
        by (destruct (deadlocked _); reflexivity).
      rewrite Hflag, app_nil_r.
      destruct ws as [|w1 [|w2 [|w3 [|w4 ws']]]]; cbn [List.length] in *; try lia.
      * cbn. apply Hnosleep.
      * cbn [app map deadlock_joined hd tl]. rewrite sleeps_app. cbn [sleeps].
        rewrite !Hnosleep. reflexivity.
      * cbn [app map deadlock_joined hd tl]. rewrite !sleeps_app. cbn [sleeps].
        rewrite sleeps_app. cbn [sleeps]. rewrite !Hnosleep. reflexivity.
    + rewrite Hem, Hrb_app.
      assert (Hflag : rollbacks (if deadlocked (processed_body fos (last ws w))
                                 then [EvRollback] else []) =
                      if deadlocked (processed_body fos (last ws w)) then 1%nat else 0%nat)
        by (destruct (deadlocked _); reflexivity).
      rewrite Hflag. f_equal.
      destruct ws as [|w1 [|w2 [|w3 [|w4 ws']]]]; cbn [List.length] in *; try lia.
      * cbn. apply Hnorb.
      * cbn [app map deadlock_joined hd tl]. rewrite Hrb_app. cbn [rollbacks].
        rewrite !Hnorb. reflexivity.
      * cbn [app map deadlock_joined hd tl]. rewrite !Hrb_app. cbn [rollbacks].
        rewrite Hrb_app. cbn [rollbacks]. rewrite !Hnorb. reflexivity.
Qed.

Lemma mark_processed_retry_witness :
  exists ws : list world,
    hd_error ws = Some world_deadlocks /\
    sleeps (emitted (mark_processed [("P1", [])] world_deadlocks)) =
      firstn (List.length ws - 1) [1 * second; 2 * second].
Proof.
  destruct (mark_processed_retry [("P1", [])] world_deadlocks ltac:(discriminate))
    as (ws & Hhd & _ & _ & Hsl & _).
  exists ws. split; [exact Hhd | exact Hsl].
Defined.

(** ** What a batch writes (lines 319-320) *)

(** X12: when the two writes of a batch return, everything the batch
    collected is committed: every edge is a row of the citations table,
    every key of [fos_map] has a row in the processed-papers table and is
    reported by the processed filter, and no transaction is left open.
    For what the fetch phase collects, this means that the citing paper
    of every edge written is marked as processed by the same batch. *)
Theorem write_batch_commits (st : collected) w :
  settled w ->
  let r := write_batch st w in
  res r = Ret tt ->
  (forall row, In row (snd st) -> In row (citations (w_committed (post r)))) /\
  (forall k, In k (dict_keys (fst st)) ->
     In k (map fst (processed_papers (w_committed (post r)))) /\
     bf_exists (w_bf_processed (post r)) k = true) /\
  (collected_ok st ->
     forall a b, In (a, b) (snd st) ->
       In (a, b) (citations (w_committed (post r))) /\
       In a (map fst (processed_papers (w_committed (post r))))) /\
  settled (post r).
Proof.
  intros Hs r Hres. subst r. unfold write_batch, bind in *.
  pose proof (safe_insert_citations_hoare (snd st) (w_committed w) w (conj Hs eq_refl)) as H1.
  destruct (safe_insert_citations (snd st) w) as [[[]|e] w1 evs1]; [|discriminate].
  cbn [res post] in H1. destruct H1 as (Hc1 & Hp1 & Hs1).
  assert (Hrows1 : forall row, In row (snd st) -> In row (citations (w_committed w1))).
  { intros row Hrow. rewrite Hc1. apply insert_citation_rows_In. right. exact Hrow. }
  assert (Hgoal :
            (forall row, In row (snd st) ->
               In row (citations (w_committed (post (mark_processed (fst st) w1))))) /\
            (forall k, In k (dict_keys (fst st)) ->
               In k (map fst (processed_papers (w_committed (post (mark_processed (fst st) w1))))) /\
               bf_exists (w_bf_processed (post (mark_processed (fst st) w1))) k = true) /\
            settled (post (mark_processed (fst st) w1))).
  { destruct (fst st) as [|entry fos] eqn:Hfos.
    - cbn. split; [exact Hrows1|]. split; [intros k []| exact Hs1].
    - pose proof (mark_processed_hoare (entry :: fos) (w_committed w1) (w_bf_processed w1)
                    ltac:(discriminate) w1 (conj Hs1 (conj eq_refl eq_refl))) as H2.
      destruct (mark_processed (entry :: fos) w1) as [[[]|e] w2 evs2]; [|discriminate].
      cbn [res post] in *. destruct H2 as (Hp2 & Hc2 & Hs2 & Hb2).
      split; [intros row Hrow; rewrite Hc2; apply Hrows1; exact Hrow|].
      split; [|exact Hs2].
      intros k Hk. split.
      + rewrite Hp2. apply insert_processed_rows_keys. right. exact Hk.
      + rewrite Hb2. apply bf_madd_member. exact Hk. }
  destruct (mark_processed (fst st) w1) as [[[]|e] w2 evs2]; [|discriminate].
  cbn [res post] in *. destruct Hgoal as (G1 & G2 & G3).
  split; [exact G1|]. split; [exact G2|]. split; [|exact G3].
  intros Hok a b Hin. split; [apply G1; exact Hin|].
  apply G2. apply (Hok a b Hin).
Qed.

Lemma write_batch_commits_witness :
  In ("P1", "R1") (citations (w_committed
                      (post (write_batch ([("P1", [])], [("P1", "R1")]) world_one_deadlock)))) /\
  In "P1" (map fst (processed_papers (w_committed
                      (post (write_batch ([("P1", [])], [("P1", "R1")]) world_one_deadlock))))).
Proof.
  destruct (write_batch_commits ([("P1", [])], [("P1", "R1")]) world_one_deadlock
              eq_refl eq_refl) as (_ & _ & Hok & _).
  apply Hok.
  - intros a b [H|[]]. injection H as <- <-. cbn. repeat split; auto; discriminate.
  - left. reflexivity.
Defined.

(** ** The processed filter covers the table *)

Lemma batch_inv_mono w w' :
  batch_inv w ->
  w_working w' = w_working w -> w_committed w' = w_committed w ->
  (forall k, bf_exists (w_bf_processed w) k = true -> bf_exists (w_bf_processed w') k = true) ->
  batch_inv w'.
Proof.
  intros (Hs & Hc) Hw Hcm Hbf. split.
  - unfold settled in *. congruence.
  - intros k Hk. apply Hbf. apply Hc. rewrite <- Hcm. exact Hk.
Qed.

Lemma batch_inv_store_only : store_only batch_inv.
Proof.
  intros w w' Heq Hw. unfold store in Heq. injection Heq as _ Hc Hwk _ Hb _.
  apply (batch_inv_mono w); congruence.
Qed.

Lemma keeps_hoare {A} (P : world -> Prop) (R : world -> Prop) (m : M A) :
  keeps P m -> (forall w, P w -> R w) -> hoare P m (fun _ => P) (fun _ => R).
Proof. intros Hm HR. eapply hoare_weaken; [exact Hm | auto..]. Qed.

Lemma keeps_filter_new_ids_inv ids : keeps batch_inv (filter_new_ids ids).
Proof.
  intros w Hw. destruct ids as [|id ids]; [exact Hw|].
  rewrite filter_new_ids_run by discriminate. cbv zeta.
  destruct (flagged true _ _) as [|m ms]; [exact Hw|].
  destruct (next_db_reply w); [destruct (nodup _ _) as [|s ss]|..]; cbn [res post];
    apply (batch_inv_mono w); auto.
  intros k. apply bf_madd_mono.
Qed.

Lemma BF_MADD_queued_run keys w :
  keys <> [] ->
  BF_MADD QUEUE_BLOOM_NAME keys w =
  mkRun (Ret (fst (bf_madd_flags (w_bf_queued w) keys)))
        (set_bf_queued (snd (bf_madd_flags (w_bf_queued w) keys)) w)
        [EvBfMAdd QUEUE_BLOOM_NAME keys].
Proof.
  intros Hne. destruct keys as [|k keys]; [congruence|].
  cbv beta iota zeta delta [BF_MADD bind emit get_world put_world ret].
  change (get_bf QUEUE_BLOOM_NAME w) with (w_bf_queued w).
  destruct (bf_madd_flags (w_bf_queued w) (k :: keys)) as [fl b']. reflexivity.
Qed.

Lemma r_rpush_run entries w :
  entries <> [] ->
  r_rpush entries w = mkRun (Ret tt) (set_queue (w_queue w ++ entries) w) [EvRPush entries].
Proof. intros Hne. destruct entries; [congruence | reflexivity]. Qed.

Lemma keeps_enqueue_cited_inv ref_rows : keeps batch_inv (enqueue_cited ref_rows).
Proof.
  unfold enqueue_cited. apply keeps_bind; [apply keeps_filter_new_ids_inv|].
  intros new_ids. destruct new_ids as [|n ns]; [apply keeps_ret|].
  intros w Hw. unfold bind. rewrite BF_MADD_queued_run by discriminate.
  set (w1 := set_bf_queued _ w).
  assert (Hw1 : batch_inv w1) by (apply (batch_inv_mono w); auto).
  destruct (flagged true _ _) as [|t ts]; [exact Hw1|].
  rewrite r_rpush_run by discriminate. cbn [res post].
  apply (batch_inv_mono w); auto.
Qed.

Lemma keeps_conn_commit_inv : keeps batch_inv conn_commit.
Proof.
  intros w Hw. rewrite conn_commit_run.
  destruct (next_db_reply w); cbn [res post].
  - destruct Hw as (Hs & Hc). split; [reflexivity|].
    intros k Hk. apply Hc. cbn in Hk. rewrite Hs in Hk. exact Hk.
  - apply (batch_inv_mono w); auto.
  - apply (batch_inv_mono w); auto.
Qed.

Lemma keeps_r_llen_inv : keeps batch_inv r_llen.
Proof. intros w Hw. exact Hw. Qed.

Lemma write_batch_inv st :
  hoare batch_inv (write_batch st) (fun _ => batch_inv) (fun _ => filter_covers_table).
Proof.
  unfold write_batch. eapply hoare_bind with (Q' := fun _ => batch_inv).
  - intros w (Hs & Hc).
    pose proof (safe_insert_citations_hoare (snd st) (w_committed w) w (conj Hs eq_refl)) as H.
    assert (Hredis : redis (post (safe_insert_citations (snd st) w)) = redis w).
    { apply (keeps_post (fun w' => redis w' = redis w)); [|reflexivity].
      apply (frame_safe_insert_citations _ redis); reflexivity. }
    unfold redis in Hredis. injection Hredis as _ Hb _.
    destruct (res (safe_insert_citations (snd st) w)) as [[]|e].
    + destruct H as (_ & Hp & Hs1). split; [exact Hs1|].
      intros k Hk. unfold filter_covers_table. rewrite Hb. apply Hc. rewrite <- Hp. exact Hk.
    + destruct H as (Hcm & _). intros k Hk. rewrite Hb. apply Hc. rewrite <- Hcm. exact Hk.
  - intros ?. destruct (fst st) as [|entry fos].
    + apply hoare_ret. auto.
    + intros w (Hs & Hc).
      pose proof (mark_processed_hoare (entry :: fos) (w_committed w) (w_bf_processed w)
                    ltac:(discriminate) w (conj Hs (conj eq_refl eq_refl))) as H.
      destruct (res (mark_processed (entry :: fos) w)) as [[]|e].
      * destruct H as (Hp & _ & Hs1 & Hb). split; [exact Hs1|].
        intros k Hk. unfold filter_covers_table in *. rewrite Hb. rewrite Hp in Hk.
        apply insert_processed_rows_keys in Hk. destruct Hk as [Hk | Hk].
        -- apply bf_madd_mono. apply Hc. exact Hk.
        -- apply bf_madd_member. exact Hk.
      * destruct H as (Hcm & Hb & _). intros k Hk. rewrite Hb. apply Hc.
        rewrite <- Hcm. exact Hk.
Qed.

Lemma batch_body_inv pids batch_count :
  hoare batch_inv (batch_body pids batch_count) (fun _ => batch_inv)
        (fun _ => filter_covers_table).
Proof.
  assert (Himp : forall w, batch_inv w -> filter_covers_table w) by (intros w H; apply H).
  unfold batch_body.
  eapply hoare_bind; [apply keeps_hoare; [apply keeps_filter_new_ids_inv | exact Himp]|].
  intros to_fetch. destruct to_fetch as [|t ts]; [apply hoare_ret; auto|].
  eapply hoare_bind;
    [apply keeps_hoare; [apply keeps_process_chunks; apply batch_inv_store_only | exact Himp]|].
  intros got. destruct got as [st|]; [|apply hoare_ret; auto].
  eapply hoare_bind; [apply write_batch_inv|]. intros ?.
  eapply hoare_bind; [apply keeps_hoare; [apply keeps_enqueue_cited_inv | exact Himp]|].
  intros ?.
  eapply hoare_bind with (Q' := fun _ => batch_inv).
  { destruct (_ =? 0); [apply keeps_hoare; [apply keeps_conn_commit_inv | exact Himp]|].
    apply hoare_ret. auto. }
  intros ?.
  eapply hoare_bind;
    [apply keeps_hoare; [apply keeps_time_time; apply batch_inv_store_only | exact Himp]|].
  intros ?.
  eapply hoare_bind; [apply keeps_hoare; [apply keeps_r_llen_inv | exact Himp]|].
  intros ?. apply hoare_ret. auto.
Qed.

Lemma guarded_batch_inv pids batch_count :
  keeps batch_inv (try_finally (batch_body pids batch_count) putconn).
Proof.
  eapply hoare_try_finally with (S := filter_covers_table).
  - apply batch_body_inv.
  - intros c w H. apply H.
  - intros e w H. exact H.
  - intros w Hc. cbn.
    assert (H : batch_inv (set_working (w_committed w) w)) by (split; [reflexivity | exact Hc]).
    split; intros _; exact H.
Qed.

Lemma set_queue_same w : set_queue (w_queue w) w = w.
Proof. destruct w; reflexivity. Qed.

Lemma skipn_nil_any {A} n : skipn n (@nil A) = [].
Proof. destruct n; reflexivity. Qed.

Lemma firstn_nil_any {A} n : firstn n (@nil A) = [].
Proof. destruct n; reflexivity. Qed.

Lemma lpop_many_run n :
  forall w,
    exists items,
      lpop_many n w =
      mkRun (Ret items) (set_queue (skipn n (w_queue w)) w) (repeat EvLPop n) /\
      present items = firstn n (w_queue w) /\
      List.length items = n.
Proof.
  induction n as [|n IH]; intros w.
  - exists []. cbn. rewrite set_queue_same. auto.
  - cbn [lpop_many]. cbv beta iota zeta delta [bind r_lpop emit get_world put_world ret].
    destruct (w_queue w) as [|e rest] eqn:Hq.
    + destruct (IH w) as (items & Hrun & Hpres & Hlen). rewrite Hrun.
      rewrite Hq, ?skipn_nil_any, ?firstn_nil_any in *.
      exists (None :: items). cbn. rewrite Hpres, Hlen, app_nil_r. auto.
    + destruct (IH (set_queue rest w)) as (items & Hrun & Hpres & Hlen).
      rewrite Hrun. cbn [w_queue set_queue] in *.
      exists (Some e :: items). cbn [present firstn skipn List.length app repeat].
      rewrite Hpres, Hlen, ?app_nil_r. auto.
Qed.

Lemma keeps_lpop_many_inv n : keeps batch_inv (lpop_many n).
Proof.
  intros w Hw. destruct (lpop_many_run n w) as (items & -> & _). cbn [res post].
  apply (batch_inv_mono w); auto.
Qed.

Lemma crawl_loop_inv fuel : forall batch_count, keeps batch_inv (crawl_loop fuel batch_count).
Proof.
  pose proof (keeps_shutdown_is_set _ batch_inv_store_only).
  pose proof (keeps_time_time _ batch_inv_store_only).
  pose proof (keeps_time_sleep _ batch_inv_store_only).
  pose proof keeps_lpop_many_inv. pose proof guarded_batch_inv.
  induction fuel as [|fuel IH]; intros batch_count; cbn [crawl_loop]; keeps_all.
Qed.

(** X13: the worker never lets the processed filter fall behind the
    table.  If before the crawl loop no transaction is open and the
    processed filter reports every key of the committed processed-papers
    table, then the same holds whenever the loop is observed between two
    turns and when it ends, after any number of turns, whatever the API
    and the database answer and also when a batch raises: the filter is
    written right after the commit of [mark_processed] and nothing else
    commits rows of that table. *)
Theorem crawl_loop_filter_covers_table fuel batch_count w :
  settled w -> filter_covers_table w ->
  let r := crawl_loop fuel batch_count w in
  settled (post r) /\ filter_covers_table (post r).
Proof.
  intros Hs Hc r.
  exact (keeps_post batch_inv _ w (crawl_loop_inv fuel batch_count) (conj Hs Hc)).
Qed.

Lemma crawl_loop_filter_covers_table_witness :
  settled world_one_processed /\
  filter_covers_table (post (crawl_loop 3 0 world_one_processed)).
Proof.
  split; [reflexivity|].
  apply (crawl_loop_filter_covers_table 3 0 world_one_processed eq_refl).
  intros k [<- | []]. reflexivity.
Defined.

(** ** The enqueue path (lines 322-329) *)

Lemma flagged_In want ids (f : string -> bool) k :
  In k (flagged want ids (map f ids)) -> In k ids.
Proof. rewrite flagged_filter. intros H. apply filter_In in H. tauto. Qed.

(** What [filter_new_ids] returns are candidates, and it leaves the
    tables, the frontier and the queued filter alone. *)
Lemma filter_new_ids_frame ids w :
  let r := filter_new_ids ids w in
  w_queue (post r) = w_queue w /\ w_bf_queued (post r) = w_bf_queued w /\
  w_committed (post r) = w_committed w /\ w_working (post r) = w_working w /\
  (forall l k, res r = Ret l -> In k l ->
     In k ids /\ (bf_exists (w_bf_processed w) k = false \/ ~ In k (processed_keys w))).
Proof.
  intros r. subst r. destruct ids as [|id ids].
  { cbn. split; [|split; [|split; [|split]]]; try reflexivity.
    intros l k H Hk. injection H as <-. destruct Hk. }
  rewrite filter_new_ids_run by discriminate. cbv zeta.
  set (all := id :: ids).
  assert (Hnew : forall k, In k (flagged false all (map (bf_exists (w_bf_processed w)) all)) ->
                   In k all /\ bf_exists (w_bf_processed w) k = false).
  { intros k Hk. rewrite flagged_filter in Hk. apply filter_In in Hk.
    destruct Hk as (H1 & H2). split; [exact H1|].
    destruct (bf_exists (w_bf_processed w) k); [discriminate | reflexivity]. }
  destruct (flagged true all _) as [|m ms] eqn:Hms.
  { cbn [res post]. split; [|split; [|split; [|split]]]; try reflexivity.
    intros l k H Hk. injection H as <-. destruct (Hnew k Hk). auto. }
  destruct (next_db_reply w); [destruct (nodup _ _) as [|s ss] eqn:Hseen|..]; cbn [res post];
    (split; [|split; [|split; [|split]]]); try reflexivity; try (intros l k H; discriminate).
  intros l k H Hk.
  match type of H with Ret ?x = _ => assert (Hl : l = x) by congruence end.
  subst l. clear H. apply in_app_or in Hk. destruct Hk as [Hk | Hk].
  - destruct (Hnew k Hk). auto.
  - apply filter_In in Hk. destruct Hk as (Hk1 & Hk2). split.
    + rewrite <- Hms in Hk1. apply flagged_In in Hk1. exact Hk1.
    + right. intros Hrow. apply negb_true_iff in Hk2.
      assert (Hin : In k (s :: ss)).
      { rewrite <- Hseen. apply nodup_In. apply filter_In. split; [exact Hrow|].
        apply mem_string_In. exact Hk1. }
      apply mem_string_In in Hin. congruence.
Qed.

(** X14: what a batch enqueues.  When the enqueue step returns, the
    frontier is the former frontier followed by the ids it pushed, and
    the ids pushed are pairwise distinct, are cited ids of the batch,
    were not reported by the queued filter before the step and are
    reported by it afterwards; each of them was unknown to the processed
    filter or had no row in the processed-papers table.  So, unlike the
    seeds of a fresh start, an id cited several times in a batch is
    enqueued once. *)
Theorem enqueue_cited_pushes_new_ids ref_rows w :
  let r := enqueue_cited ref_rows w in
  res r = Ret tt ->
  exists pushed,
    w_queue (post r) = w_queue w ++ map mkEnvelope pushed /\
    NoDup pushed /\
    (forall p, In p pushed ->
       In p (map snd ref_rows) /\
       bf_exists (w_bf_queued w) p = false /\
       bf_exists (w_bf_queued (post r)) p = true /\
       (bf_exists (w_bf_processed w) p = false \/ ~ In p (processed_keys w))) /\
    (forall k, bf_exists (w_bf_queued w) k = true -> bf_exists (w_bf_queued (post r)) k = true).
Proof.
  intros r Hres. subst r. unfold enqueue_cited, bind in *.
  destruct (filter_new_ids_frame (map snd ref_rows) w) as (Hq & Hbq & _ & _ & Hnew).
  destruct (filter_new_ids (map snd ref_rows) w) as [[new_ids|e] w1 evs1]; [|discriminate].
  cbn [res post] in *.
  specialize (Hnew new_ids).
  destruct new_ids as [|n ns].
  { exists []. split; [cbn; rewrite app_nil_r; exact Hq|]. split; [constructor|].
    split; [intros p []|]. intros k Hk. cbn. rewrite Hbq. exact Hk. }
  rewrite BF_MADD_queued_run in * by discriminate.
  set (new_ids := n :: ns) in *.
  pose proof (bf_madd_newly_added new_ids (w_bf_queued w1)) as Hadd. cbv zeta in Hadd.
  remember (flagged true new_ids (fst (bf_madd_flags (w_bf_queued w1) new_ids))) as pushed
    eqn:Hpushed in *.
  destruct Hadd as (Hnd & Hadded).
  assert (Hpost : forall p, In p pushed ->
            In p (map snd ref_rows) /\ bf_exists (w_bf_queued w) p = false /\
            bf_exists (snd (bf_madd_flags (w_bf_queued w1) new_ids)) p = true /\
            (bf_exists (w_bf_processed w) p = false \/ ~ In p (processed_keys w))).
  { intros p Hp. destruct (Hadded p Hp) as (Hin & Hfresh).
    destruct (Hnew p eq_refl Hin) as (Hc & Hproc).
    rewrite Hbq in Hfresh.
    split; [exact Hc|]. split; [exact Hfresh|]. split; [|exact Hproc].
    apply bf_madd_member. exact Hin. }
  assert (Hmono : forall k, bf_exists (w_bf_queued w) k = true ->
            bf_exists (snd (bf_madd_flags (w_bf_queued w1) new_ids)) k = true).
  { intros k Hk. apply bf_madd_mono. rewrite Hbq. exact Hk. }
  destruct pushed as [|t ts].
  - exists []. split; [cbn; rewrite app_nil_r; exact Hq|]. split; [constructor|].
    split; [intros p []|]. exact Hmono.
  - rewrite r_rpush_run in * by discriminate. cbn [res post] in *.
    exists (t :: ts). split; [cbn [w_queue set_queue set_bf_queued]; rewrite Hq; reflexivity|].
    split; [exact Hnd|]. split; [exact Hpost | exact Hmono].
Qed.

Lemma enqueue_cited_pushes_new_ids_witness :
  exists pushed,
    w_queue (post (enqueue_cited [("P1", "R1"); ("P2", "R1"); ("P1", "R22")] world0)) =
      w_queue world0 ++ map mkEnvelope pushed /\
    NoDup pushed.
Proof.
  destruct (enqueue_cited_pushes_new_ids [("P1", "R1"); ("P2", "R1"); ("P1", "R22")] world0
              eq_refl) as (pushed & Hq & Hnd & _).
  exists pushed. split; [exact Hq | exact Hnd].
Defined.

(** ** The dedup oracle, when it returns (lines 162-175) *)

(** X15: what [filter_new_ids] does when it returns.  Every id it returns
    is a candidate that the processed filter did not know or that has no
    row in the processed-papers table; if the filter covers the rows the
    connection sees, the result is, up to order, exactly the candidates
    without a row, each as often as it was given.  The call changes
    neither table nor the frontier nor the queued filter, and the
    processed filter only grows. *)
Theorem filter_new_ids_sound ids w l :
  res (filter_new_ids ids w) = Ret l ->
  let r := filter_new_ids ids w in
  (forall k, In k l ->
     In k ids /\ (bf_exists (w_bf_processed w) k = false \/ ~ In k (processed_keys w))) /\
  (filter_covers_transaction w ->
     Permutation l (filter (fun k => negb (mem_string k (processed_keys w))) ids)) /\
  w_committed (post r) = w_committed w /\ w_working (post r) = w_working w /\
  w_queue (post r) = w_queue w /\ w_bf_queued (post r) = w_bf_queued w /\
  (forall k, bf_exists (w_bf_processed w) k = true ->
     bf_exists (w_bf_processed (post r)) k = true).
Proof.
  intros Hres r.
  destruct (filter_new_ids_frame ids w) as (Hq & Hbq & Hc & Hw & Hnew).
  split; [intros k Hk; exact (Hnew l k Hres Hk)|].
  split; [intros Hcov; apply filter_new_ids_returns_unprocessed; [exact Hcov | exact Hres]|].
  split; [exact Hc|]. split; [exact Hw|]. split; [exact Hq|]. split; [exact Hbq|].
  intros k Hk. subst r. clear -Hk. destruct ids as [|id ids]; [exact Hk|].
  rewrite filter_new_ids_run by discriminate. cbv zeta.
  destruct (flagged true _ _) as [|m ms]; [exact Hk|].
  destruct (next_db_reply w); [destruct (nodup _ _) as [|s ss]|..]; cbn [post]; try exact Hk.
  apply bf_madd_mono. exact Hk.
Qed.

Lemma filter_new_ids_sound_witness :
  Permutation ["P1"; "P3"]
    (filter (fun k => negb (mem_string k (processed_keys world_one_processed)))
            ["P1"; "P2"; "P3"]).
Proof.
  destruct (filter_new_ids_sound ["P1"; "P2"; "P3"] world_one_processed ["P1"; "P3"])
    as (_ & Hperm & _).
  - vm_compute. reflexivity.
  - apply Hperm. intros k [<- | []]. reflexivity.
Defined.

(** ** The crawl loop (lines 259-340) *)

(** X16: a batch takes the head of the frontier.  One turn of the loop
    sends [BATCH_SIZE] = 100 LPOP commands, whatever the length of the
    frontier; the entries it gets are the first 100 entries of the
    frontier (all of them when there are fewer) in their order, and what
    is left is the frontier without them. *)
Theorem batch_pop_fifo w :
  let r := lpop_many (Z.to_nat BATCH_SIZE) w in
  exists items,
    res r = Ret items /\
    List.length items = 100%nat /\
    present items = firstn 100 (w_queue w) /\
    w_queue (post r) = skipn 100 (w_queue w) /\
    w_queue w = present items ++ w_queue (post r) /\
    emitted r = repeat EvLPop 100 /\
    store (post r) = store (set_queue (skipn 100 (w_queue w)) w).
Proof.
  intros r. subst r. change (Z.to_nat BATCH_SIZE) with 100%nat.
  destruct (lpop_many_run 100 w) as (items & Hrun & Hpres & Hlen).
  exists items. rewrite Hrun. cbn [res post emitted].
  split; [reflexivity|]. split; [exact Hlen|]. split; [exact Hpres|].
  split; [reflexivity|]. split; [|split; reflexivity].
  rewrite Hpres. cbn [w_queue set_queue]. symmetry. apply firstn_skipn.
Qed.

(** One turn of the loop on an empty frontier. *)
Lemma idle_turn fuel batch_count w :
  w_queue w = [] -> w_shutdown w = None ->
  exists w3,
    crawl_loop (S fuel) batch_count w =
    mkRun (res (crawl_loop fuel batch_count w3)) (post (crawl_loop fuel batch_count w3))
          (repeat EvLPop 100 ++ EvSleep (1 * second) :: emitted (crawl_loop fuel batch_count w3)) /\
    w_queue w3 = [] /\ w_shutdown w3 = None /\ store w3 = store w /\
    w_now w + 1 * second <= w_now w3.
Proof.
  intros Hq Hsd.
  cbn [crawl_loop]. unfold bind at 1. unfold shutdown_is_set at 1. rewrite Hsd.
  unfold bind at 1. destruct (time_time_run w) as (l & rest & ->).
  set (w1 := set_now _ _).
  assert (Hq1 : w_queue w1 = []) by exact Hq.
  assert (Hsd1 : w_shutdown w1 = None) by exact Hsd.
  assert (Hst1 : store w1 = store w) by reflexivity.
  assert (Hnow1 : w_now w <= w_now w1) by (unfold w1; cbn; lia).
  clearbody w1.
  unfold bind at 1. change (Z.to_nat BATCH_SIZE) with 100%nat.
  destruct (lpop_many_run 100 w1) as (items & -> & Hpres & Hlen).
  rewrite Hq1, firstn_nil_any in Hpres. rewrite Hpres.
  rewrite Hq1, skipn_nil_any.
  set (w2 := set_queue [] w1).
  assert (Hq2 : w_queue w2 = []) by reflexivity.
  assert (Hsd2 : w_shutdown w2 = None) by exact Hsd1.
  assert (Hst2 : store w2 = store w).
  { rewrite <- Hst1. unfold store, w2. cbn. rewrite Hq1. reflexivity. }
  assert (Hnow2 : w_now w2 = w_now w1) by reflexivity.
  clearbody w2.
  unfold bind at 1. rewrite time_sleep_run by (unfold second; lia).
  set (w3 := set_now _ w2).
  assert (Hq3 : w_queue w3 = []) by exact Hq2.
  assert (Hsd3 : w_shutdown w3 = None) by exact Hsd2.
  assert (Hst3 : store w3 = store w) by exact Hst2.
  assert (Hnow3 : w_now w3 = w_now w2 + 1 * second) by reflexivity.
  clearbody w3.
  exists w3. split; [|repeat split; auto; lia].
  destruct (crawl_loop fuel batch_count w3) as [r3 w4 evs3]. reflexivity.
Qed.

(** X17: a drained frontier does not stop the worker.  With an empty
    frontier and no signal, every turn of the loop sends its 100 LPOP
    commands, sleeps one second and goes on: after any number of turns
    the loop is still running, it has called neither the API nor the
    database, and the stores are as they were. *)
Theorem crawl_loop_idles_on_empty_frontier fuel :
  forall batch_count w,
    w_queue w = [] -> w_shutdown w = None ->
    let r := crawl_loop fuel batch_count w in
    res r = Ret StillRunning /\
    sleeps (emitted r) = repeat (1 * second) fuel /\
    Forall (fun ev => ev = EvLPop \/ ev = EvSleep (1 * second)) (emitted r) /\
    store (post r) = store w /\
    w_now w + Z.of_nat fuel * second <= w_now (post r).
Proof.
  induction fuel as [|fuel IH]; intros batch_count w Hq Hsd r; subst r.
  - cbn. repeat split; auto. lia.
  - destruct (idle_turn fuel batch_count w Hq Hsd) as (w3 & -> & Hq3 & Hsd3 & Hst3 & Hnow3).
    destruct (IH batch_count w3 Hq3 Hsd3) as (Hres & Hsl & Hev & Hst & Hnow).
    cbn [res post emitted].
    split; [exact Hres|]. split; [|split; [|split]].
    + rewrite sleeps_app.
      assert (Hpop : forall n, sleeps (repeat EvLPop n) = []).
      { induction n as [|n IHn]; [reflexivity | exact IHn]. }
      rewrite Hpop. cbn [app sleeps repeat]. rewrite Hsl. reflexivity.
    + apply Forall_app. split.
      * apply Forall_forall. intros ev Hin. apply repeat_spec in Hin. left. exact Hin.
      * constructor; [right; reflexivity | exact Hev].
    + rewrite Hst. exact Hst3.
    + lia.
Qed.

Lemma crawl_loop_idles_on_empty_frontier_witness :
  res (crawl_loop 3 0 world0) = Ret StillRunning /\
  sleeps (emitted (crawl_loop 3 0 world0)) = repeat (1 * second) 3.
Proof.
  destruct (crawl_loop_idles_on_empty_frontier 3 0 world0 eq_refl eq_refl)
    as (Hres & Hsl & _).
  split; [exact Hres | exact Hsl].
Defined.

Lemma flagged_none (f : string -> bool) ids :
  (forall k, In k ids -> f k = false) ->
  flagged true ids (map f ids) = [] /\ flagged false ids (map f ids) = ids.
Proof.
  intros Hf. rewrite !flagged_filter. induction ids as [|id ids IH]; [auto|].
  cbn [filter]. rewrite (Hf id) by (left; reflexivity). cbn [Bool.eqb].
  destruct IH as (IH1 & IH2); [intros k Hk; apply Hf; right; exact Hk|].
  rewrite IH1, IH2. auto.
Qed.

(** The turn of the loop in which a signal arrives after the check at
    the head of the loop. *)
Lemma signal_in_batch_run fuel batch_count w :
  w_queue w <> [] ->
  w_shutdown w = Some 1%nat ->
  (forall e, In e (firstn 100 (w_queue w)) ->
     bf_exists (w_bf_processed w) (env_id e) = false) ->
  exists w2,
    crawl_loop (S fuel) batch_count w =
    mkRun (Ret Finished) (set_working (w_committed w2) w2)
          (repeat EvLPop 100 ++
           [EvBfMExists BLOOM_NAME (map env_id (firstn 100 (w_queue w)))]) /\
    w_queue w2 = skipn 100 (w_queue w) /\ w_committed w2 = w_committed w /\
    w_bf_processed w2 = w_bf_processed w /\ w_bf_queued w2 = w_bf_queued w.
Proof.
  intros Hq Hsd Hnew.
  cbn [crawl_loop]. unfold bind at 1. unfold shutdown_is_set at 1. rewrite Hsd.
  set (w0 := set_shutdown (Some 0%nat) w).
  unfold bind at 1. destruct (time_time_run w0) as (l & rest & ->).
  set (w1 := set_now _ _).
  assert (Hq1 : w_queue w1 = w_queue w) by reflexivity.
  assert (Hsd1 : w_shutdown w1 = Some 0%nat) by reflexivity.
  assert (Hc1 : w_committed w1 = w_committed w) by reflexivity.
  assert (Hbp1 : w_bf_processed w1 = w_bf_processed w) by reflexivity.
  assert (Hbq1 : w_bf_queued w1 = w_bf_queued w) by reflexivity.
  clearbody w1. clear w0.
  unfold bind at 1. change (Z.to_nat BATCH_SIZE) with 100%nat.
  destruct (lpop_many_run 100 w1) as (items & -> & Hpres & _).
  rewrite Hq1 in *. rewrite Hpres.
  set (w2 := set_queue (skipn 100 (w_queue w)) w1).
  assert (Hq2 : w_queue w2 = skipn 100 (w_queue w)) by reflexivity.
  assert (Hsd2 : w_shutdown w2 = Some 0%nat) by exact Hsd1.
  assert (Hc2 : w_committed w2 = w_committed w) by exact Hc1.
  assert (Hbp2 : w_bf_processed w2 = w_bf_processed w) by exact Hbp1.
  assert (Hbq2 : w_bf_queued w2 = w_bf_queued w) by exact Hbq1.
  clearbody w2.
  exists w2. split; [|auto].
  destruct (firstn 100 (w_queue w)) as [|e entries] eqn:Hfirst.
  { destruct (w_queue w); [congruence | discriminate]. }
  set (pids := map env_id (e :: entries)) in *.
  assert (Hflags : flagged true pids (map (bf_exists (w_bf_processed w2)) pids) = [] /\
                   flagged false pids (map (bf_exists (w_bf_processed w2)) pids) = pids).
  { apply flagged_none. intros k Hk. unfold pids in Hk. apply in_map_iff in Hk.
    destruct Hk as (e' & <- & He'). rewrite Hbp2. apply Hnew. exact He'. }
  destruct Hflags as (Hseen & Hfresh).
  assert (Hbatch : try_finally (batch_body pids (batch_count + 1)) putconn w2 =
                   mkRun (Ret Return) (set_working (w_committed w2) w2)
                         [EvBfMExists BLOOM_NAME pids]).
  { unfold try_finally, batch_body. unfold bind at 1.
    rewrite filter_new_ids_run by discriminate. cbv zeta. rewrite Hseen, Hfresh.
    unfold pids at 1. cbn [map].
    change (env_id e :: map env_id entries) with pids.
    assert (Hchunks : exists c cs, chunked pids (Z.to_nat API_BATCH_LIMIT) = c :: cs).
    { unfold pids. cbn [map]. rewrite chunked_cons by (cbn; lia). eauto. }
    destruct Hchunks as (c & cs & ->).
    cbn [process_chunks]. unfold bind at 1. unfold bind at 1.
    unfold shutdown_is_set. rewrite Hsd2. cbn. reflexivity. }
  unfold bind at 1. rewrite Hbatch. cbn [res post emitted ret app]. reflexivity.
Qed.

(** X18: a signal that arrives inside a batch loses the batch.  If the
    flag is clear at the head of the loop and set when the loop over the
    chunks checks it, [main] returns at once (line 282): the ids the
    batch popped are gone from the frontier, although nothing was
    fetched or written for them, and they stay marked in the queued
    filter, so that nothing will enqueue them again.  (The ids are taken
    to be unknown to the processed filter, so that all of them are to be
    fetched.) *)
Theorem signal_in_batch_loses_popped_ids fuel batch_count w :
  w_queue w <> [] ->
  w_shutdown w = Some 1%nat ->
  (forall e, In e (firstn 100 (w_queue w)) ->
     bf_exists (w_bf_processed w) (env_id e) = false) ->
  let r := crawl_loop (S fuel) batch_count w in
  res r = Ret Finished /\
  w_queue (post r) = skipn 100 (w_queue w) /\
  emitted r = repeat EvLPop 100 ++
              [EvBfMExists BLOOM_NAME (map env_id (firstn 100 (w_queue w)))] /\
  w_committed (post r) = w_committed w /\
  w_bf_processed (post r) = w_bf_processed w /\
  w_bf_queued (post r) = w_bf_queued w.
Proof.
  intros Hq Hsd Hnew r. subst r.
  destruct (signal_in_batch_run fuel batch_count w Hq Hsd Hnew)
    as (w2 & -> & Hq2 & Hc2 & Hbp2 & Hbq2).
  cbn [res post emitted]. repeat split; assumption.
Qed.

Lemma signal_in_batch_loses_popped_ids_witness :
  res (crawl_loop 5 0 world_signal_in_batch) = Ret Finished /\
  w_queue (post (crawl_loop 5 0 world_signal_in_batch)) = [] /\
  w_committed (post (crawl_loop 5 0 world_signal_in_batch)) = empty_database.
Proof.
  destruct (signal_in_batch_loses_popped_ids 4 0 world_signal_in_batch)
    as (Hres & Hq & _ & Hc & _).
  - discriminate.
  - reflexivity.
  - intros e [<- | [<- | []]]; reflexivity.
  - split; [exact Hres|]. split; [exact Hq | exact Hc].
Defined.

(** ** The two ways to start (lines 224-256) *)

(** Everything a fresh start does before the loop, when the database
    accepts its seven statements. *)
Lemma fresh_start_run seeds w :
  db_accepts 7 w = true ->
  let r := main_startup seeds true false w in
  res r = Ret true /\
  w_queue (post r) = map mkEnvelope seeds /\
  w_committed (post r) = empty_database /\
  w_working (post r) = empty_database /\
  bf_bits (w_bf_processed (post r)) = [] /\
  (forall s, In s seeds -> bf_exists (w_bf_queued (post r)) s = true) /\
  batch_inv (post r).
Proof.
  intros Hdb r.
  assert (Hr : r = main_startup seeds true false w) by reflexivity. clearbody r.
  cbv beta iota zeta delta
      [main_startup init_db ddl conn_commit putconn reset_bloom_filters truncate_tables
       r_delete_queue r_delete_bf BF_RESERVE BF_MADD r_rpush
       bind get_world put_world emit ret] in Hr.
  destruct (db_exec_accepted 6 EvDDL w Hdb) as (E1 & Hdb1). rewrite E1 in Hr.
  cbv iota beta in Hr. clear E1 Hdb.
  set (w1 := set_dbscript (tl (w_dbscript w)) w) in *. clearbody w1.
  destruct (db_exec_accepted 5 EvDDL w1 Hdb1) as (E2 & Hdb2). rewrite E2 in Hr.
  cbv iota beta in Hr. clear E2 Hdb1.
  set (w2 := set_dbscript (tl (w_dbscript w1)) w1) in *. clearbody w2.
  destruct (db_exec_accepted 4 EvDDL w2 Hdb2) as (E3 & Hdb3). rewrite E3 in Hr.
  cbv iota beta in Hr. clear E3 Hdb2.
  set (w3 := set_dbscript (tl (w_dbscript w2)) w2) in *. clearbody w3.
  destruct (db_exec_accepted 3 EvDDL w3 Hdb3) as (E4 & Hdb4). rewrite E4 in Hr.
  cbv iota beta in Hr. clear E4 Hdb3.
  set (w4 := set_dbscript (tl (w_dbscript w3)) w3) in *. clearbody w4.
  destruct (db_exec_accepted 2 EvCommit w4 Hdb4) as (E5 & Hdb5). rewrite E5 in Hr.
  cbv iota beta in Hr. clear E5 Hdb4.
  set (w5 := set_dbscript (tl (w_dbscript w4)) w4) in *. clearbody w5.
  match type of Hr with
  | context [db_exec EvTruncate ?wt] =>
      set (w6 := wt) in *;
      assert (Hdb6 : db_accepts 2 w6 = true) by exact Hdb5;
      assert (Hq6 : w_queue w6 = []) by reflexivity;
      assert (Hbp6 : bf_bits (w_bf_processed w6) = []) by reflexivity;
      assert (Hbq6 : bf_bits (w_bf_queued w6) = []) by reflexivity
  end.
  clearbody w6. clear Hdb5.
  destruct (db_exec_accepted 1 EvTruncate w6 Hdb6) as (E6 & Hdb7). rewrite E6 in Hr.
  cbv iota beta in Hr. clear E6 Hdb6.
  match type of Hr with
  | context [db_exec EvCommit ?wt] =>
      set (w7 := wt) in *;
      assert (Hdb8 : db_accepts 1 w7 = true) by exact Hdb7;
      assert (Hq7 : w_queue w7 = []) by exact Hq6;
      assert (Hbp7 : bf_bits (w_bf_processed w7) = []) by exact Hbp6;
      assert (Hbq7 : bf_bits (w_bf_queued w7) = []) by exact Hbq6;
      assert (Hwk7 : w_working w7 = empty_database) by reflexivity
  end.
  clearbody w7. clear Hdb7 Hq6 Hbp6 Hbq6.
  destruct (db_exec_accepted 0 EvCommit w7 Hdb8) as (E7 & _). rewrite E7 in Hr.
  cbv iota beta in Hr. clear E7 Hdb8.
  destruct w7 as [now lat lim http sd dbs com wrk q bfp bfq].
  cbn [w_queue w_bf_processed w_bf_queued w_working] in Hq7, Hbp7, Hbq7, Hwk7. subst q wrk.
  assert (Hinv : forall w', w_working w' = empty_database -> w_committed w' = empty_database ->
                   batch_inv w').
  { intros w' H1 H2. split; [unfold settled; congruence|].
    intros k Hk. rewrite H2 in Hk. destruct Hk. }
  destruct seeds as [|seed seeds].
  - subst r. cbn. repeat split; auto. apply Hinv; reflexivity.
  - match type of Hr with
    | context [bf_madd_flags ?b ?ks] =>
        pose proof (bf_madd_member ks b) as Hmem;
        destruct (bf_madd_flags b ks) as [flags b']
    end.
    cbn [snd] in Hmem. subst r. cbn.
    repeat split; auto. apply Hinv; reflexivity.
Qed.

(** X19: what a fresh start leaves behind.  When the database accepts
    its seven statements, a fresh start enters the loop with both tables
    empty and no transaction open, an empty processed filter, a frontier
    that holds exactly the seeds, in the order given (whatever it held
    before), and a queued filter that reports every seed.  So the
    processed filter covers the table when the loop begins, and it still
    does, with no transaction open, whenever the run is observed
    later. *)
Theorem fresh_start_state seeds w :
  db_accepts 7 w = true ->
  let r := main_startup seeds true false w in
  res r = Ret true /\
  w_queue (post r) = map mkEnvelope seeds /\
  w_committed (post r) = empty_database /\
  w_working (post r) = empty_database /\
  bf_bits (w_bf_processed (post r)) = [] /\
  (forall s, In s seeds -> bf_exists (w_bf_queued (post r)) s = true) /\
  (forall fuel,
     settled (post (main seeds true false fuel w)) /\
     filter_covers_table (post (main seeds true false fuel w))).
Proof.
  intros Hdb r.
  destruct (fresh_start_run seeds w Hdb) as (Hres & Hq & Hc & Hw & Hbp & Hbq & Hinv).
  fold r in Hres, Hq, Hc, Hw, Hbp, Hbq, Hinv.
  split; [exact Hres|]. split; [exact Hq|]. split; [exact Hc|]. split; [exact Hw|].
  split; [exact Hbp|]. split; [exact Hbq|].
  intros fuel. unfold main, bind. fold r.
  destruct r as [[go|e] w1 evs1]; cbn [res post] in *; [|discriminate].
  injection Hres as ->.
  pose proof (keeps_post batch_inv _ w1 (crawl_loop_inv fuel 0) Hinv) as Hloop.
  destruct (crawl_loop fuel 0 w1) as [r2 w2 evs2]. exact Hloop.
Qed.

Lemma fresh_start_state_witness :
  w_queue (post (main_startup ["P1"; "P2"] true false world_to_resume)) =
    [mkEnvelope "P1"; mkEnvelope "P2"] /\
  w_committed (post (main_startup ["P1"; "P2"] true false world_to_resume)) = empty_database.
Proof.
  destruct (fresh_start_state ["P1"; "P2"] world_to_resume eq_refl) as (_ & Hq & Hc & _).
  split; [exact Hq | exact Hc].
Defined.

(** Everything a resume on a frontier that is not empty does before the
    loop. *)
Lemma resume_run seeds w :
  w_queue w <> [] -> settled w -> db_accepts 5 w = true ->
  let r := main_startup seeds false true w in
  res r = Ret true /\
  w_committed (post r) = w_committed w /\
  w_working (post r) = w_working w /\
  redis (post r) = redis w /\
  Forall (fun ev => startup_only ev = true) (emitted r) /\
  post r = post (main_startup [] false true w).
Proof.
  intros Hq Hs Hdb r.
  assert (Hsame : forall seeds', main_startup seeds' false true w = main_startup [] false true w)
    by reflexivity.
  assert (Hr : r = main_startup seeds false true w) by reflexivity. clearbody r.
  split; [|split; [|split; [|split; [|split]]]]; try (subst r; rewrite Hsame; reflexivity).
  all: unfold main_startup in Hr; cbv iota in Hr; rewrite bind3_assoc in Hr.
  all: pose proof (schema_bootstrap_run w) as Hboot; cbv zeta in Hboot.
  all: assert (Hredis : redis (post ((init_db ;; conn_commit ;; putconn) w)) = redis w)
    by (apply (keeps_post (fun w' => redis w' = redis w)); [|reflexivity];
        pose proof (frame_db_exec _ redis ltac:(reflexivity) (redis w));
        pose proof (frame_conn_commit _ redis ltac:(reflexivity) ltac:(reflexivity) (redis w));
        pose proof (frame_putconn _ redis ltac:(reflexivity) (redis w));
        unfold init_db, ddl; keeps_all).
  all: unfold bind at 1 in Hr.
  all: destruct ((init_db ;; conn_commit ;; putconn) w) as [[u|e] w1 evs1];
    cbn [res post emitted] in Hboot, Hredis;
    destruct Hboot as (Hev & Hq1 & Hrows & _ & Hacc);
    [|specialize (Hacc Hdb); discriminate].
  all: destruct (Hrows Hs) as (Hc1 & Hw1).
  all: cbv beta iota zeta delta [bind r_llen emit get_world ret] in Hr.
  all: rewrite Hq1 in Hr; destruct (w_queue w) as [|e q]; [congruence|].
  all: cbn in Hr; subst r; cbn [res post emitted]; auto.
  rewrite ?app_nil_r. apply Forall_app. split; [exact Hev | repeat constructor].
Qed.

(** X20: what a resume leaves alone.  Started in resume mode on a
    frontier that is not empty, with no transaction open and a database
    that accepts the schema statements, the worker enters the loop
    without having changed a row, the frontier or a filter; the seeds it
    was given are not looked at.  So if the processed filter covered the
    table when the worker was stopped, it covers it whenever the resumed
    run is observed. *)
Theorem resume_keeps_state seeds w :
  w_queue w <> [] -> settled w -> db_accepts 5 w = true ->
  let r := main_startup seeds false true w in
  res r = Ret true /\
  w_committed (post r) = w_committed w /\
  w_working (post r) = w_working w /\
  redis (post r) = redis w /\
  Forall (fun ev => startup_only ev = true) (emitted r) /\
  post r = post (main_startup [] false true w) /\
  (filter_covers_table w ->
   forall fuel,
     settled (post (main seeds false true fuel w)) /\
     filter_covers_table (post (main seeds false true fuel w))).
Proof.
  intros Hq Hs Hdb r.
  destruct (resume_run seeds w Hq Hs Hdb) as (Hres & Hc & Hw & Hredis & Hev & Hsame).
  fold r in Hres, Hc, Hw, Hredis, Hev, Hsame.
  split; [exact Hres|]. split; [exact Hc|]. split; [exact Hw|]. split; [exact Hredis|].
  split; [exact Hev|]. split; [exact Hsame|].
  intros Hcov fuel. unfold main, bind. fold r.
  assert (Hinv : batch_inv (post r)).
  { unfold redis in Hredis. injection Hredis as _ Hb _. split.
    - unfold settled. rewrite Hc, Hw. exact Hs.
    - unfold filter_covers_table. rewrite Hb, Hc. exact Hcov. }
  destruct r as [[go|e] w1 evs1]; cbn [res post] in *; [|discriminate].
  injection Hres as ->.
  pose proof (keeps_post batch_inv _ w1 (crawl_loop_inv fuel 0) Hinv) as Hloop.
  destruct (crawl_loop fuel 0 w1) as [r2 w2 evs2]. exact Hloop.
Qed.

Lemma resume_keeps_state_witness :
  res (main_startup ["P9"] false true world_to_resume) = Ret true /\
  w_committed (post (main_startup ["P9"] false true world_to_resume)) =
    w_committed world_to_resume /\
  redis (post (main_startup ["P9"] false true world_to_resume)) = redis world_to_resume.
Proof.
  destruct (resume_keeps_state ["P9"] world_to_resume) as (Hres & Hc & _ & Hredis & _).
  - discriminate.
  - reflexivity.
  - reflexivity.
  - split; [exact Hres|]. split; [exact Hc | exact Hredis].
Defined.

(** ** The time a failing request takes (lines 87-107) *)

Lemma clock_reached_send_request_once method url kw t :
  keeps (clock_reached t) (send_request_once method url kw).
Proof.
  intros w (Hok & Ht).
  destruct (acquire_ok w Hok) as (Hres & Hok1).
  assert (Hle : w_now w <= w_now (post (RateLimiter_acquire w))).
  { pose proof Hok as Hok'. apply limiter_ok_iff in Hok'. destruct Hok' as (cs & Hw & Hlen).
    destruct (acquire_spec w) as (gone & kept & a & _ & _ & _ & _ & _ & Hnow & Ha).
    - rewrite Hw. cbn. lia.
    - rewrite Hw. cbn. lia.
    - rewrite Hw. cbn. unfold second. lia.
    - rewrite Hnow. exact Ha. }
  pose proof (run_eta (RateLimiter_acquire w)) as Hacq. rewrite Hres in Hacq.
  set (w1 := post (RateLimiter_acquire w)) in *.
  assert (H1 : forall h, clock_reached t (set_http h w1)).
  { intros h. split; [exact Hok1 | cbn; lia]. }
  assert (H2 : forall h d, 0 <= d -> clock_reached t (set_now (w_now (set_http h w1) + d) (set_http h w1))).
  { intros h d Hd. split; [exact Hok1 | cbn; lia]. }
  unfold send_request_once, bind. rewrite Hacq. unfold sess_request.
  destruct (next_http_reply w1) as [e|resp]; cbn [res post]; [apply H1|].
  destruct ((status_code resp =? 429) || (status_code resp =? 500)).
  - destruct (retry_after resp) as [ra|]; [|cbn; apply H1].
    destruct (String.eqb ra ""); cbn [negb]; [cbn; apply H1|].
    unfold try_except.
    destruct (py_int ra) as [n|]; [|cbn; apply H1].
    destruct (Z.leb_spec 0 n) as [Hn|Hn].
    + rewrite time_sleep_run by (unfold second; lia). cbn [res post].
      apply H2. unfold second. lia.
    + rewrite time_sleep_negative by (unfold second; lia). cbn. apply H1.
  - unfold raise_for_status.
    destruct ((400 <=? status_code resp) && (status_code resp <? 600)); cbn; apply H1.
Qed.

Lemma total_wait_nonneg left : forall attempt, 0 <= total_wait left attempt.
Proof.
  induction left as [|left IH]; intros attempt; cbn [total_wait]; [lia|].
  pose proof (wait_exponential_bounds attempt). specialize (IH (attempt + 1)).
  unfold second. lia.
Qed.

Lemma tenacity_retry_clock {A} (f : M A) :
  (forall t, keeps (clock_reached t) f) ->
  forall left attempt t,
    hoare (clock_reached t) (tenacity_retry left attempt f)
          (fun _ => clock_reached t)
          (fun e w => if is_RequestException e
                      then clock_reached (t + total_wait left attempt) w
                      else clock_reached t w).
Proof.
  intros Hf. induction left as [|left IH]; intros attempt t w Hw.
  - cbn [tenacity_retry total_wait]. unfold try_except.
    specialize (Hf t w Hw).
    destruct (f w) as [[a|e] w1 evs1]; cbn [res post] in *; [exact Hf|].
    destruct (is_RequestException e) eqn:He; cbn [res post raise]; rewrite ?He.
    + destruct Hf as (H1 & H2). split; [exact H1 | lia].
    + exact Hf.
  - cbn [tenacity_retry total_wait]. unfold try_except.
    specialize (Hf t w Hw).
    destruct (f w) as [[a|e] w1 evs1]; cbn [res post] in *; [exact Hf|].
    destruct (is_RequestException e) eqn:He; [|cbn [res post]; rewrite He; exact Hf].
    pose proof (wait_exponential_bounds attempt) as Hwait.
    unfold bind. rewrite time_sleep_run by (unfold second; lia).
    set (w2 := set_now _ w1).
    assert (Hw2 : clock_reached (t + wait_exponential attempt * second) w2).
    { destruct Hf as (H1 & H2). split; [exact H1 | unfold w2; cbn; lia]. }
    specialize (IH (attempt + 1) _ w2 Hw2).
    pose proof (total_wait_nonneg left (attempt + 1)) as Hnn.
    destruct (tenacity_retry left (attempt + 1) f w2) as [[a|e'] w3 evs2]; cbn [res post] in *.
    + destruct IH as (H1 & H2). split; [exact H1 | unfold second in *; lia].
    + destruct (is_RequestException e').
      * destruct IH as (H1 & H2). split; [exact H1 | lia].
      * destruct IH as (H1 & H2). split; [exact H1 | unfold second in *; lia].
Qed.

(** X21: a request that fails for good has cost at least fifteen
    seconds.  When [send_request] raises a [RequestException], it has
    called the API five times and slept tenacity's waits of 1, 2, 4 and
    8 seconds in between, so the clock has advanced by at least 15 s
    (more with the limiter's and the Retry-After sleeps); in every case
    the clock has not gone back. *)
Theorem send_request_failure_takes_time method url kw w :
  limiter_ok w ->
  let r := send_request method url kw w in
  w_now w <= w_now (post r) /\
  (forall e, res r = Raise e -> is_RequestException e = true ->
     List.length (http_calls (emitted r)) = 5%nat /\
     w_now w + 15 * second <= w_now (post r)).
Proof.
  intros Hok r.
  pose proof (tenacity_retry_clock (send_request_once method url kw)
                (clock_reached_send_request_once method url kw) 4 1 (w_now w) w
                (conj Hok (Z.le_refl _))) as H.
  change (tenacity_retry 4 1 (send_request_once method url kw) w) with r in H.
  split.
  - destruct (res r) as [a|e]; [apply H|].
    destruct (is_RequestException e); destruct H as (_ & H); [|exact H].
    pose proof (total_wait_nonneg 4 1). lia.
  - intros e Hres He. rewrite Hres, He in H. destruct H as (_ & H).
    split; [|exact H].
    destruct (send_request_chain method url kw w Hok)
      as (ws & Hhd & Hlen & _ & _ & Hshort & Hlast & _ & _ & Hcalls).
    fold r in Hlast, Hcalls. rewrite Hcalls, length_map.
    destruct (Nat.eq_dec (List.length ws) 5) as [H5|H5]; [exact H5|].
    assert (Hlt : (List.length ws < 5)%nat) by lia.
    specialize (Hshort Hlt). unfold retryable_failure in Hshort.
    rewrite <- Hlast, Hres, He in Hshort. discriminate.
Qed.

Lemma send_request_failure_takes_time_witness :
  List.length (http_calls (emitted (send_request "GET" "u" (KwJson []) world_404))) = 5%nat /\
  w_now world_404 + 15 * second <= w_now (post (send_request "GET" "u" (KwJson []) world_404)).
Proof.
  destruct (send_request_failure_takes_time "GET" "u" (KwJson []) world_404 eq_refl)
    as (_ & H).
  apply (H (HTTPError 404)); reflexivity.
Defined.

(** ** A batch never fetches a processed paper (lines 273-291) *)

Lemma no_http_calls evs :
  Forall (fun ev => not_http ev = true) evs -> http_calls evs = [].
Proof.
  induction 1 as [|ev evs Hev _ IH]; [reflexivity|].
  destruct ev; cbn in *; try discriminate; exact IH.
Qed.

Lemma not_http_filter_new_ids ids : emits_only not_http (filter_new_ids ids).
Proof.
  unfold filter_new_ids, BF_MEXISTS, select_processed.
  pose proof (fun name keys => emits_only_BF_MADD not_http name keys eq_refl).
  emits.
Qed.

Lemma not_http_after_fetch st batch_count :
  emits_only not_http
    (write_batch st ;;
     enqueue_cited (snd st) ;;
     (if batch_count mod COMMIT_EVERY =? 0 then conn_commit else ret tt) ;;
     time_time ;;
     r_llen ;;
     ret Continue).
Proof.
  assert (H1 : emits_only not_http (write_batch st)).
  { unfold write_batch. apply emits_only_bind.
    - eapply emits_only_weaken; [|apply safe_insert_citations_phase].
      intros ev. destruct ev; cbn; congruence.
    - intros _. eapply emits_only_weaken; [|apply mark_processed_phase].
      intros ev. destruct ev; cbn; congruence. }
  assert (H2 : emits_only not_http (enqueue_cited (snd st))).
  { unfold enqueue_cited, r_rpush.
    pose proof not_http_filter_new_ids.
    pose proof (fun name keys => emits_only_BF_MADD not_http name keys eq_refl).
    emits. }
  unfold conn_commit, r_llen. emits.
Qed.

Lemma emitted_bind_cases {A B} (m : M A) (k : A -> M B) w :
  emitted (bind m k w) =
  emitted (m w) ++ match res (m w) with
                   | Ret a => emitted (k a (post (m w)))
                   | Raise _ => []
                   end.
Proof.
  unfold bind. destruct (m w) as [[a|e] w1 evs1]; cbn [res post emitted].
  - destruct (k a w1) as [r w2 evs2]. reflexivity.
  - symmetry. apply app_nil_r.
Qed.

(** The batch requests of a batch are those of its fetch phase, which
    works on what [filter_new_ids] returned. *)
Lemma batch_body_http_calls pids batch_count w c :
  In c (http_calls (emitted (batch_body pids batch_count w))) ->
  exists to_fetch w1,
    res (filter_new_ids pids w) = Ret to_fetch /\
    In c (http_calls (emitted (process_chunks (chunked to_fetch (Z.to_nat API_BATCH_LIMIT))
                                 ([], []) w1))).
Proof.
  unfold batch_body. rewrite emitted_bind_cases, http_calls_app.
  rewrite (no_http_calls _ (not_http_filter_new_ids pids w)). cbn [app].
  destruct (res (filter_new_ids pids w)) as [to_fetch|e]; [|intros []].
  destruct to_fetch as [|t ts]; [intros []|].
  set (to_fetch := t :: ts).
  rewrite emitted_bind_cases, http_calls_app.
  set (w1 := post (filter_new_ids pids w)).
  intros Hin. exists to_fetch, w1. split; [reflexivity|].
  apply in_app_or in Hin. destruct Hin as [Hin | Hin]; [exact Hin|].
  exfalso.
  destruct (res (process_chunks _ _ w1)) as [[st|]|e]; try (destruct Hin).
  rewrite (no_http_calls _ (not_http_after_fetch st batch_count _)) in Hin. destruct Hin.
Qed.

(** X22: a batch asks the API only for papers that are not processed.
    If the processed filter covers the rows the connection sees, every
    id that a batch request of the batch carries is one of the ids the
    batch popped and has no row in the processed-papers table: a paper
    that has been marked as processed is never fetched again. *)
Theorem batch_fetches_only_unprocessed pids batch_count w :
  filter_covers_transaction w ->
  forall rq reply ids p,
    In (rq, reply) (http_calls (emitted (try_finally (batch_body pids batch_count) putconn w))) ->
    rq_kwargs rq = KwJson ids -> In p ids ->
    In p pids /\ ~ In p (processed_keys w).
Proof.
  intros Hcov rq reply ids p Hin Hkw Hp.
  assert (Hem : emitted (try_finally (batch_body pids batch_count) putconn w) =
                emitted (batch_body pids batch_count w)).
  { unfold try_finally. destruct (batch_body pids batch_count w) as [r1 w1 evs1].
    cbn. apply app_nil_r. }
  rewrite Hem in Hin. clear Hem.
  destruct (batch_body_http_calls pids batch_count w _ Hin) as (to_fetch & w1 & Hres & Hin1).
  destruct (filter_new_ids_frame pids w) as (_ & _ & _ & _ & Hsound).
  set (chunks := chunked to_fetch (Z.to_nat API_BATCH_LIMIT)) in *.
  pose proof (fetch_phase_process_chunks chunks chunks (incl_refl _) ([], []) w1) as Hfetch.
  apply http_calls_In in Hin1.
  rewrite Forall_forall in Hfetch. specialize (Hfetch _ Hin1).
  unfold fetch_phase_ok in Hfetch. rewrite Hkw in Hfetch.
  destruct (in_dec (list_eq_dec string_dec) ids chunks) as [Hc|];
    [|rewrite andb_false_r in Hfetch; discriminate].
  assert (Hpf : In p to_fetch).
  { rewrite <- (concat_chunked to_fetch (Z.to_nat API_BATCH_LIMIT)) by (cbn; lia).
    apply in_concat. exists ids. split; [exact Hc | exact Hp]. }
  destruct (Hsound to_fetch p Hres Hpf) as (Hpids & Hnew).
  split; [exact Hpids|]. intros Hrow.
  destruct Hnew as [Hbf | Hnorow]; [|exact (Hnorow Hrow)].
  rewrite (Hcov p Hrow) in Hbf. discriminate.
Qed.

Lemma batch_fetches_only_unprocessed_witness :
  In "P1" ["P1"] /\ ~ In "P1" (processed_keys world_batch_reply).
Proof.
  apply (batch_fetches_only_unprocessed ["P1"] 1 world_batch_reply ltac:(intros k [])
           (mkRequest "POST" batch_url REQUEST_TIMEOUT (KwJson ["P1"]))
           (hd (HttpRaises Timeout) (w_http world_batch_reply)) ["P1"] "P1").
  - vm_compute. left. reflexivity.
  - reflexivity.
  - left. reflexivity.
Defined.

(** ** The commit every fifth batch (lines 332-333) *)

Lemma settled_mono w w' :
  settled w -> w_working w' = w_working w -> w_committed w' = w_committed w -> settled w'.
Proof. unfold settled. congruence. Qed.

Lemma write_batch_settled st :
  hoare settled (write_batch st) (fun _ => settled) (fun _ _ => True).
Proof.
  unfold write_batch. eapply hoare_bind with (Q' := fun _ => settled).
  - intros w Hs.
    pose proof (safe_insert_citations_hoare (snd st) (w_committed w) w (conj Hs eq_refl)) as H.
    destruct (res (safe_insert_citations (snd st) w)) as [[]|e]; [apply H | exact I].
  - intros u. destruct (fst st) as [|entry fos]; [apply hoare_ret; auto|].
    intros w Hs.
    pose proof (mark_processed_hoare (entry :: fos) (w_committed w) (w_bf_processed w)
                  ltac:(discriminate) w (conj Hs (conj eq_refl eq_refl))) as H.
    destruct (res (mark_processed (entry :: fos) w)) as [[]|e]; [apply H | exact I].
Qed.

Lemma enqueue_cited_settled ref_rows : keeps settled (enqueue_cited ref_rows).
Proof.
  assert (Hf : forall ids, keeps settled (filter_new_ids ids)).
  { intros ids w Hs. destruct (filter_new_ids_frame ids w) as (_ & _ & Hc & Hw & _).
    assert (H : settled (post (filter_new_ids ids w))) by (apply (settled_mono w); assumption).
    destruct (res (filter_new_ids ids w)); exact H. }
  unfold enqueue_cited. apply keeps_bind; [apply Hf|].
  intros new_ids. destruct new_ids as [|n ns]; [apply keeps_ret|].
  intros w Hw. unfold bind. rewrite BF_MADD_queued_run by discriminate.
  destruct (flagged true _ _) as [|t ts]; [exact Hw|].
  rewrite r_rpush_run by discriminate. exact Hw.
Qed.

(** X23: the commit that follows every fifth batch commits nothing.
    When the two writes and the enqueue step of a batch have returned,
    no transaction is open: each writer has committed its own rows and
    the enqueue step writes to Redis only.  So [conn.commit()] of line
    333 changes no row, whether the database accepts it or not. *)
Theorem periodic_commit_commits_nothing (st : collected) w :
  settled w ->
  let r := (write_batch st ;; enqueue_cited (snd st)) w in
  res r = Ret tt ->
  settled (post r) /\
  w_committed (post (conn_commit (post r))) = w_committed (post r) /\
  w_working (post (conn_commit (post r))) = w_working (post r).
Proof.
  intros Hs r Hres.
  assert (Hset : settled (post r)).
  { pose proof (hoare_bind settled (write_batch st) (fun _ => enqueue_cited (snd st))
                  (fun _ => settled) (fun _ => settled) (fun _ _ => True)
                  (write_batch_settled st)) as H.
    specialize (H (fun _ => hoare_weaken _ _ _ _ _ _ _ (enqueue_cited_settled (snd st))
                               (fun w H => H) (fun _ w H => H) (fun _ _ _ => I)) w Hs).
    fold r in H. rewrite Hres in H. exact H. }
  split; [exact Hset|].
  rewrite conn_commit_run. destruct (next_db_reply (post r)); cbn [post]; auto.
Qed.

Lemma periodic_commit_commits_nothing_witness :
  w_committed (post (conn_commit (post ((write_batch ([("P1", [])], [("P1", "R22")]) ;;
                                         enqueue_cited [("P1", "R22")]) world_one_deadlock)))) =
  w_committed (post ((write_batch ([("P1", [])], [("P1", "R22")]) ;;
                      enqueue_cited [("P1", "R22")]) world_one_deadlock)).
Proof.
  destruct (periodic_commit_commits_nothing ([("P1", [])], [("P1", "R22")]) world_one_deadlock
              eq_refl eq_refl) as (_ & H & _).
  exact H.
Defined.

(** ** What the records of an answer contribute (lines 297-317) *)

Lemma grows_refl st : grows st st.
Proof. split; auto. Qed.

Lemma grows_trans st1 st2 st3 : grows st1 st2 -> grows st2 st3 -> grows st1 st3.
Proof. intros (H1 & H2) (H3 & H4). split; auto. Qed.

Lemma record_collected_grows rec st st' :
  record_collected rec st -> grows st st' -> record_collected rec st'.
Proof.
  intros Hrec (Hk & Hr). destruct rec as [| |[pid|] rc refs fos]; cbn in *; auto.
  intros Hne. destruct (Hrec Hne) as (H1 & H2). split; [apply Hk; exact H1|].
  intros rid Hin Hrid. apply Hr. apply H2; assumption.
Qed.

Lemma process_record_adds rec st :
  hoare (fun _ => True) (process_record rec st)
        (fun st' _ => grows st st' /\ record_collected rec st')
        (fun _ _ => True).
Proof.
  unfold process_record.
  destruct rec as [| |paperId referenceCount references fieldsOfStudy];
    try (apply hoare_ret; intros w _; split; [apply grows_refl | exact I]).
  destruct (truthy_id paperId) as [pid|] eqn:Hpid.
  2:{ apply hoare_ret. intros w _. split; [apply grows_refl|].
      destruct paperId as [p|]; cbn; [|exact I]. intros Hne. exfalso.
      cbn in Hpid. destruct (String.eqb_spec p ""); [contradiction | discriminate]. }
  assert (Hp : paperId = Some pid).
  { destruct paperId as [p|]; cbn in Hpid; [|discriminate].
    destruct (String.eqb p ""); [discriminate | congruence]. }
  subst paperId.
  assert (Hbase : forall extra,
             grows st (dict_set pid (or_default fieldsOfStudy []) (fst st),
                       (snd st ++ edges_of pid (or_default references [])) ++ extra) /\
             record_collected (ItemRecord (Some pid) referenceCount references fieldsOfStudy)
               (dict_set pid (or_default fieldsOfStudy []) (fst st),
                (snd st ++ edges_of pid (or_default references [])) ++ extra)).
  { intros extra. split.
    - split; cbn [fst snd].
      + intros k Hk. apply dict_set_keys. right. exact Hk.
      + intros row Hrow. apply in_or_app. left. apply in_or_app. left. exact Hrow.
    - cbn. intros Hne. split; [apply dict_set_keys; left; reflexivity|].
      intros rid Hin Hrid. apply in_or_app. left. apply in_or_app. right.
      apply edges_of_In. auto. }
  destruct (_ && _).
  - eapply hoare_try_except with (R' := fun _ _ => True).
    + eapply hoare_bind; [apply hoare_any|]. intros r. apply hoare_ret. intros w _.
      apply Hbase.
    + intros e _. apply hoare_ret. intros w _.
      specialize (Hbase []). rewrite app_nil_r in Hbase. exact Hbase.
    + auto.
  - apply hoare_ret. intros w _.
    specialize (Hbase []). rewrite app_nil_r in Hbase. exact Hbase.
Qed.

Lemma process_records_adds recs :
  forall st,
    hoare (fun _ => True) (process_records recs st)
          (fun st' _ => grows st st' /\ forall rec, In rec recs -> record_collected rec st')
          (fun _ _ => True).
Proof.
  induction recs as [|rec recs IH]; intros st; cbn [process_records].
  - apply hoare_ret. intros w _. split; [apply grows_refl | intros rec []].
  - eapply hoare_bind; [apply process_record_adds|].
    intros st1 w (Hg1 & Hrec1).
    specialize (IH st1 w I).
    destruct (res (process_records recs st1 w)) as [st'|e]; [|exact I].
    destruct IH as (Hg2 & Hrest). split; [eapply grows_trans; eassumption|].
    intros rec' [<- | Hin]; [|apply Hrest; exact Hin].
    eapply record_collected_grows; eassumption.
Qed.

(** X24: nothing an answer reports is dropped on the way to the
    writers.  When the records of a batch answer have been gone through,
    every record with a paperId that is not empty has its paper among the
    keys of [fos_map] and, for each of its embedded references with an id
    that is not empty, the edge (paper, reference) among the collected
    rows; and everything collected before is still there.  With the two
    writes of the batch this gives edge completeness for the embedded
    references: a paper is only marked after its edges are committed. *)
Theorem process_records_collects_every_record recs st w st' :
  res (process_records recs st w) = Ret st' ->
  (forall k, In k (dict_keys (fst st)) -> In k (dict_keys (fst st'))) /\
  (forall row, In row (snd st) -> In row (snd st')) /\
  (forall pid rc refs fos rid,
     In (ItemRecord (Some pid) rc refs fos) recs -> pid <> "" ->
     In pid (dict_keys (fst st')) /\
     (In (mkRef (Some rid)) (or_default refs []) -> rid <> "" -> In (pid, rid) (snd st'))).
Proof.
  intros Hres. pose proof (process_records_adds recs st w I) as H.
  rewrite Hres in H. destruct H as ((Hk & Hr) & Hrecs).
  split; [exact Hk|]. split; [exact Hr|].
  intros pid rc refs fos rid Hin Hne.
  destruct (Hrecs _ Hin Hne) as (H1 & H2). split; [exact H1|].
  intros Hrid Hne'. apply H2; assumption.
Qed.

Lemma process_records_collects_every_record_witness :
  In "P1" (dict_keys [("P1", @nil string)]) /\
  (In (mkRef (Some "R1")) (or_default (Some [mkRef (Some "R1")]) []) -> "R1" <> "" ->
   In ("P1", "R1") [("P1", "R1")]).
Proof.
  destruct (process_records_collects_every_record
              [ItemRecord (Some "P1") (Some 1) (Some [mkRef (Some "R1")]) None]
              ([], []) world0 ([("P1", [])], [("P1", "R1")]) eq_refl) as (_ & _ & H).
  apply (H "P1" (Some 1) (Some [mkRef (Some "R1")]) None "R1").
  - left. reflexivity.
  - discriminate.
Defined.
